(** * Interview-preparation agents: question extraction and progress tracking

    A shallow embedding of the parsing code of [generateQuestions]
    (src/interview_prep/simple.js and its copy in the multi-agent program)
    and of the class [ProgressTrackingAgent].

    Modelling conventions.
    - A JavaScript string is the list of its UTF-16 code units, each given
      by its number; literals are written in ASCII.
    - A plain object used as a map ([topicPerformance], [conceptMastery],
      [timeSpent]) is the association list of its own properties, in the
      order in which [Object.entries] lists them: the keys that are array
      indices first, in ascending order, then the others in the order of
      their creation.  Reading a key that is not an own property finds the
      member of [Object.prototype] of that name, if there is one.
    - A [Set] is a duplicate-free list in insertion order.
    - Counters are natural numbers; the code holds them in doubles, which
      are exact below 2^53.  The other numbers are doubles: a finite one is
      given by its exact rational value, and every operation rounds its
      exact result to the nearest double, to the even one of two nearest.
      The sign of a zero is not kept: no division of the code is by a
      negative zero, and [toFixed] prints both zeros alike.
    - Operations that can throw return a [result] or an [Outcome]. *)

From Stdlib Require Import List Ascii String Bool Arith Lia ZArith QArith.
From Stdlib Require Import Qround Qpower Qabs Lqa.
From Stdlib Require Qcanon.
From Stdlib Require Import DecimalString Sorting.Sorted Sorting.Permutation.
Import ListNotations.

Local Open Scope nat_scope.
Local Open Scope list_scope.

(** ** Strings *)

Module Str.

(** A code unit of UTF-16, by its number. *)
Definition char := N.

Definition jsstring := list char.

(** A literal, written in ASCII. *)
Definition js (s : string) : jsstring :=
  map N_of_ascii (list_ascii_of_string s).

Definition str_dec : forall a b : jsstring, {a = b} + {a <> b} :=
  list_eq_dec N.eq_dec.

Definition str_eqb (a b : jsstring) : bool :=
  if str_dec a b then true else false.

Definition nl : char := 10%N.
Definition space : char := 32%N.
Definition colon : char := 58%N.

(** [String.prototype.startsWith]. *)
Fixpoint startsWith (p s : jsstring) : bool :=
  match p, s with
  | [], _ => true
  | _ :: _, [] => false
  | a :: p', b :: s' => N.eqb a b && startsWith p' s'
  end.

(** [String.prototype.split] with a non-empty separator [d] (a string, or a
    regular expression that is a literal without groups): the input is
    scanned from the left; where [d] starts, the segment read so far is
    closed and [d] is skipped.  [skip] counts the characters of a recognised
    separator still to be passed over, [cur] holds the open segment in
    reverse. *)
Fixpoint split_from (d : jsstring) (skip : nat) (cur : jsstring)
  (s : jsstring) : list jsstring :=
  match s with
  | [] => [rev cur]
  | c :: s' =>
      match skip with
      | S k => split_from d k cur s'
      | O =>
          if startsWith d s
          then rev cur :: split_from d (pred (List.length d)) [] s'
          else split_from d 0 (c :: cur) s'
      end
  end.

Definition split (d s : jsstring) : list jsstring := split_from d 0 [] s.

(** White space and line terminators of ECMAScript, which [trim] removes:
    TAB, LF, VT, FF, CR, SP, U+00A0, U+1680, U+2000 to U+200A, U+2028,
    U+2029, U+202F, U+205F, U+3000 and U+FEFF. *)
Definition is_ws (c : char) : bool :=
  ((9 <=? c) && (c <=? 13) || (c =? 32) || (c =? 160) || (c =? 5760) ||
   (8192 <=? c) && (c <=? 8202) || (c =? 8232) || (c =? 8233) ||
   (c =? 8239) || (c =? 8287) || (c =? 12288) || (c =? 65279))%N.

Fixpoint trimStart (s : jsstring) : jsstring :=
  match s with
  | c :: s' => if is_ws c then trimStart s' else s
  | [] => []
  end.

Definition trimEnd (s : jsstring) : jsstring := rev (trimStart (rev s)).

(** [String.prototype.trim]. *)
Definition trim (s : jsstring) : jsstring := trimEnd (trimStart s).

(** Truthiness of a string: it is not empty. *)
Definition truthy (s : jsstring) : bool :=
  match s with [] => false | _ :: _ => true end.

(** The lower case of a code unit, where it has a part in a comparison with
    an ASCII word: the letters A to Z, the Kelvin sign U+212A, which becomes
    [k], and U+0130, which becomes [i] followed by U+0307.  Every other
    letter outside ASCII becomes a letter outside ASCII and is left as it
    is. *)
Definition lower_char (c : char) : list char :=
  (if (65 <=? c) && (c <=? 90) then [c + 32]
   else if c =? 8490 then [107]
   else if c =? 304 then [105; 775]
   else [c])%N.

(** [String.prototype.toLowerCase]. *)
Definition toLowerCase (s : jsstring) : jsstring := flat_map lower_char s.

End Str.
Import Str.

(** ** Concept extraction *)

Definition technicalTerms : list jsstring :=
  map js ["array"; "function"; "class"; "object"; "loop"; "variable";
          "recursion"; "inheritance"; "async"; "promise"; "component";
          "state"; "props"; "api"; "database"; "algorithm"]%string.

(** [Array.prototype.includes] on an array of strings. *)
Definition includes (l : list jsstring) (w : jsstring) : bool :=
  existsb (str_eqb w) l.

(** [Set.prototype.add]: insertion order, no duplicates. *)
Definition set_add (w : jsstring) (st : list jsstring) : list jsstring :=
  if includes st w then st else st ++ [w].

(** [ProgressTrackingAgent.extractConcepts]. *)
Definition extractConcepts (question : jsstring) : list jsstring :=
  let words := split [space] (toLowerCase question) in
  fold_left
    (fun concepts word =>
       if includes technicalTerms word then set_add word concepts
       else concepts)
    words [].

(** The reading of the specification: tokens are separated by any white
    space.  Used only to compare with [extractConcepts]. *)
Fixpoint words_ws (cur : jsstring) (s : jsstring) : list jsstring :=
  match s with
  | [] => [rev cur]
  | c :: s' => if is_ws c then rev cur :: words_ws [] s'
               else words_ws (c :: cur) s'
  end.

Definition tagConcepts_spec (questionText : jsstring) : list jsstring :=
  fold_left
    (fun concepts word =>
       if includes technicalTerms word then set_add word concepts
       else concepts)
    (words_ws [] (toLowerCase questionText)) [].

(** ** Question extraction: the parsing part of [generateQuestions] *)

Module Extract.

(** Outcome of code that can throw. *)
Inductive result (A : Type) : Type :=
| Ok (a : A)
| TypeError.
Arguments Ok {A} a.
Arguments TypeError {A}.

Definition bind {A B} (r : result A) (f : A -> result B) : result B :=
  match r with Ok a => f a | TypeError => TypeError end.

Notation "x <- r ;; k" := (bind r (fun x => k))
  (at level 61, r at next level, right associativity).

(** The records pushed on [questions]; [correct] is [None] for
    [undefined]. *)
Inductive Question : Type :=
| MCQ (question : jsstring) (options : list jsstring)
      (correct : option jsstring)
| Theory (question : jsstring) (modelAnswer : jsstring).

Inductive QuestionType := MultipleChoice | Theoretical.

(** [type.toLowerCase() === "mcq" ? "multiple-choice" : "theoretical"]. *)
Definition questionType (type : jsstring) : QuestionType :=
  if str_eqb (toLowerCase type) (js "mcq") then MultipleChoice
  else Theoretical.

(** [content.split(/Question: /).filter(block => block.trim())]. *)
Definition questionBlocks (content : jsstring) : list jsstring :=
  filter (fun block => truthy (trim block)) (split (js "Question: ") content).

(** [block.split('\n').filter(line => line.trim())]. *)
Definition blockLines (block : jsstring) : list jsstring :=
  filter (fun line => truthy (trim line)) (split [nl] block).

(** [lines.slice(1, 5)]. *)
Definition slice_1_5 (lines : list jsstring) : list jsstring :=
  firstn 4 (skipn 1 lines).

(** [lines.find(line => line.startsWith('Correct:'))?.split(':')[1].trim()]:
    [undefined] when no line is found; reading [.trim] of a missing second
    piece would throw. *)
Definition correctOf (lines : list jsstring) : result (option jsstring) :=
  match find (startsWith (js "Correct:")) lines with
  | None => Ok None
  | Some line =>
      match nth_error (split [colon] line) 1 with
      | Some piece => Ok (Some (trim piece))
      | None => TypeError
      end
  end.

(** Body of the loop over the blocks of a multiple-choice answer. *)
Definition parseMcqBlock (block : jsstring) : result Question :=
  let lines := blockLines block in
  match nth_error lines 0 with
  | None => TypeError
  | Some line0 =>
      let question := trim line0 in
      let options := map trim (slice_1_5 lines) in
      correct <- correctOf lines ;;
      Ok (MCQ question options correct)
  end.

(** [Array.prototype.join]. *)
Fixpoint join (sep : jsstring) (parts : list jsstring) : jsstring :=
  match parts with
  | [] => []
  | [p] => p
  | p :: rest => p ++ sep ++ join sep rest
  end.

(** Body of the loop over the blocks of a theoretical answer. *)
Definition parseTheoryBlock (block : jsstring) : result Question :=
  match split (js "Model Answer:") block with
  | [] => TypeError
  | question :: answerParts =>
      let modelAnswer := trim (join (js "Model Answer:") answerParts) in
      Ok (Theory (trim question) modelAnswer)
  end.

(** The loop: records are pushed in order, a throw aborts the call. *)
Fixpoint forBlocks (body : jsstring -> result Question)
  (blocks : list jsstring) : result (list Question) :=
  match blocks with
  | [] => Ok []
  | block :: rest =>
      q <- body block ;;
      qs <- forBlocks body rest ;;
      Ok (q :: qs)
  end.

(** The parsing of the reply, for each of the two types of questions. *)
Definition parseQuestions (qt : QuestionType) (content : jsstring)
  : result (list Question) :=
  match qt with
  | MultipleChoice => forBlocks parseMcqBlock (questionBlocks content)
  | Theoretical => forBlocks parseTheoryBlock (questionBlocks content)
  end.

(** [generateQuestions(topic, numQuestions, type)]: [topic] and
    [numQuestions] only enter the prompt sent to the model; the reply of the
    model, [content], is an input here. *)
Definition generateQuestions (type content : jsstring)
  : result (list Question) :=
  parseQuestions (questionType type) content.

End Extract.

(** ** Objects used as maps *)

Module Obj.

Definition obj (V : Type) : Type := list (jsstring * V).

(** The own property [k] of [o]. *)
Fixpoint get {V} (k : jsstring) (o : obj V) : option V :=
  match o with
  | [] => None
  | (k', v) :: o' => if str_dec k k' then Some v else get k o'
  end.

(** The number that a string of digits denotes, after [acc]. *)
Fixpoint digitsValue (acc : N) (k : jsstring) : option N :=
  match k with
  | [] => Some acc
  | c :: k' =>
      if ((48 <=? c) && (c <=? 57))%N
      then digitsValue (10 * acc + (c - 48))%N k'
      else None
  end.

(** An array index: the decimal text, without leading zero, of a number
    below [2^32 - 1]. *)
Definition arrayIndex (k : jsstring) : option N :=
  match k with
  | [] => None
  | c :: k' =>
      if (c =? 48)%N
      then match k' with [] => Some 0%N | _ :: _ => None end
      else match digitsValue 0 k with
           | Some n => if (n <=? 4294967294)%N then Some n else None
           | None => None
           end
  end.

(** The order of own keys: the array indices come first, in ascending
    order, and the other keys follow in the order of their creation.
    [before k k'] tells that a new key [k] goes before the key [k']. *)
Definition before (k k' : jsstring) : bool :=
  match arrayIndex k, arrayIndex k' with
  | Some n, Some n' => (n <? n')%N
  | Some _, None => true
  | None, _ => false
  end.

(** The value of an existing property is replaced, in its place. *)
Fixpoint replace {V} (k : jsstring) (v : V) (o : obj V) : obj V :=
  match o with
  | [] => []
  | (k', v') :: o' =>
      if str_dec k k' then (k, v) :: o' else (k', v') :: replace k v o'
  end.

(** A new property is created, at its place in the order of keys. *)
Fixpoint insert {V} (k : jsstring) (v : V) (o : obj V) : obj V :=
  match o with
  | [] => [(k, v)]
  | (k', v') :: o' =>
      if before k k' then (k, v) :: o else (k', v') :: insert k v o'
  end.

(** [o[k] = v]. *)
Definition set {V} (k : jsstring) (v : V) (o : obj V) : obj V :=
  match get k o with
  | Some _ => replace k v o
  | None => insert k v o
  end.

(** The names of the members of [Object.prototype]: reading one of them on
    an object that has no own property of that name gives the member, a
    function, or for [__proto__] the prototype itself. *)
Definition objectPrototype : list jsstring :=
  map js ["constructor"; "__defineGetter__"; "__defineSetter__";
          "hasOwnProperty"; "__lookupGetter__"; "__lookupSetter__";
          "isPrototypeOf"; "propertyIsEnumerable"; "toString"; "valueOf";
          "__proto__"; "toLocaleString"]%string.

Definition inherited (k : jsstring) : bool := includes objectPrototype k.

(** Truthiness of [o[k]], the stored values being objects or arrays: an
    own property, or else an inherited member. *)
Definition has {V} (k : jsstring) (o : obj V) : bool :=
  match get k o with
  | Some _ => true
  | None => inherited k
  end.

(** [if (!o[k]) o[k] = v]. *)
Definition init_if_absent {V} (k : jsstring) (v : V) (o : obj V) : obj V :=
  if has k o then o else set k v o.

(** In-place change of the object stored under [k]; what is written on an
    inherited member is no part of [o]. *)
Definition update {V} (k : jsstring) (f : V -> V) (o : obj V) : obj V :=
  match get k o with
  | Some v => set k (f v) o
  | None => o
  end.

Definition keys {V} (o : obj V) : list jsstring := map fst o.

End Obj.

(** ** Doubles *)

Module Double.

(** A value of type Number. *)
Inductive number : Type :=
| NaN
| Infinity (neg : bool)
| Finite (q : Q).

Definition pow2 (e : Z) : Q := Qpower 2 e.

(** The integer part of the binary logarithm of a positive rational. *)
Definition ilog2 (x : Q) : Z :=
  let d := (Z.log2 (Qnum x) - Z.log2 (Zpos (Qden x)))%Z in
  if Qle_bool (pow2 d) x then d else (d - 1)%Z.

(** The nearest integer, the even one of two nearest. *)
Definition rne (y : Q) : Z :=
  let f := Qfloor y in
  match Qcompare (y - inject_Z f) (1 # 2) with
  | Lt => f
  | Gt => (f + 1)%Z
  | Eq => if Z.even f then f else (f + 1)%Z
  end.

(** The exponent of the last bit of the double nearest to a positive [x]:
    53 bits are kept, and no exponent is below that of the subnormals. *)
Definition expo (x : Q) : Z := Z.max (ilog2 x - 52) (-1074).

(** What a positive [x] is rounded to, were there no largest double. *)
Definition val (x : Q) : Q :=
  (inject_Z (rne (x / pow2 (expo x))) * pow2 (expo x))%Q.

(** The double nearest to a positive rational. *)
Definition roundPos (x : Q) : number :=
  if Qle_bool (pow2 1024) (val x) then Infinity false
  else Finite (Qred (val x)).

Definition negate (n : number) : number :=
  match n with
  | NaN => NaN
  | Infinity s => Infinity (negb s)
  | Finite q => Finite (- q)
  end.

(** The double nearest to a rational. *)
Definition round (x : Q) : number :=
  match Qnum x with
  | Z0 => Finite 0
  | Zpos _ => roundPos x
  | Zneg _ => negate (roundPos (- x))
  end.

(** [a + b]. *)
Definition add (a b : number) : number :=
  match a, b with
  | NaN, _ | _, NaN => NaN
  | Infinity s, Infinity s' => if Bool.eqb s s' then Infinity s else NaN
  | Infinity s, Finite _ | Finite _, Infinity s => Infinity s
  | Finite x, Finite y => round (x + y)
  end.

(** [a * b]. *)
Definition mul (a b : number) : number :=
  match a, b with
  | NaN, _ | _, NaN => NaN
  | Infinity s, Infinity s' => Infinity (xorb s s')
  | Infinity s, Finite y | Finite y, Infinity s =>
      match Qnum y with
      | Z0 => NaN
      | Zpos _ => Infinity s
      | Zneg _ => Infinity (negb s)
      end
  | Finite x, Finite y => round (x * y)
  end.

(** [a / b]; a divisor that is zero is the positive zero. *)
Definition div (a b : number) : number :=
  match a, b with
  | NaN, _ | _, NaN => NaN
  | Infinity _, Infinity _ => NaN
  | Infinity s, Finite y => Infinity (xorb s (Qnum y <? 0)%Z)
  | Finite _, Infinity _ => Finite 0
  | Finite x, Finite y =>
      match Qnum y with
      | Z0 => match Qnum x with
              | Z0 => NaN
              | Zpos _ => Infinity false
              | Zneg _ => Infinity true
              end
      | _ => round (x / y)
      end
  end.

(** [a < b]. *)
Definition ltb (a b : number) : bool :=
  match a, b with
  | NaN, _ | _, NaN => false
  | Infinity s, Infinity s' => s && negb s'
  | Infinity s, Finite _ => s
  | Finite _, Infinity s => negb s
  | Finite x, Finite y => negb (Qle_bool y x)
  end.

(** A counter, or the length of an array, as a number. *)
Definition ofNat (n : nat) : number := Finite (inject_Z (Z.of_nat n)).

End Double.

(** ** Numbers shown with two decimals *)

Module Fixed.
Import Double.

(** The string returned by [toFixed(2)], kept by what it denotes: ["NaN"],
    an infinity, a sign and a number of hundredths, or a number of at least
    [10^21] in absolute value, which is written as [toString] writes it. *)
Inductive fixed2 : Type :=
| FxNaN
| FxInfinity (neg : bool)
| Fx (neg : bool) (hundredths : Z)
| FxLarge (x : Q).

(** [x.toFixed(2)].  Below [10^21] the fixed notation is used: the sign of
    [x] and the nearest number of hundredths of its absolute value, the
    larger one when two are equally near. *)
Definition toFixed2 (x : number) : fixed2 :=
  match x with
  | NaN => FxNaN
  | Infinity s => FxInfinity s
  | Finite q =>
      if Qle_bool (inject_Z (10 ^ 21)) (Qabs q) then FxLarge q
      else Fx (Qnum q <? 0)%Z (Qfloor (Qabs q * 100 + (1 # 2)))
  end.

(** [((correct / total) * 100).toFixed(2)] on counters: [0 / 0] is [NaN]
    and a positive count over [0] is [Infinity]. *)
Definition percentage (correct total : nat) : fixed2 :=
  toFixed2 (mul (div (ofNat correct) (ofNat total)) (Finite 100)).

Definition digit (z : Z) : char := (48 + Z.to_N z)%N.

(** The decimal digits of a natural number. *)
Definition decimal (n : Z) : jsstring :=
  js (NilZero.string_of_uint (N.to_uint (Z.to_N n))).

(** The integer [v] is nearest to the double [x], an integer itself. *)
Definition represents (v x : Z) : bool :=
  match round (inject_Z v) with
  | Finite q => Qeq_bool q (inject_Z x)
  | _ => false
  end.

(** The digits of [toString] for a double [x] that is an integer of [n]
    digits: the least number [k] of digits such that some [s] of [k] digits
    followed by [n - k] zeros is nearest to [x] among the doubles; of two
    such [s] the one nearer to [x], or else the even one.  The result is [s]
    and the number of zeros. *)
Fixpoint shortest (fuel : nat) (k x n : Z) : Z * Z :=
  match fuel with
  | O => (x, 0%Z)
  | S fuel' =>
      let p := (10 ^ (n - k))%Z in
      let lo := (x / p)%Z in
      let hi := (lo + 1)%Z in
      let okLo := represents (lo * p) x in
      let okHi := represents (hi * p) x in
      if okLo && okHi then
        (if (x - lo * p <? hi * p - x)%Z then lo
         else if (hi * p - x <? x - lo * p)%Z then hi
         else if Z.even lo then lo else hi, (n - k)%Z)
      else if okLo then (lo, (n - k)%Z)
      else if okHi then (hi, (n - k)%Z)
      else shortest fuel' (k + 1)%Z x n
  end.

Fixpoint dropZeros (s : jsstring) : jsstring :=
  match s with
  | c :: s' => if (c =? 48)%N then dropZeros s' else s
  | [] => []
  end.

(** [toString] of a double of at least [10^21], an integer: a digit, the
    further digits after a point, and the exponent. *)
Definition toStringLarge (x : Z) : jsstring :=
  let n := Z.of_nat (List.length (decimal x)) in
  let (s, zeros) := shortest 17 1 x n in
  let ds := decimal s in
  let e := (Z.of_nat (List.length ds) - 1 + zeros)%Z in
  match rev (dropZeros (rev ds)) with
  | [] => []
  | [d] => [d] ++ js "e+" ++ decimal e
  | d :: rest => [d] ++ js "." ++ rest ++ js "e+" ++ decimal e
  end.

(** The text of a [fixed2]. *)
Definition render (f : fixed2) : jsstring :=
  match f with
  | FxNaN => js "NaN"
  | FxInfinity neg => (if neg then js "-" else []) ++ js "Infinity"
  | Fx neg h =>
      (if neg then js "-" else []) ++
      decimal (h / 100) ++
      js "." ++ [digit ((h / 10) mod 10); digit (h mod 10)]
  | FxLarge x =>
      (if (Qnum x <? 0)%Z then js "-" else []) ++
      toStringLarge (Qfloor (Qabs x))
  end.

(** [correct / total < num / den] on counters; the quotient by [0] is [NaN]
    or [Infinity], below nothing.  The quotients are compared exactly;
    [thresholdTest] is the comparison of the doubles, which decides alike
    for the thresholds of the code while the total is below 2^49. *)
Definition ratio_lt (correct total num den : nat) : bool :=
  match total with
  | O => false
  | S _ => den * correct <? num * total
  end.

(** [correct / total < 0.n], taken on doubles as the code takes it. *)
Definition thresholdTest (correct total tenths : nat) : bool :=
  ltb (div (ofNat correct) (ofNat total))
      (round (Z.of_nat tenths # 10)).

(** The number a text of [toFixed(2)] denotes, in hundredths. *)
Definition signed (neg : bool) (h : Z) : Z := if neg then (- h)%Z else h.

(** [a - b > 0] for two results of [toFixed(2)] turned back into numbers.
    The texts are compared by the decimal numbers they denote: the doubles
    of two texts of [toFixed(2)] are in the same order. *)
Definition minus_pos (a b : fixed2) : bool :=
  match a, b with
  | Fx na ha, Fx nb hb => (signed nb hb <? signed na ha)%Z
  | Fx na ha, FxLarge y =>
      negb (Qle_bool (inject_Z (signed na ha) / 100) y)
  | FxLarge x, Fx nb hb =>
      negb (Qle_bool x (inject_Z (signed nb hb) / 100))
  | FxLarge x, FxLarge y => negb (Qle_bool x y)
  | FxInfinity false, (Fx _ _ | FxLarge _ | FxInfinity true) => true
  | (Fx _ _ | FxLarge _), FxInfinity true => true
  | _, _ => false
  end.

End Fixed.

(** ** The progress tracking agent *)

Module Tracker.
Import Obj Double Fixed.

Record Stats : Type := mkStats { correct : nat; total : nat }.

(** A JavaScript value that is a number or a string of [toFixed(2)]. *)
Inductive jsval : Type :=
| VNumber (q : Q)
| VString (f : fixed2).

Record TopicStats : Type := mkTopicStats {
  t_correct : nat;
  t_total : nat;
  t_weakAreas : list jsstring;
  conceptsTests : obj Stats;
  averageTime : jsval
}.

Record HistoryEntry : Type := mkHistoryEntry {
  h_topic : jsstring;
  h_question : jsstring;
  h_isCorrect : bool;
  h_evaluation : jsstring;
  h_timeTaken : option number;
  h_concepts : list jsstring;
  h_timestamp : Z
}.

Record Agent : Type := mkAgent {
  correctAnswers : nat;
  totalQuestions : nat;
  topicPerformance : obj TopicStats;
  weakAreas : list jsstring;
  questionHistory : list HistoryEntry;
  conceptMastery : obj Stats;
  timeSpent : obj (list number)
}.

(** [constructor()]. *)
Definition newAgent : Agent :=
  {| correctAnswers := 0; totalQuestions := 0; topicPerformance := [];
     weakAreas := []; questionHistory := []; conceptMastery := [];
     timeSpent := [] |}.

Definition newTopicStats : TopicStats :=
  {| t_correct := 0; t_total := 0; t_weakAreas := []; conceptsTests := [];
     averageTime := VNumber 0 |}.

Definition newStats : Stats := {| correct := 0; total := 0 |}.

(** [s.total++; if (isCorrect) s.correct++]. *)
Definition count (isCorrect : bool) (s : Stats) : Stats :=
  {| correct := if isCorrect then S (correct s) else correct s;
     total := S (total s) |}.

(** Truthiness of [timeTaken], a number or [null] (or [undefined]): [null],
    [0] and [NaN] are falsy. *)
Definition truthyTime (timeTaken : option number) : option number :=
  match timeTaken with
  | Some (Finite t) => if Qeq_bool t 0 then None else Some (Finite t)
  | Some (Infinity s) => Some (Infinity s)
  | Some NaN => None
  | None => None
  end.

(** [times.reduce((a, b) => a + b, 0)]. *)
Definition sumTimes (times : list number) : number :=
  fold_left add times (Finite 0).

(** [calculateAverageTime(topic)], [times] being [this.timeSpent[topic]]. *)
Definition calculateAverageTime (times : list number) : jsval :=
  if 0 <? List.length times
  then VString (toFixed2 (div (sumTimes times) (ofNat (List.length times))))
  else VNumber 0.

(** What the first [concepts.forEach] does to one of its two maps: the
    entry is created when missing, then counted. *)
Definition countEntry (isCorrect : bool) (m : obj Stats)
  (concept : jsstring) : obj Stats :=
  update concept (count isCorrect) (init_if_absent concept newStats m).

(** One turn of the first [concepts.forEach], on the global map and on the
    map of the topic. *)
Definition countConcept (isCorrect : bool)
  (maps : obj Stats * obj Stats) (concept : jsstring)
  : obj Stats * obj Stats :=
  let (mastery, tests) := maps in
  (countEntry isCorrect mastery concept, countEntry isCorrect tests concept).

(** The test of the second [concepts.forEach]. *)
Definition belowMastery (mastery : obj Stats) (concept : jsstring) : bool :=
  match get concept mastery with
  | Some s => ratio_lt (correct s) (total s) 7 10
  | None => false
  end.

(** One turn of the second [concepts.forEach]. *)
Definition markWeak (mastery : obj Stats)
  (sets : list jsstring * list jsstring) (concept : jsstring)
  : list jsstring * list jsstring :=
  let (weak, topicWeak) := sets in
  if belowMastery mastery concept
  then (set_add concept weak, set_add concept topicWeak)
  else (weak, topicWeak).

(** [if (!this.timeSpent[topic]) this.timeSpent[topic] = [];
    this.timeSpent[topic].push(timeTaken)]: [None] when what is read is a
    member of [Object.prototype], none of which has a [push]. *)
Definition pushTime (topic : jsstring) (t : number)
  (spent : obj (list number)) : option (obj (list number)) :=
  let spent1 := init_if_absent topic [] spent in
  match get topic spent1 with
  | Some _ => Some (update topic (fun times => times ++ [t]) spent1)
  | None => None
  end.

(** How a call ends: it returns, or it throws a [TypeError]; either way the
    agent is left in a state. *)
Inductive Outcome : Type :=
| Returned (a : Agent)
| Threw (a : Agent).

Definition stateOf (o : Outcome) : Agent :=
  match o with
  | Returned a => a
  | Threw a => a
  end.

(** [trackAnswer(topic, question, isCorrect, evaluation, timeTaken)]; [now]
    is the value of [new Date()].

    [topicStats] is what [this.topicPerformance[topic]] reads after the
    initialisation.  When it is the object stored in the map, the changes
    made through it are written back to the map.  When [topic] names a
    member of [Object.prototype] and the map has no such own property, no
    entry is created and [topicStats] is that member: what is written on it
    is no part of the agent, and reading a property of its
    [conceptsTests], which is [undefined], throws. *)
Definition trackAnswer (a : Agent) (topic question : jsstring)
  (isCorrect : bool) (evaluation : jsstring) (timeTaken : option number)
  (now : Z) : Outcome :=
  let totalQuestions1 := S (totalQuestions a) in
  let correctAnswers1 :=
    if isCorrect then S (correctAnswers a) else correctAnswers a in
  let topicPerformance1 :=
    init_if_absent topic newTopicStats (topicPerformance a) in
  let concepts := extractConcepts question in
  let questionHistory1 :=
    questionHistory a ++
    [ {| h_topic := topic; h_question := question; h_isCorrect := isCorrect;
         h_evaluation := evaluation; h_timeTaken := timeTaken;
         h_concepts := concepts; h_timestamp := now |} ] in
  match get topic topicPerformance1 with
  | Some topicStats =>
      let total1 := S (t_total topicStats) in
      let correct1 :=
        if isCorrect then S (t_correct topicStats)
        else t_correct topicStats in
      let timed :=
        match truthyTime timeTaken with
        | Some t =>
            match pushTime topic t (timeSpent a) with
            | Some spent =>
                Some (spent,
                      calculateAverageTime
                        (match get topic spent with
                         | Some times => times
                         | None => []
                         end))
            | None => None
            end
        | None => Some (timeSpent a, averageTime topicStats)
        end in
      match timed with
      | None =>
          Threw
            {| correctAnswers := correctAnswers1;
               totalQuestions := totalQuestions1;
               topicPerformance :=
                 set topic
                   {| t_correct := correct1; t_total := total1;
                      t_weakAreas := t_weakAreas topicStats;
                      conceptsTests := conceptsTests topicStats;
                      averageTime := averageTime topicStats |}
                   topicPerformance1;
               weakAreas := weakAreas a;
               questionHistory := questionHistory a;
               conceptMastery := conceptMastery a;
               timeSpent := timeSpent a |}
      | Some (timeSpent1, averageTime1) =>
          let '(conceptMastery1, conceptsTests1) :=
            fold_left (countConcept isCorrect) concepts
              (conceptMastery a, conceptsTests topicStats) in
          let '(weakAreas1, topicWeak1) :=
            if isCorrect then (weakAreas a, t_weakAreas topicStats)
            else fold_left (markWeak conceptMastery1) concepts
                   (weakAreas a, t_weakAreas topicStats) in
          Returned
            {| correctAnswers := correctAnswers1;
               totalQuestions := totalQuestions1;
               topicPerformance :=
                 set topic
                   {| t_correct := correct1; t_total := total1;
                      t_weakAreas := topicWeak1;
                      conceptsTests := conceptsTests1;
                      averageTime := averageTime1 |}
                   topicPerformance1;
               weakAreas := weakAreas1;
               questionHistory := questionHistory1;
               conceptMastery := conceptMastery1;
               timeSpent := timeSpent1 |}
      end
  | None =>
      let timed :=
        match truthyTime timeTaken with
        | Some t => pushTime topic t (timeSpent a)
        | None => Some (timeSpent a)
        end in
      match timed with
      | None =>
          Threw
            {| correctAnswers := correctAnswers1;
               totalQuestions := totalQuestions1;
               topicPerformance := topicPerformance1;
               weakAreas := weakAreas a;
               questionHistory := questionHistory a;
               conceptMastery := conceptMastery a;
               timeSpent := timeSpent a |}
      | Some timeSpent1 =>
          match concepts with
          | concept :: _ =>
              Threw
                {| correctAnswers := correctAnswers1;
                   totalQuestions := totalQuestions1;
                   topicPerformance := topicPerformance1;
                   weakAreas := weakAreas a;
                   questionHistory := questionHistory a;
                   conceptMastery :=
                     countEntry isCorrect (conceptMastery a) concept;
                   timeSpent := timeSpent1 |}
          | [] =>
              Returned
                {| correctAnswers := correctAnswers1;
                   totalQuestions := totalQuestions1;
                   topicPerformance := topicPerformance1;
                   weakAreas := weakAreas a;
                   questionHistory := questionHistory1;
                   conceptMastery := conceptMastery a;
                   timeSpent := timeSpent1 |}
          end
      end
  end.

(** *** The report *)

Inductive FocusType := weak | practice.

Record Recommendation : Type := mkRecommendation {
  r_concept : jsstring;
  r_type : FocusType;
  r_mastery : fixed2
}.

(** [Array.prototype.sort] with the comparator
    [(a, b) => a.mastery - b.mastery].  The sort is stable; it is modelled
    by stable insertion, which yields the one stable arrangement whenever
    the comparator is an order. *)
Fixpoint insertByMastery (x : Recommendation) (l : list Recommendation)
  : list Recommendation :=
  match l with
  | [] => [x]
  | y :: l' =>
      if minus_pos (r_mastery x) (r_mastery y)
      then y :: insertByMastery x l'
      else x :: l
  end.

Definition sortByMastery (l : list Recommendation) : list Recommendation :=
  fold_right insertByMastery [] l.

(** First loop of [generateRecommendedFocus], over the set [weakAreas]. *)
Definition weakRecommendations (a : Agent) : list Recommendation :=
  flat_map
    (fun concept =>
       match get concept (conceptMastery a) with
       | Some mastery =>
           if ratio_lt (correct mastery) (total mastery) 6 10
           then [ {| r_concept := concept; r_type := weak;
                     r_mastery :=
                       percentage (correct mastery) (total mastery) |} ]
           else []
       | None => []
       end)
    (weakAreas a).

(** Second loop, over [Object.entries(this.conceptMastery)]. *)
Definition practiceRecommendations (a : Agent) : list Recommendation :=
  flat_map
    (fun entry : jsstring * Stats =>
       let (concept, stats) := entry in
       if negb (includes (weakAreas a) concept)
          && ratio_lt (correct stats) (total stats) 8 10
       then [ {| r_concept := concept; r_type := practice;
                 r_mastery := percentage (correct stats) (total stats) |} ]
       else [])
    (conceptMastery a).

Definition generateRecommendedFocus (a : Agent) : list Recommendation :=
  sortByMastery (weakRecommendations a ++ practiceRecommendations a).

Record Percentages : Type := mkPercentages {
  p_correct : nat;
  p_total : nat;
  p_percentage : fixed2
}.

Record TopicReport : Type := mkTopicReport {
  tr_correct : nat;
  tr_total : nat;
  tr_percentage : fixed2;
  tr_weakAreas : list jsstring;
  tr_averageTime : jsval
}.

Record Report : Type := mkReport {
  overall : Percentages;
  topicWise : obj TopicReport;
  rep_conceptMastery : obj Percentages;
  rep_weakAreas : list jsstring;
  timeAnalysis : obj unit;
  recommendedFocus : list Recommendation
}.

Definition percentages (c t : nat) : Percentages :=
  {| p_correct := c; p_total := t; p_percentage := percentage c t |}.

(** [getPerformanceReport()]. *)
Definition getPerformanceReport (a : Agent) : Report :=
  {| overall := percentages (correctAnswers a) (totalQuestions a);
     topicWise :=
       fold_left
         (fun acc (entry : jsstring * TopicStats) =>
            let (topic, stats) := entry in
            set topic
              {| tr_correct := t_correct stats; tr_total := t_total stats;
                 tr_percentage := percentage (t_correct stats) (t_total stats);
                 tr_weakAreas := t_weakAreas stats;
                 tr_averageTime := averageTime stats |}
              acc)
         (topicPerformance a) [];
     rep_conceptMastery :=
       fold_left
         (fun acc (entry : jsstring * Stats) =>
            let (concept, stats) := entry in
            set concept (percentages (correct stats) (total stats)) acc)
         (conceptMastery a) [];
     rep_weakAreas := weakAreas a;
     timeAnalysis := [];
     recommendedFocus := generateRecommendedFocus a |}.

(** A call of [trackAnswer], and a run: calls made one after the other on a
    new agent, each on the state the call before has left. *)
Record Call : Type := mkCall {
  c_topic : jsstring;
  c_question : jsstring;
  c_isCorrect : bool;
  c_evaluation : jsstring;
  c_timeTaken : option number;
  c_now : Z
}.

(** The state a call leaves, whether it returns or throws. *)
Definition step (a : Agent) (c : Call) : Agent :=
  stateOf
    (trackAnswer a (c_topic c) (c_question c) (c_isCorrect c)
       (c_evaluation c) (c_timeTaken c) (c_now c)).

Definition runFrom (a : Agent) (calls : list Call) : Agent :=
  fold_left step calls a.

Definition run (calls : list Call) : Agent := runFrom newAgent calls.

End Tracker.


Import Extract Obj Double Fixed Tracker.

(** ** Auxiliary definitions used to state the properties *)

(** Adding under a condition, as the loops over sets do. *)
Definition addIf (P : jsstring -> bool) (st : list jsstring) (w : jsstring)
  : list jsstring :=
  if P w then set_add w st else st.

(** The statistics of a topic when a call starts ([newTopicStats] for a
    topic met for the first time). *)
Definition topicStatsAt (tp : obj TopicStats) (t : jsstring) : TopicStats :=
  match get t tp with Some ts => ts | None => newTopicStats end.

(** [if (!o[k]) o[k] = v] for a key that names no member of
    [Object.prototype]. *)
Definition init_own {V} (k : jsstring) (v : V) (o : obj V) : obj V :=
  match get k o with
  | Some _ => o
  | None => set k v o
  end.

(** What one turn of the counting loop does to one of its two maps, for a
    concept that names no member of [Object.prototype]. *)
Definition countIn (ic : bool) (m : obj Stats) (c : jsstring) : obj Stats :=
  update c (count ic) (init_own c newStats m).

(** The state a call leaves when its topic names no member of
    [Object.prototype]: every object read is an own property and the call
    returns.  [trackAnswer_own] shows that [trackAnswer] does this. *)
Definition trackOwn (a : Agent) (topic question : jsstring)
  (isCorrect : bool) (evaluation : jsstring) (timeTaken : option number)
  (now : Z) : Agent :=
  let topicPerformance1 :=
    init_own topic newTopicStats (topicPerformance a) in
  let topicStats := topicStatsAt (topicPerformance a) topic in
  let timeSpent1 :=
    match truthyTime timeTaken with
    | Some t =>
        update topic (fun times => times ++ [t])
          (init_own topic [] (timeSpent a))
    | None => timeSpent a
    end in
  let concepts := extractConcepts question in
  let conceptMastery1 :=
    fold_left (countIn isCorrect) concepts (conceptMastery a) in
  {| correctAnswers :=
       if isCorrect then S (correctAnswers a) else correctAnswers a;
     totalQuestions := S (totalQuestions a);
     topicPerformance :=
       set topic
         {| t_correct :=
              if isCorrect then S (t_correct topicStats)
              else t_correct topicStats;
            t_total := S (t_total topicStats);
            t_weakAreas :=
              if isCorrect then t_weakAreas topicStats
              else fold_left (addIf (belowMastery conceptMastery1))
                     concepts (t_weakAreas topicStats);
            conceptsTests :=
              fold_left (countIn isCorrect) concepts
                (conceptsTests topicStats);
            averageTime :=
              match truthyTime timeTaken with
              | Some t =>
                  calculateAverageTime
                    (match get topic timeSpent1 with
                     | Some times => times
                     | None => []
                     end)
              | None => averageTime topicStats
              end |}
         topicPerformance1;
     weakAreas :=
       if isCorrect then weakAreas a
       else fold_left (addIf (belowMastery conceptMastery1)) concepts
              (weakAreas a);
     questionHistory :=
       questionHistory a ++
       [ {| h_topic := topic; h_question := question;
            h_isCorrect := isCorrect; h_evaluation := evaluation;
            h_timeTaken := timeTaken; h_concepts := concepts;
            h_timestamp := now |} ];
     conceptMastery := conceptMastery1;
     timeSpent := timeSpent1 |}.

Definition stepOwn (a : Agent) (c : Call) : Agent :=
  trackOwn a (c_topic c) (c_question c) (c_isCorrect c)
    (c_evaluation c) (c_timeTaken c) (c_now c).

(** The entry of the topic after such a call. *)
Definition topicStatsAfter (a : Agent) (topic question : jsstring)
  (isCorrect : bool) (evaluation : jsstring) (timeTaken : option number)
  (now : Z) : TopicStats :=
  let a' := trackOwn a topic question isCorrect evaluation timeTaken now in
  let ts := topicStatsAt (topicPerformance a) topic in
  {| t_correct := if isCorrect then S (t_correct ts) else t_correct ts;
     t_total := S (t_total ts);
     t_weakAreas :=
       if isCorrect then t_weakAreas ts
       else fold_left (addIf (belowMastery (conceptMastery a')))
              (extractConcepts question) (t_weakAreas ts);
     conceptsTests :=
       fold_left (countIn isCorrect) (extractConcepts question)
         (conceptsTests ts);
     averageTime :=
       match truthyTime timeTaken with
       | Some t =>
           calculateAverageTime
             (match get topic (timeSpent a') with
              | Some times => times
              | None => []
              end)
       | None => averageTime ts
       end |}.

(** The state a call leaves when its topic names a member of
    [Object.prototype], in an agent that has no own property of such a
    name: the call throws at the first use of the member, after the global
    counters, or after the global count of the first concept; it returns
    only when no time is given and the question names no concept. *)
Definition trackInherited (a : Agent) (topic question : jsstring)
  (isCorrect : bool) (evaluation : jsstring) (timeTaken : option number)
  (now : Z) : Outcome :=
  let counted :=
    {| correctAnswers :=
         if isCorrect then S (correctAnswers a) else correctAnswers a;
       totalQuestions := S (totalQuestions a);
       topicPerformance := topicPerformance a;
       weakAreas := weakAreas a;
       questionHistory := questionHistory a;
       conceptMastery := conceptMastery a;
       timeSpent := timeSpent a |} in
  match truthyTime timeTaken, extractConcepts question with
  | Some _, _ => Threw counted
  | None, concept :: _ =>
      Threw
        {| correctAnswers := correctAnswers counted;
           totalQuestions := totalQuestions counted;
           topicPerformance := topicPerformance a;
           weakAreas := weakAreas a;
           questionHistory := questionHistory a;
           conceptMastery := countIn isCorrect (conceptMastery a) concept;
           timeSpent := timeSpent a |}
  | None, [] =>
      Returned
        {| correctAnswers := correctAnswers counted;
           totalQuestions := totalQuestions counted;
           topicPerformance := topicPerformance a;
           weakAreas := weakAreas a;
           questionHistory :=
             questionHistory a ++
             [ {| h_topic := topic; h_question := question;
                  h_isCorrect := isCorrect; h_evaluation := evaluation;
                  h_timeTaken := timeTaken; h_concepts := [];
                  h_timestamp := now |} ];
           conceptMastery := conceptMastery a;
           timeSpent := timeSpent a |}
  end.

(** No own property of the maps keyed by topic names a member of
    [Object.prototype]: so it is in every state the calls reach. *)
Definition ownKeys (a : Agent) : Prop :=
  (forall k, In k (keys (topicPerformance a)) -> inherited k = false) /\
  (forall k, In k (keys (timeSpent a)) -> inherited k = false).

(** Every entry of a map of counters has [correct <= total]. *)
Definition allBounded (m : obj Stats) : Prop :=
  forall c s, In (c, s) m -> correct s <= total s.

(** The same for an agent: global counters, topics, concepts of a topic and
    global concepts. *)
Definition countersBounded (a : Agent) : Prop :=
  correctAnswers a <= totalQuestions a /\
  (forall topic ts, In (topic, ts) (topicPerformance a) ->
     t_correct ts <= t_total ts /\ allBounded (conceptsTests ts)) /\
  allBounded (conceptMastery a).

(** A concept has an entry in a map of counters, counted at least once. *)
Definition tracked (m : obj Stats) (c : jsstring) : Prop :=
  exists s, get c m = Some s /\ 1 <= total s.

(** Every weak concept, global or of a topic, is tracked globally. *)
Definition weakTracked (a : Agent) : Prop :=
  (forall c, In c (weakAreas a) -> tracked (conceptMastery a) c) /\
  (forall topic ts, In (topic, ts) (topicPerformance a) ->
     forall c, In c (t_weakAreas ts) -> tracked (conceptMastery a) c).


(** What the recommendation loops rely on. *)
Definition focusReady (a : Agent) : Prop :=
  NoDup (keys (conceptMastery a)) /\
  NoDup (weakAreas a) /\
  (forall c s, In (c, s) (conceptMastery a) -> 1 <= total s).



(** A time that is a number other than [0] and [NaN]. *)
Definition isSample (timeTaken : option number) : bool :=
  match timeTaken with
  | Some (Finite t) => negb (Qeq_bool t 0)
  | Some (Infinity _) => true
  | Some NaN => false
  | None => false
  end.

(** The times passed for a topic that are such numbers, in call order. *)
Definition samples (topic : jsstring) (calls : list Call) : list number :=
  flat_map
    (fun c =>
       if str_dec (c_topic c) topic
       then match c_timeTaken c with
            | Some t => if isSample (Some t) then [t] else []
            | None => []
            end
       else [])
    calls.

(** The mean of some numbers as doubles give it: the sum, taken from the
    left and rounded at each addition, divided by the count. *)
Fixpoint sumFrom (acc : number) (l : list number) : number :=
  match l with
  | [] => acc
  | t :: rest => sumFrom (add acc t) rest
  end.

Definition mean (l : list number) : number :=
  div (sumFrom (Finite 0) l) (ofNat (List.length l)).

(** A number that [toFixed] writes in fixed notation: it is finite and
    below [10^21] in absolute value. *)
Definition ordinary (x : number) : Prop :=
  exists q, x = Finite q /\ (Qabs q < inject_Z (10 ^ 21))%Q.

(** Some call was made for the topic. *)
Definition asked (topic : jsstring) (calls : list Call) : Prop :=
  exists c, In c calls /\ c_topic c = topic.

(** How the time data of an agent follows from the calls made. *)
Definition timeLog (calls : list Call) (a : Agent) : Prop :=
  NoDup (keys (topicPerformance a)) /\
  (forall topic, inherited topic = false ->
     get topic (timeSpent a) =
     match samples topic calls with [] => None | l => Some l end) /\
  (forall topic, inherited topic = false -> asked topic calls ->
     get topic (topicPerformance a) <> None) /\
  (forall topic ts, get topic (topicPerformance a) = Some ts ->
     averageTime ts = calculateAverageTime (samples topic calls)).

Definition isDigit (c : char) : Prop :=
  (48 <= c <= 57)%N.

(** A text with an integer part, a point and exactly two decimals. *)
Definition twoDecimals (s : jsstring) : Prop :=
  exists sign intPart d1 d2,
    s = sign ++ intPart ++ js "." ++ [d1; d2] /\
    (sign = [] \/ sign = js "-") /\
    intPart <> [] /\ Forall isDigit intPart /\ isDigit d1 /\ isDigit d2.

(** [d] starts at none of the positions of [a] in the text [a ++ rest]. *)
Fixpoint startsNowhere (d a rest : jsstring) : Prop :=
  match a with
  | [] => True
  | _ :: a' => startsWith d (a ++ rest) = false /\ startsNowhere d a' rest
  end.

(** [String.prototype.includes]: [d] occurs in [s]. *)
Fixpoint occurs (d s : jsstring) : bool :=
  startsWith d s ||
  match s with
  | [] => false
  | _ :: s' => occurs d s'
  end.

(** A string that trims to nothing. *)
Definition blank (s : jsstring) : bool := forallb is_ws s.

(** The reading of the specification: the whole text after the first colon.
    Used only to compare with [correctOf]. *)
Fixpoint afterFirstColon (line : jsstring) : jsstring :=
  match line with
  | [] => []
  | c :: rest => if N.eqb c colon then rest else afterFirstColon rest
  end.

Definition tab : char := 9%N.

(** A segment whose [Correct:] line has a second colon. *)
Definition C3_block : jsstring :=
  js "What does push return?" ++ [nl] ++ js "A) the array" ++ [nl] ++
  js "B) the new length" ++ [nl] ++ js "C) nothing" ++ [nl] ++
  js "D) the item" ++ [nl] ++ js "Correct: B: it returns the new length".


(** *** Well-formed multiple-choice texts *)

(** What a question of the prompt contract is made of: the text of the
    question, the four options, the letter of the answer, and the white
    space that follows the segment. *)
Record McqSource : Type := mkMcqSource {
  src_text : jsstring;
  src_a : jsstring;
  src_b : jsstring;
  src_c : jsstring;
  src_d : jsstring;
  src_label : char;
  src_sep : jsstring
}.

Definition questionMark : jsstring := js "Question: ".

(** The six lines of a segment. *)
Definition sourceLines (q : McqSource) : list jsstring :=
  [ src_text q;
    js "A) " ++ src_a q;
    js "B) " ++ src_b q;
    js "C) " ++ src_c q;
    js "D) " ++ src_d q;
    js "Correct: " ++ [src_label q] ].

(** A segment: its lines, each on its own line, and the trailing white
    space. *)
Definition segment (q : McqSource) : jsstring :=
  join [nl] (sourceLines q) ++ src_sep q.

(** The text of [N] questions: each segment after a question mark. *)
Definition rawText (qs : list McqSource) : jsstring :=
  flat_map (fun q => questionMark ++ segment q) qs.

Definition answerLetters : list char := js "ABCD".

(** The question and the options are single lines, the question is not
    blank and is not itself a [Correct:] line, the answer is one of the four
    letters, only white space follows, and the segment holds no further
    question mark. *)
Definition wellFormed (q : McqSource) : Prop :=
  ~ In nl (src_text q) /\ ~ In nl (src_a q) /\ ~ In nl (src_b q) /\
  ~ In nl (src_c q) /\ ~ In nl (src_d q) /\
  blank (src_text q) = false /\
  startsWith (js "Correct:") (src_text q) = false /\
  In (src_label q) answerLetters /\
  blank (src_sep q) = true /\
  occurs questionMark (segment q) = false.

(** The record expected for a well-formed question. *)
Definition expected (q : McqSource) : Question :=
  MCQ (trim (src_text q))
      [ trim (js "A) " ++ src_a q); trim (js "B) " ++ src_b q);
        trim (js "C) " ++ src_c q); trim (js "D) " ++ src_d q) ]
      (Some [src_label q]).

(** *** Sample inputs *)

Definition exWrong : Call :=
  {| c_topic := js "JS"; c_question := js "What is a function in JS?";
     c_isCorrect := false; c_evaluation := js "Incorrect.";
     c_timeTaken := None; c_now := 0%Z |}.

Definition exRight : Call :=
  {| c_topic := js "JS"; c_question := js "What is a function in JS?";
     c_isCorrect := true; c_evaluation := js "Correct!";
     c_timeTaken := Some (Finite (3 # 2)); c_now := 1000%Z |}.

Definition exFunction : jsstring := js "function".


(** A question whose text is itself a line that starts with [Correct:]. *)
Definition exTrick : McqSource :=
  {| src_text := js "Correct: true or false? NaN equals NaN.";
     src_a := js "true"; src_b := js "false";
     src_c := js "it depends"; src_d := js "it throws";
     src_label := 66%N; src_sep := [] |}.

(** A line before the first question. *)
Definition exPreamble : jsstring :=
  js "Here are your questions:" ++ [nl].

Definition exSources : list McqSource :=
  [ {| src_text := js "What does push return?";
       src_a := js "the array"; src_b := js "the new length";
       src_c := js "nothing"; src_d := js "the item";
       src_label := 66%N; src_sep := [nl; nl] |};
    {| src_text := js "Which keyword declares a constant?";
       src_a := js "var"; src_b := js "let";
       src_c := js "const"; src_d := js "static";
       src_label := 67%N; src_sep := [] |} ].

(** ** Further definitions used to state properties of runs *)

(** The history entry of a call. *)
Definition entryOf (c : Call) : HistoryEntry :=
  {| h_topic := c_topic c; h_question := c_question c;
     h_isCorrect := c_isCorrect c; h_evaluation := c_evaluation c;
     h_timeTaken := c_timeTaken c;
     h_concepts := extractConcepts (c_question c);
     h_timestamp := c_now c |}.

(** The calls made for a topic, and the calls whose question names a
    concept. *)
Definition callsFor (topic : jsstring) (calls : list Call) : list Call :=
  filter (fun c => str_eqb (c_topic c) topic) calls.

Definition callsAbout (concept : jsstring) (calls : list Call) : list Call :=
  filter (fun c => includes (extractConcepts (c_question c)) concept) calls.

(** A call that throws, in a state that calls on a new agent reach: its
    topic names a member of [Object.prototype], and it gives a time that
    is to be stored or a question that names a concept. *)
Definition throws (c : Call) : bool :=
  inherited (c_topic c) &&
  (isSample (c_timeTaken c) ||
   match extractConcepts (c_question c) with [] => false | _ :: _ => true end).

(** The concepts that such a call counts in the global map: all those of
    its question, or, when it throws, the first one, or none if it throws
    for its time. *)
Definition countedBy (c : Call) : list jsstring :=
  if inherited (c_topic c)
  then if isSample (c_timeTaken c) then []
       else firstn 1 (extractConcepts (c_question c))
  else extractConcepts (c_question c).

Definition callsCounting (concept : jsstring) (calls : list Call)
  : list Call :=
  filter (fun c => includes (countedBy c) concept) calls.

(** The number of correct answers among some calls. *)
Definition correctIn (calls : list Call) : nat :=
  List.length (filter c_isCorrect calls).

(** The counters that some calls give to an entry. *)
Definition statsOf (calls : list Call) : Stats :=
  {| correct := correctIn calls; total := List.length calls |}.

(** How the counters of an agent follow from the calls made. *)
Definition countLog (calls : list Call) (a : Agent) : Prop :=
  NoDup (keys (topicPerformance a)) /\
  NoDup (keys (conceptMastery a)) /\
  (forall concept,
     get concept (conceptMastery a) =
     match callsCounting concept calls with
     | [] => None
     | cs => Some (statsOf cs)
     end) /\
  (forall topic,
     match get topic (topicPerformance a) with
     | None => inherited topic = true \/ callsFor topic calls = []
     | Some ts =>
         callsFor topic calls <> [] /\
         t_total ts = List.length (callsFor topic calls) /\
         t_correct ts = correctIn (callsFor topic calls) /\
         NoDup (keys (conceptsTests ts)) /\
         forall concept,
           get concept (conceptsTests ts) =
           match callsAbout concept (callsFor topic calls) with
           | [] => None
           | cs => Some (statsOf cs)
           end
     end).

(** The weak areas of the agent are those of its topics. *)
Definition weakByTopic (a : Agent) : Prop :=
  forall c, In c (weakAreas a) <->
            exists topic ts, get topic (topicPerformance a) = Some ts /\
                             In c (t_weakAreas ts).

(** A percentage between 0 and 100: a number of hundredths from 0 to
    10000. *)
Definition inRange (f : fixed2) : Prop :=
  exists h, f = Fx false h /\ (0 <= h <= 10000)%Z.

(** ** Further definitions used to state properties of the extraction *)

(** No proper suffix of [d] starts [d] again. *)
Definition borderless (d : jsstring) : Prop :=
  forall k, 0 < k < List.length d -> startsWith (skipn k d) d = false.

Definition answerMark : jsstring := js "Model Answer:".

(** A theoretical question as the model writes it: what stands between
    the question mark and the answer mark, and what follows the answer
    mark. *)
Record TheorySource : Type := mkTheorySource {
  th_text : jsstring;
  th_answer : jsstring
}.

Definition theorySegment (q : TheorySource) : jsstring :=
  th_text q ++ answerMark ++ th_answer q.

(** A text made of segments, each after a question mark. *)
Definition markedText (segments : list jsstring) : jsstring :=
  flat_map (fun s => questionMark ++ s) segments.

Definition theoryRecord (q : TheorySource) : Question :=
  Theory (trim (th_text q)) (trim (th_answer q)).

Definition exTheory : list TheorySource :=
  [ {| th_text := js "What is a closure?" ++ [nl];
       th_answer := js " A function with its scope." ++ [nl; nl] |};
    {| th_text := js "What is hoisting?" ++ [nl];
       th_answer :=
         js " Declarations are moved up. Model Answer: see above." |} ].

(** What every multiple-choice record offers: a question that is not
    blank, at most four options, none of them empty. *)
Definition mcqShape (q : Question) : Prop :=
  exists question options correct,
    q = MCQ question options correct /\
    blank question = false /\
    List.length options <= 4 /\
    Forall (fun o => o <> []) options.

(** A segment with three options only. *)
Definition exShort : jsstring :=
  js "Which loop runs at least once?" ++ [nl] ++ js "A) for" ++ [nl] ++
  js "B) while" ++ [nl] ++ js "C) do while" ++ [nl] ++ js "Correct: C".

(** ** Choosing with the arrow keys: [selectQuestionType] and [showMenu] *)

(** The [key] object of a [keypress] event, by the two fields the handlers
    read; a name that is [undefined] is any name they do not test for. *)
Record Key : Type := mkKey { key_name : jsstring; key_ctrl : bool }.

(** What a handler has done so far: the choice is still open, the promise
    was resolved with the index, or [process.exit] was called. *)
Inductive Selection : Type :=
| Choosing (selectedIndex : nat)
| Resolved (selectedIndex : nat)
| Exited.

(** The handler of [keypress], the same in both functions but for the
    number of choices ([choices.length]). *)
Definition keypress (choices selectedIndex : nat) (key : Key) : Selection :=
  if str_eqb (key_name key) (js "up") && (0 <? selectedIndex)
  then Choosing (selectedIndex - 1)
  else if str_eqb (key_name key) (js "down") && (selectedIndex <? choices - 1)
  then Choosing (selectedIndex + 1)
  else if str_eqb (key_name key) (js "return")
  then Resolved selectedIndex
  else if str_eqb (key_name key) (js "c") && key_ctrl key
  then Exited
  else Choosing selectedIndex.

(** The keys pressed, handled one after the other until the promise is
    resolved or the process exits. *)
Fixpoint keypresses (choices selectedIndex : nat) (keys : list Key)
  : Selection :=
  match keys with
  | [] => Choosing selectedIndex
  | key :: rest =>
      match keypress choices selectedIndex key with
      | Choosing i => keypresses choices i rest
      | done => done
      end
  end.

(** What awaiting a promise gives: nothing yet, its value, the end of the
    process, or an exception thrown in the handler. *)
Inductive Awaited (A : Type) : Type :=
| Pending
| Fulfilled (a : A)
| ProcessExit
| Uncaught.
Arguments Pending {A}.
Arguments Fulfilled {A} a.
Arguments ProcessExit {A}.
Arguments Uncaught {A}.

Definition questionTypeChoices : list jsstring := [js "MCQ"; js "Theory"].

(** [selectQuestionType()], for the keys pressed. *)
Definition selectQuestionType (keys : list Key) : Awaited jsstring :=
  match keypresses (List.length questionTypeChoices) 0 keys with
  | Choosing _ => Pending
  | Resolved i =>
      match nth_error questionTypeChoices i with
      | Some choice => Fulfilled (toLowerCase choice)
      | None => Uncaught
      end
  | Exited => ProcessExit
  end.

Definition menuChoices : list jsstring :=
  [ js "Start New Interview Session"; js "Analyze a Topic";
    js "View Learning Resources"; js "Check Previous Performance";
    js "Practice Specific Concepts"; js "Exit" ].

(** [showMenu()], for the keys pressed. *)
Definition showMenu (keys : list Key) : Awaited nat :=
  match keypresses (List.length menuChoices) 0 keys with
  | Choosing _ => Pending
  | Resolved i => Fulfilled i
  | Exited => ProcessExit
  end.

(** The cases of the [switch] of [mainProgram]. *)
Inductive MenuAction : Type :=
| StartInterview
| AnalyzeTopic
| ViewResources
| CheckPerformance
| PracticeConcepts
| ExitProgram.

Definition menuCase (choice : nat) : option MenuAction :=
  match choice with
  | 0 => Some StartInterview
  | 1 => Some AnalyzeTopic
  | 2 => Some ViewResources
  | 3 => Some CheckPerformance
  | 4 => Some PracticeConcepts
  | 5 => Some ExitProgram
  | _ => None
  end.

Definition keyUp : Key := {| key_name := js "up"; key_ctrl := false |}.
Definition keyDown : Key := {| key_name := js "down"; key_ctrl := false |}.
Definition keyReturn : Key := {| key_name := js "return"; key_ctrl := false |}.

(** ** Evaluating an answer: [evaluateAnswers] *)

(** A function that may ask the model: it returns at once, or sends a
    prompt and goes on with the content of the reply ([None] for [null]). *)
Inductive Request (A : Type) : Type :=
| Answered (a : A)
| Asked (prompt : jsstring) (next : option jsstring -> A).
Arguments Answered {A} a.
Arguments Asked {A} prompt next.

Definition dquote : char := 34%N.

(** A string or [null] inside a template. *)
Definition shown (x : option jsstring) : jsstring :=
  match x with Some s => s | None => js "null" end.

Definition evaluationPrompt (question userAnswer type : jsstring)
  (correctAnswer : option jsstring) : jsstring :=
  if str_eqb type (js "mcq")
  then
    js "Evaluate the following multiple-choice answer:" ++ [nl] ++
    js "        Question: " ++ question ++ [nl] ++
    js "        User's Answer: " ++ userAnswer ++ [nl] ++
    js "        Correct Answer: " ++ shown correctAnswer ++ [nl] ++
    js "        " ++ [nl] ++
    js "        If the answer is correct, say " ++ [dquote] ++
    js "Correct!" ++ [dquote] ++ js " and explain why." ++ [nl] ++
    js "        If the answer is wrong, say " ++ [dquote] ++
    js "Incorrect." ++ [dquote] ++
    js " and explain why the correct answer is better."
  else
    js "Evaluate the following theoretical answer:" ++ [nl] ++
    js "        Question: " ++ question ++ [nl] ++
    js "        User's Answer: " ++ userAnswer ++ [nl] ++
    js "        Model Answer: " ++ shown correctAnswer ++ [nl] ++
    js "        " ++ [nl] ++
    js "        Provide a score out of 10 and a detailed explanation of the evaluation.".

(** [content || "Evaluation not available."]. *)
Definition orNotAvailable (content : option jsstring) : jsstring :=
  match content with
  | Some c => if truthy c then c else js "Evaluation not available."
  | None => js "Evaluation not available."
  end.

(** [evaluateAnswers(question, userAnswer, type, correctAnswer = null)];
    a [correctAnswer] that is [undefined] takes the default [null]. *)
Definition evaluateAnswers (question userAnswer type : jsstring)
  (correctAnswer : option jsstring) : Request jsstring :=
  if negb (truthy (trim question))
  then Answered (js "No valid question to evaluate.")
  else Asked (evaluationPrompt question userAnswer type correctAnswer)
             orNotAvailable.

(** The value of a request, and the prompts it sends, for a given content
    of the reply. *)
Definition received {A} (r : Request A) (content : option jsstring) : A :=
  match r with
  | Answered a => a
  | Asked _ next => next content
  end.

Definition prompts {A} (r : Request A) : list jsstring :=
  match r with
  | Answered _ => []
  | Asked prompt _ => [prompt]
  end.

(** ** The interview: the loop and the results of [startInterview] *)

Definition questionOf (q : Question) : jsstring :=
  match q with
  | MCQ question _ _ => question
  | Theory question _ => question
  end.

(** [answer.toLowerCase() === "skip"]. *)
Definition isSkip (answer : jsstring) : bool :=
  str_eqb (toLowerCase answer) (js "skip").

(** The loop over [questions], from index [i] on.  [answers i] is what the
    user types for question [i], [contents i] the content of the reply of
    the model when the answer to question [i] is evaluated.  The loop gives
    the score and the prompts sent, in order; reading the options of a
    record that has none throws. *)
Fixpoint askQuestions (type : jsstring) (answers : nat -> jsstring)
  (contents : nat -> option jsstring) (i : nat) (questions : list Question)
  (score : nat) (sent : list jsstring) : result (nat * list jsstring) :=
  match questions with
  | [] => Ok (score, sent)
  | q :: rest =>
      if str_eqb type (js "mcq") then
        match q with
        | Theory _ _ => TypeError
        | MCQ question options correct =>
            if isSkip (answers i)
            then askQuestions type answers contents (S i) rest score sent
            else
              let request :=
                evaluateAnswers question (answers i) type correct in
              let evaluation := received request (contents i) in
              askQuestions type answers contents (S i) rest
                (if startsWith (js "Correct!") evaluation
                 then S score else score)
                (sent ++ prompts request)
        end
      else
        let modelAnswer :=
          match q with
          | Theory _ m => Some m
          | MCQ _ _ _ => None
          end in
        if isSkip (answers i)
        then askQuestions type answers contents (S i) rest score sent
        else
          let request :=
            evaluateAnswers (questionOf q) (answers i) type modelAnswer in
          askQuestions type answers contents (S i) rest score
            (sent ++ prompts request)
  end.

Record FinalResults : Type := mkFinalResults {
  fr_correct : nat;
  fr_total : nat;
  fr_percentage : fixed2
}.

(** [startInterview()] once the questions are there: the loop, then the
    final results, shown for multiple-choice questions only. *)
Definition startInterview (type : jsstring) (questions : list Question)
  (answers : nat -> jsstring) (contents : nat -> option jsstring)
  : result (option FinalResults * list jsstring) :=
  r <- askQuestions type answers contents 0 questions 0 [] ;;
  let (score, sent) := r in
  Ok (if str_eqb type (js "mcq")
      then Some {| fr_correct := score;
                   fr_total := List.length questions;
                   fr_percentage :=
                     percentage score
                       (List.length
                          (filter (fun q => truthy (questionOf q)) questions)) |}
      else None,
      sent).

(** The questions of a list that the user does not skip. *)
Fixpoint answered (answers : nat -> jsstring) (i : nat)
  (questions : list Question) : nat :=
  match questions with
  | [] => 0
  | _ :: rest =>
      (if isSkip (answers i) then 0 else 1) + answered answers (S i) rest
  end.

(** ** Whole numbers of seconds *)

(** The number of a natural number of seconds. *)
Definition seconds (k : nat) : number := Finite (inject_Z (Z.of_nat k)).

Definition sumNat (ks : list nat) : nat := fold_left Nat.add ks 0.

(** The arithmetic mean of natural numbers, exactly. *)
Definition exactMean (ks : list nat) : Q :=
  (inject_Z (Z.of_nat (sumNat ks)) / inject_Z (Z.of_nat (List.length ks)))%Q.

(** Two calls for a topic, of 1 and of 2 seconds. *)
Definition exTimed : list Call :=
  [ {| c_topic := js "JS"; c_question := js "What is a loop?";
       c_isCorrect := true; c_evaluation := js "Correct!";
       c_timeTaken := Some (seconds 1); c_now := 0%Z |};
    {| c_topic := js "JS"; c_question := js "What is a class?";
       c_isCorrect := false; c_evaluation := js "Incorrect.";
       c_timeTaken := Some (seconds 2); c_now := 1000%Z |} ].

(** * Properties *)

(** ** Maps *)

Section ObjFacts.
Context {V : Type}.
Implicit Types (k : jsstring) (v : V) (o : obj V).

Lemma get_In k v o : get k o = Some v -> In (k, v) o.
Proof.
  induction o as [|[k' v'] o IH]; simpl; [discriminate|].
  destruct (str_dec k k') as [->|_].
  - intros [= ->]. now left.
  - intros H. right. now apply IH.
Qed.

Lemma get_None_keys k o : get k o = None <-> ~ In k (keys o).
Proof.
  induction o as [|[k' v'] o IH]; simpl.
  - tauto.
  - destruct (str_dec k k') as [->|Hne].
    + split; [discriminate | intros H; exfalso; apply H; now left].
    + rewrite IH. split; intros H; [intros [E|E]; [congruence|tauto] | tauto].
Qed.


Lemma get_replace k k' v o :
  get k' (replace k v o) =
  if str_dec k' k then option_map (fun _ => v) (get k o) else get k' o.
Proof.
  induction o as [|[k0 v0] o IH]; simpl.
  - now destruct (str_dec k' k).
  - destruct (str_dec k k0) as [->|Hk]; simpl.
    + destruct (str_dec k' k0); reflexivity.
    + destruct (str_dec k' k0) as [->|Hk0].
      * destruct (str_dec k0 k); [congruence | reflexivity].
      * exact IH.
Qed.

Lemma get_insert k k' v o :
  get k o = None ->
  get k' (insert k v o) = if str_dec k' k then Some v else get k' o.
Proof.
  induction o as [|[k0 v0] o IH]; simpl; intros G.
  - reflexivity.
  - destruct (str_dec k k0) as [->|Hk]; [discriminate|].
    destruct (before k k0); simpl.
    + destruct (str_dec k' k) as [->|Hk']; reflexivity.
    + destruct (str_dec k' k0) as [->|Hk0].
      * destruct (str_dec k0 k); [congruence | reflexivity].
      * now apply IH.
Qed.

Lemma In_replace k v o kv : In kv (replace k v o) -> kv = (k, v) \/ In kv o.
Proof.
  induction o as [|[k0 v0] o IH]; simpl; [tauto|].
  destruct (str_dec k k0) as [->|Hk]; simpl.
  - intros [E|H]; [now left | right; now right].
  - intros [E|H]; [right; now left|].
    destruct (IH H) as [E|H']; [now left | right; now right].
Qed.

Lemma In_insert k v o kv : In kv (insert k v o) <-> kv = (k, v) \/ In kv o.
Proof.
  induction o as [|[k0 v0] o IH]; simpl.
  - intuition.
  - destruct (before k k0); simpl; [intuition|].
    rewrite IH. intuition.
Qed.

Lemma keys_replace k v o : keys (replace k v o) = keys o.
Proof.
  induction o as [|[k0 v0] o IH]; simpl; [reflexivity|].
  destruct (str_dec k k0) as [->|Hk]; simpl; [reflexivity | now rewrite IH].
Qed.

Lemma In_keys_insert k v o x :
  In x (keys (insert k v o)) <-> x = k \/ In x (keys o).
Proof.
  induction o as [|[k0 v0] o IH]; simpl.
  - intuition.
  - destruct (before k k0); simpl; [intuition|].
    rewrite IH. intuition.
Qed.

Lemma NoDup_keys_insert k v o :
  ~ In k (keys o) -> NoDup (keys o) -> NoDup (keys (insert k v o)).
Proof.
  induction o as [|[k0 v0] o IH]; simpl; intros Hn Hnd.
  - constructor; [intros []|constructor].
  - destruct (before k k0); simpl.
    + constructor; assumption.
    + inversion Hnd as [|? ? Hk0 Hnd']; subst. constructor.
      * rewrite In_keys_insert. intros [E|H]; [|contradiction].
        apply Hn. now left.
      * apply IH; [|assumption]. intros H. apply Hn. now right.
Qed.

Lemma get_set_same k v o : get k (set k v o) = Some v.
Proof.
  unfold set. destruct (get k o) eqn:G.
  - rewrite get_replace, G. now destruct (str_dec k k).
  - rewrite get_insert by assumption. now destruct (str_dec k k).
Qed.

Lemma get_set_other k k' v o : k' <> k -> get k' (set k v o) = get k' o.
Proof.
  intros Hne. unfold set. destruct (get k o) eqn:G.
  - rewrite get_replace. now destruct (str_dec k' k).
  - rewrite get_insert by assumption. now destruct (str_dec k' k).
Qed.

Lemma In_set k v o kv : In kv (set k v o) -> kv = (k, v) \/ In kv o.
Proof.
  unfold set. destruct (get k o); [apply In_replace | apply In_insert].
Qed.

Lemma NoDup_keys_set k v o : NoDup (keys o) -> NoDup (keys (set k v o)).
Proof.
  intros H. unfold set. destruct (get k o) eqn:G.
  - now rewrite keys_replace.
  - apply NoDup_keys_insert; [now apply get_None_keys | exact H].
Qed.

Lemma In_init_own k v o kv :
  In kv (init_own k v o) -> kv = (k, v) \/ In kv o.
Proof.
  unfold init_own. destruct (get k o); [now right | apply In_set].
Qed.

Lemma get_init_same k v o :
  get k (init_own k v o) = Some (match get k o with Some w => w | None => v end).
Proof.
  unfold init_own. destruct (get k o) eqn:E; [exact E | apply get_set_same].
Qed.

Lemma get_init_other k k' v o :
  k' <> k -> get k' (init_own k v o) = get k' o.
Proof.
  intros Hne. unfold init_own. destruct (get k o); [reflexivity|].
  now apply get_set_other.
Qed.

Lemma NoDup_keys_init k v o :
  NoDup (keys o) -> NoDup (keys (init_own k v o)).
Proof.
  unfold init_own. destruct (get k o); [tauto | apply NoDup_keys_set].
Qed.

Lemma In_update k f o kv :
  In kv (update k f o) -> (exists w, get k o = Some w /\ kv = (k, f w)) \/ In kv o.
Proof.
  unfold update. destruct (get k o) as [w|] eqn:E; [|now right].
  intros H. destruct (In_set _ _ _ _ H) as [->|H']; [left; now exists w | now right].
Qed.

Lemma get_update_same k f o :
  get k (update k f o) = option_map f (get k o).
Proof.
  unfold update. destruct (get k o) eqn:E; simpl; [apply get_set_same | exact E].
Qed.

Lemma get_update_other k k' f o :
  k' <> k -> get k' (update k f o) = get k' o.
Proof.
  intros Hne. unfold update. destruct (get k o); [|reflexivity].
  now apply get_set_other.
Qed.

Lemma NoDup_keys_update k f o :
  NoDup (keys o) -> NoDup (keys (update k f o)).
Proof.
  unfold update. destruct (get k o); [apply NoDup_keys_set | tauto].
Qed.

End ObjFacts.

Lemma replace_replace {V} (k : jsstring) (v d : V) (o : obj V) :
  replace k v (replace k d o) = replace k v o.
Proof.
  induction o as [|[k0 v0] o IH]; simpl; [reflexivity|].
  destruct (str_dec k k0) as [E|Hk]; simpl.
  - now destruct (str_dec k k).
  - destruct (str_dec k k0); [contradiction | now rewrite IH].
Qed.

Lemma replace_insert {V} (k : jsstring) (v d : V) (o : obj V) :
  get k o = None -> replace k v (insert k d o) = insert k v o.
Proof.
  induction o as [|[k0 v0] o IH]; simpl; intros G.
  - now destruct (str_dec k k).
  - destruct (str_dec k k0) as [E|Hk]; [discriminate|].
    destruct (before k k0); simpl.
    + now destruct (str_dec k k).
    + destruct (str_dec k k0); [contradiction | now rewrite IH].
Qed.

Lemma set_set {V} (k : jsstring) (v d : V) (o : obj V) :
  set k v (set k d o) = set k v o.
Proof.
  unfold set at 1. rewrite get_set_same. unfold set.
  destruct (get k o) eqn:G.
  - apply replace_replace.
  - now apply replace_insert.
Qed.

Lemma In_set_init {V} (k : jsstring) (v d : V) (o : obj V) kv :
  In kv (set k v (init_own k d o)) -> kv = (k, v) \/ In kv o.
Proof.
  unfold init_own. destruct (get k o).
  - apply In_set.
  - rewrite set_set. apply In_set.
Qed.

(** ** Sets of strings *)

Lemma str_eqb_eq a b : str_eqb a b = true <-> a = b.
Proof. unfold str_eqb. destruct (str_dec a b); split; congruence. Qed.

Lemma includes_In l w : includes l w = true <-> In w l.
Proof.
  unfold includes. rewrite existsb_exists. split.
  - intros (x & Hx & E). apply str_eqb_eq in E. now subst.
  - intros H. exists w. split; [exact H | now apply str_eqb_eq].
Qed.

Lemma includes_false l w : includes l w = false <-> ~ In w l.
Proof.
  rewrite <- includes_In. destruct (includes l w); split; congruence.
Qed.

Lemma In_set_add x w st : In x (set_add w st) <-> In x st \/ x = w.
Proof.
  unfold set_add. destruct (includes st w) eqn:E.
  - apply includes_In in E. split; [tauto | intros [H| ->]; assumption].
  - rewrite in_app_iff. simpl. intuition (subst; auto).
Qed.

Lemma NoDup_set_add w st : NoDup st -> NoDup (set_add w st).
Proof.
  intros H. unfold set_add. destruct (includes st w) eqn:E; [exact H|].
  apply includes_false in E. apply NoDup_app; try assumption.
  - constructor; [intros []|constructor].
  - intros x Hx [<-|[]]. contradiction.
Qed.

Lemma In_fold_addIf P l st x :
  In x (fold_left (addIf P) l st) <-> In x st \/ (In x l /\ P x = true).
Proof.
  revert st. induction l as [|w l IH]; intros st; simpl.
  - tauto.
  - rewrite IH. unfold addIf. destruct (P w) eqn:E.
    + rewrite In_set_add. split.
      * intros [[H| ->]|[H1 H2]]; auto.
      * intros [H|[[<-|H1] H2]]; auto.
    + split.
      * intros [H|[H1 H2]]; auto.
      * intros [H|[[<-|H1] H2]]; auto. congruence.
Qed.

Lemma NoDup_fold_addIf P l st :
  NoDup st -> NoDup (fold_left (addIf P) l st).
Proof.
  revert st. induction l as [|w l IH]; intros st H; simpl; [exact H|].
  apply IH. unfold addIf. destruct (P w); [now apply NoDup_set_add | exact H].
Qed.

(** ** One call of [trackAnswer], field by field *)

Lemma fold_countConcept ic l m t :
  fold_left (countConcept ic) l (m, t) =
  (fold_left (countEntry ic) l m, fold_left (countEntry ic) l t).
Proof.
  revert m t. induction l as [|c l IH]; intros m t; simpl; [reflexivity|].
  apply IH.
Qed.

Lemma fold_markWeak cm l w tw :
  fold_left (markWeak cm) l (w, tw) =
  (fold_left (addIf (belowMastery cm)) l w,
   fold_left (addIf (belowMastery cm)) l tw).
Proof.
  revert w tw. induction l as [|c l IH]; intros w tw; simpl; [reflexivity|].
  unfold addIf at 2 4. destruct (belowMastery cm c); apply IH.
Qed.

(** *** Keys that name no member of [Object.prototype] *)

Lemma init_if_absent_own {V} (k : jsstring) (v : V) (o : obj V) :
  inherited k = false -> init_if_absent k v o = init_own k v o.
Proof.
  intros H. unfold init_if_absent, init_own, has. rewrite H.
  now destruct (get k o).
Qed.

Lemma init_if_absent_inherited {V} (k : jsstring) (v : V) (o : obj V) :
  inherited k = true -> init_if_absent k v o = o.
Proof.
  intros H. unfold init_if_absent, has. rewrite H. now destruct (get k o).
Qed.

Lemma get_init_if_absent_other {V} (k k' : jsstring) (v : V) (o : obj V) :
  k' <> k -> get k' (init_if_absent k v o) = get k' o.
Proof.
  intros H. unfold init_if_absent. destruct (has k o); [reflexivity|].
  now apply get_set_other.
Qed.

Lemma countEntry_own ic m c :
  inherited c = false -> countEntry ic m c = countIn ic m c.
Proof.
  intros H. unfold countEntry, countIn. now rewrite init_if_absent_own.
Qed.

Lemma fold_countEntry_own ic l m :
  Forall (fun c => inherited c = false) l ->
  fold_left (countEntry ic) l m = fold_left (countIn ic) l m.
Proof.
  revert m. induction l as [|c l IH]; intros m H; simpl; [reflexivity|].
  inversion H as [|? ? Hc Hl]; subst.
  rewrite countEntry_own by assumption. now apply IH.
Qed.

(** The concepts are words of the vocabulary, none of which names a member
    of [Object.prototype]. *)
Lemma fold_concepts_incl (words : list jsstring) (acc : list jsstring) c :
  In c (fold_left
          (fun concepts word =>
             if includes technicalTerms word then set_add word concepts
             else concepts) words acc) ->
  In c acc \/ In c technicalTerms.
Proof.
  revert acc. induction words as [|w words IH]; intros acc H;
    cbn [fold_left] in H.
  - now left.
  - apply IH in H. destruct H as [H|H]; [|now right].
    destruct (includes technicalTerms w) eqn:I; [|now left].
    apply In_set_add in H. destruct H as [H| ->]; [now left|].
    right. now apply includes_In.
Qed.

Lemma extractConcepts_vocabulary question c :
  In c (extractConcepts question) -> In c technicalTerms.
Proof.
  intros H. apply fold_concepts_incl in H. now destruct H as [[]|H].
Qed.

Lemma vocabulary_own c : In c technicalTerms -> inherited c = false.
Proof.
  intros H. repeat (destruct H as [<-|H]; [reflexivity|]). destruct H.
Qed.

Lemma extractConcepts_own question :
  Forall (fun c => inherited c = false) (extractConcepts question).
Proof.
  apply Forall_forall. intros c H.
  now apply vocabulary_own, (extractConcepts_vocabulary question).
Qed.

(** *** A topic that names no member of [Object.prototype] *)

Section Step.
Variables (a : Agent) (topic question : jsstring) (isCorrect : bool)
  (evaluation : jsstring) (timeTaken : option number) (now : Z).

Let a' := trackOwn a topic question isCorrect evaluation timeTaken now.
Let after := topicStatsAfter a topic question isCorrect evaluation timeTaken now.

Lemma trackOwn_conceptMastery :
  conceptMastery a' =
  fold_left (countIn isCorrect) (extractConcepts question) (conceptMastery a).
Proof. reflexivity. Qed.

Lemma trackOwn_weakAreas :
  weakAreas a' =
  if isCorrect then weakAreas a
  else fold_left (addIf (belowMastery (conceptMastery a')))
         (extractConcepts question) (weakAreas a).
Proof. reflexivity. Qed.

Lemma trackOwn_counters :
  totalQuestions a' = S (totalQuestions a) /\
  correctAnswers a' =
    if isCorrect then S (correctAnswers a) else correctAnswers a.
Proof. split; reflexivity. Qed.

Lemma trackOwn_timeSpent :
  timeSpent a' =
  match truthyTime timeTaken with
  | Some t => update topic (fun times => times ++ [t])
                (init_own topic [] (timeSpent a))
  | None => timeSpent a
  end.
Proof. reflexivity. Qed.

Lemma trackOwn_topicPerformance :
  topicPerformance a' =
  set topic after
    (init_own topic newTopicStats (topicPerformance a)).
Proof. reflexivity. Qed.

Lemma trackOwn_get_topic :
  get topic (topicPerformance a') = Some after.
Proof. rewrite trackOwn_topicPerformance. apply get_set_same. Qed.

Lemma trackOwn_get_other t :
  t <> topic -> get t (topicPerformance a') = get t (topicPerformance a).
Proof.
  intros H. rewrite trackOwn_topicPerformance.
  rewrite get_set_other by assumption. now apply get_init_other.
Qed.

Lemma trackOwn_In_topic t ts :
  In (t, ts) (topicPerformance a') ->
  (t, ts) = (topic, after) \/ In (t, ts) (topicPerformance a).
Proof.
  rewrite trackOwn_topicPerformance. apply In_set_init.
Qed.

(** [trackAnswer] on such a topic. *)
Lemma trackAnswer_own :
  inherited topic = false ->
  trackAnswer a topic question isCorrect evaluation timeTaken now =
  Returned a'.
Proof.
  intros Hown. unfold trackAnswer.
  rewrite (init_if_absent_own topic newTopicStats _ Hown).
  rewrite get_init_same. fold (topicStatsAt (topicPerformance a) topic).
  unfold pushTime. rewrite (init_if_absent_own topic [] _ Hown).
  rewrite get_init_same.
  rewrite fold_countConcept.
  rewrite !(fold_countEntry_own _ _ _ (extractConcepts_own question)).
  unfold a', trackOwn.
  destruct (truthyTime timeTaken) as [t|]; destruct isCorrect;
    rewrite ?fold_markWeak; reflexivity.
Qed.

(** [trackAnswer] on a topic that names a member of [Object.prototype], in
    an agent that has no own property of that name. *)
Lemma trackAnswer_inherited :
  inherited topic = true ->
  get topic (topicPerformance a) = None ->
  get topic (timeSpent a) = None ->
  trackAnswer a topic question isCorrect evaluation timeTaken now =
  trackInherited a topic question isCorrect evaluation timeTaken now.
Proof.
  intros Hin Htp Hts. unfold trackAnswer, trackInherited.
  rewrite (init_if_absent_inherited topic newTopicStats _ Hin), Htp.
  unfold pushTime. rewrite (init_if_absent_inherited topic [] _ Hin), Hts.
  destruct (truthyTime timeTaken) as [t|]; [reflexivity|].
  pose proof (extractConcepts_own question) as Hc.
  destruct (extractConcepts question) as [|c l]; [reflexivity|].
  inversion Hc; subst. now rewrite countEntry_own.
Qed.

End Step.

(** *** The states that calls reach *)

Lemma step_own a c :
  inherited (c_topic c) = false -> step a c = stepOwn a c.
Proof. intros H. unfold step. now rewrite trackAnswer_own. Qed.

Lemma get_ownKeys_None {V} (o : obj V) k :
  (forall k', In k' (keys o) -> inherited k' = false) ->
  inherited k = true -> get k o = None.
Proof.
  intros H Hk. apply get_None_keys. intros Hin. apply H in Hin. congruence.
Qed.

Lemma step_inherited a c :
  ownKeys a -> inherited (c_topic c) = true ->
  step a c =
  stateOf (trackInherited a (c_topic c) (c_question c) (c_isCorrect c)
             (c_evaluation c) (c_timeTaken c) (c_now c)).
Proof.
  intros [H1 H2] H. unfold step. rewrite trackAnswer_inherited; auto.
  - now apply get_ownKeys_None.
  - now apply get_ownKeys_None.
Qed.

(** What a call on such a topic leaves: the counters have gone up, at most
    the first concept has been counted, and no entry was made but, when the
    call returns, that of the history. *)
Lemma trackInherited_fields a topic question ic ev tt now :
  let a' := stateOf (trackInherited a topic question ic ev tt now) in
  totalQuestions a' = S (totalQuestions a) /\
  correctAnswers a' = (if ic then S (correctAnswers a) else correctAnswers a) /\
  topicPerformance a' = topicPerformance a /\
  weakAreas a' = weakAreas a /\
  timeSpent a' = timeSpent a /\
  exists counted, incl counted (extractConcepts question) /\
    conceptMastery a' = fold_left (countIn ic) counted (conceptMastery a).
Proof.
  unfold trackInherited.
  destruct (truthyTime tt) as [t|]; [|destruct (extractConcepts question) as [|c l]];
    cbn; repeat split; try reflexivity.
  - exists []. split; [intros ? []| reflexivity].
  - exists []. split; [intros ? []| reflexivity].
  - exists [c]. split; [intros ? [<-|[]]; now left | reflexivity].
Qed.

Lemma ownKeys_new : ownKeys newAgent.
Proof. split; intros k []. Qed.

Lemma keys_init_own {V} (k : jsstring) (v : V) (o : obj V) k' :
  In k' (keys (init_own k v o)) -> k' = k \/ In k' (keys o).
Proof.
  unfold keys. intros H. apply in_map_iff in H. destruct H as ([k0 v0] & <- & H).
  apply In_init_own in H. destruct H as [E|H].
  - injection E as -> _. now left.
  - right. change k0 with (fst (k0, v0)). now apply in_map.
Qed.

Lemma keys_set_in {V} (k : jsstring) (v : V) (o : obj V) k' :
  In k' (keys (set k v o)) -> k' = k \/ In k' (keys o).
Proof.
  unfold keys. intros H. apply in_map_iff in H. destruct H as ([k0 v0] & <- & H).
  apply In_set in H. destruct H as [E|H].
  - injection E as -> _. now left.
  - right. change k0 with (fst (k0, v0)). now apply in_map.
Qed.

Lemma keys_update_in {V} (k : jsstring) (f : V -> V) (o : obj V) k' :
  In k' (keys (update k f o)) -> k' = k \/ In k' (keys o).
Proof.
  unfold update. destruct (get k o); [apply keys_set_in | now right].
Qed.

Lemma ownKeys_step a c : ownKeys a -> ownKeys (step a c).
Proof.
  intros H. destruct (inherited (c_topic c)) eqn:I.
  - rewrite step_inherited by assumption.
    destruct (trackInherited_fields a (c_topic c) (c_question c)
                (c_isCorrect c) (c_evaluation c) (c_timeTaken c) (c_now c))
      as (_ & _ & Etp & _ & Ets & _).
    destruct H as [H1 H2]. split; intros k; [rewrite Etp | rewrite Ets]; auto.
  - rewrite step_own by assumption. destruct H as [H1 H2].
    unfold stepOwn. split; intros k Hk.
    + rewrite trackOwn_topicPerformance in Hk.
      apply keys_set_in in Hk. destruct Hk as [->|Hk]; [exact I|].
      apply keys_init_own in Hk. destruct Hk as [->|Hk]; [exact I | auto].
    + rewrite trackOwn_timeSpent in Hk.
      destruct (truthyTime (c_timeTaken c)); [|auto].
      apply keys_update_in in Hk. destruct Hk as [->|Hk]; [exact I|].
      apply keys_init_own in Hk. destruct Hk as [->|Hk]; [exact I | auto].
Qed.

(** ** Counters: [correct <= total] *)

Lemma allBounded_countIn ic m c :
  allBounded m -> allBounded (countIn ic m c).
Proof.
  intros H c' s' Hin. unfold countIn in Hin.
  apply In_update in Hin. destruct Hin as [(w & Hw & E)|Hin].
  - injection E as -> ->. apply get_In in Hw.
    apply In_init_own in Hw.
    assert (Hb : correct w <= total w).
    { destruct Hw as [E|Hw]; [injection E as ->; simpl; lia | eapply H; eauto]. }
    destruct ic; simpl; lia.
  - apply In_init_own in Hin. destruct Hin as [E|Hin].
    + injection E as -> ->. simpl. lia.
    + eapply H; eauto.
Qed.

Lemma allBounded_fold ic l m :
  allBounded m -> allBounded (fold_left (countIn ic) l m).
Proof.
  revert m. induction l as [|c l IH]; intros m H; simpl; [exact H|].
  apply IH. now apply allBounded_countIn.
Qed.

Lemma countersBounded_new : countersBounded newAgent.
Proof.
  split; [simpl; lia|]. split; intros ? ? [].
Qed.

(** What a call on a topic that names a member of [Object.prototype]
    leaves, in a state that calls reach. *)
Lemma step_inherited_fields a c :
  ownKeys a -> inherited (c_topic c) = true ->
  totalQuestions (step a c) = S (totalQuestions a) /\
  correctAnswers (step a c) =
    (if c_isCorrect c then S (correctAnswers a) else correctAnswers a) /\
  topicPerformance (step a c) = topicPerformance a /\
  weakAreas (step a c) = weakAreas a /\
  timeSpent (step a c) = timeSpent a /\
  exists counted, incl counted (extractConcepts (c_question c)) /\
    conceptMastery (step a c) =
    fold_left (countIn (c_isCorrect c)) counted (conceptMastery a).
Proof.
  intros H I. rewrite step_inherited by assumption.
  apply trackInherited_fields.
Qed.

Lemma countersBounded_stepOwn a c :
  countersBounded a -> countersBounded (stepOwn a c).
Proof.
  intros (Hg & Ht & Hc). unfold stepOwn.
  destruct c as [topic question ic ev tt now].
  cbn [c_topic c_question c_isCorrect c_evaluation c_timeTaken c_now].
  split; [|split].
  - destruct (trackOwn_counters a topic question ic ev tt now) as [-> ->].
    destruct ic; lia.
  - intros t ts Hin.
    destruct (trackOwn_In_topic _ _ _ _ _ _ _ _ _ Hin) as [E|Hin'];
      [|exact (Ht _ _ Hin')].
    injection E as -> ->.
    assert (Hts : t_correct (topicStatsAt (topicPerformance a) topic)
                  <= t_total (topicStatsAt (topicPerformance a) topic)
                  /\ allBounded
                       (conceptsTests (topicStatsAt (topicPerformance a) topic))).
    { unfold topicStatsAt. destruct (get topic (topicPerformance a)) eqn:G.
      - apply get_In in G. exact (Ht _ _ G).
      - simpl. split; [lia | intros ? ? []]. }
    destruct Hts as [H1 H2]. unfold topicStatsAfter. simpl. split.
    + destruct ic; lia.
    + now apply allBounded_fold.
  - rewrite trackOwn_conceptMastery. now apply allBounded_fold.
Qed.

Lemma countersBounded_step a c :
  ownKeys a -> countersBounded a -> countersBounded (step a c).
Proof.
  intros Hown H. destruct (inherited (c_topic c)) eqn:I.
  - destruct (step_inherited_fields a c Hown I)
      as (Et & Ec & Etp & _ & _ & counted & _ & Ecm).
    destruct H as (Hg & Ht & Hc). unfold countersBounded.
    rewrite Et, Ec, Etp, Ecm. split; [destruct (c_isCorrect c); lia|].
    split; [exact Ht | now apply allBounded_fold].
  - rewrite step_own by assumption. now apply countersBounded_stepOwn.
Qed.

Lemma run_snoc calls c : run (calls ++ [c]) = step (run calls) c.
Proof. unfold run, runFrom. now rewrite fold_left_app. Qed.

Lemma runFrom_snoc a calls c :
  runFrom a (calls ++ [c]) = step (runFrom a calls) c.
Proof. unfold runFrom. now rewrite fold_left_app. Qed.

Lemma ownKeys_run calls : ownKeys (run calls).
Proof.
  induction calls as [|c calls IH] using rev_ind.
  - apply ownKeys_new.
  - rewrite run_snoc. now apply ownKeys_step.
Qed.

(** To show that a property holds after every run: it holds of a new agent
    and every call keeps it, whether it returns or throws. *)
Lemma run_ind (P : Agent -> Prop) :
  P newAgent -> (forall a c, ownKeys a -> P a -> P (step a c)) ->
  forall calls, P (run calls).
Proof.
  intros H0 Hs calls. induction calls as [|c calls IH] using rev_ind.
  - exact H0.
  - rewrite run_snoc. apply Hs; [apply ownKeys_run | exact IH].
Qed.

(** C6.  After every finite sequence of [trackAnswer] calls on a new agent,
    whether they return or throw, the number of correct answers is at most
    the number of answers: for the global counters, for the statistics of
    every topic, for every concept entry of every topic, and for every
    global concept entry. *)
Theorem C6_correct_le_total :
  forall calls : list Call,
    correctAnswers (run calls) <= totalQuestions (run calls) /\
    (forall topic ts, In (topic, ts) (topicPerformance (run calls)) ->
       t_correct ts <= t_total ts /\
       (forall concept s, In (concept, s) (conceptsTests ts) ->
          correct s <= total s)) /\
    (forall concept s, In (concept, s) (conceptMastery (run calls)) ->
       correct s <= total s).
Proof.
  intros calls.
  exact (run_ind countersBounded countersBounded_new countersBounded_step calls).
Qed.

(** ** Weak areas *)

Lemma ratio_lt_spec c t n d : ratio_lt c t n d = true <-> d * c < n * t.
Proof.
  unfold ratio_lt. destruct t as [|t].
  - split; [discriminate | lia].
  - apply Nat.ltb_lt.
Qed.

Lemma belowMastery_spec m c :
  belowMastery m c = true <->
  exists s, get c m = Some s /\ 10 * correct s < 7 * total s.
Proof.
  unfold belowMastery. destruct (get c m) as [s|].
  - rewrite ratio_lt_spec. split.
    + intros H. now exists s.
    + intros (s' & [= <-] & H). exact H.
  - split; [discriminate | intros (s & E & _); discriminate].
Qed.

Lemma belowMastery_tracked m c : belowMastery m c = true -> tracked m c.
Proof.
  rewrite belowMastery_spec. intros (s & E & H). exists s. split; [exact E | lia].
Qed.

Lemma get_countIn_same ic m c :
  get c (countIn ic m c) =
  Some (count ic (match get c m with Some s => s | None => newStats end)).
Proof. unfold countIn. now rewrite get_update_same, get_init_same. Qed.

Lemma get_countIn_other ic m c c' :
  c' <> c -> get c' (countIn ic m c) = get c' m.
Proof.
  intros H. unfold countIn. rewrite get_update_other by assumption.
  now apply get_init_other.
Qed.

(** Counting never removes an entry nor lowers a counter. *)
Lemma countIn_grows ic m c0 c s :
  get c m = Some s ->
  exists s', get c (countIn ic m c0) = Some s' /\
             total s <= total s' /\ correct s <= correct s'.
Proof.
  intros G. destruct (str_dec c c0) as [->|Hne].
  - rewrite get_countIn_same, G. eexists. split; [reflexivity|].
    destruct ic; simpl; lia.
  - rewrite get_countIn_other by assumption. exists s. auto.
Qed.

Lemma fold_countIn_grows ic l m c s :
  get c m = Some s ->
  exists s', get c (fold_left (countIn ic) l m) = Some s' /\
             total s <= total s' /\ correct s <= correct s'.
Proof.
  revert m s. induction l as [|c0 l IH]; intros m s G; simpl.
  - exists s. auto.
  - destruct (countIn_grows ic m c0 c s G) as (s1 & G1 & Ht & Hc).
    destruct (IH _ _ G1) as (s2 & G2 & Ht2 & Hc2).
    exists s2. repeat split; [exact G2 | lia | lia].
Qed.

Lemma tracked_fold ic l m c :
  tracked m c -> tracked (fold_left (countIn ic) l m) c.
Proof.
  intros (s & G & H). destruct (fold_countIn_grows ic l m c s G) as (s' & G' & Ht & _).
  exists s'. split; [exact G' | lia].
Qed.

Lemma weakTracked_new : weakTracked newAgent.
Proof. split; [intros ? [] | intros ? ? []]. Qed.

Lemma weakTracked_stepOwn a c : weakTracked a -> weakTracked (stepOwn a c).
Proof.
  intros [Hw Ht]. unfold stepOwn.
  destruct c as [topic question ic ev tt now].
  cbn [c_topic c_question c_isCorrect c_evaluation c_timeTaken c_now].
  assert (Hkeep : forall c, tracked (conceptMastery a) c ->
            tracked (conceptMastery (trackOwn a topic question ic ev tt now)) c).
  { intros c0 H. rewrite trackOwn_conceptMastery. now apply tracked_fold. }
  assert (Hadd : forall st c0,
            (forall c, In c st -> tracked (conceptMastery a) c) ->
            In c0 (if ic then st
                   else fold_left
                          (addIf (belowMastery
                             (conceptMastery (trackOwn a topic question ic ev tt now))))
                          (extractConcepts question) st) ->
            tracked (conceptMastery (trackOwn a topic question ic ev tt now)) c0).
  { intros st c0 Hst Hin. destruct ic.
    - apply Hkeep, Hst, Hin.
    - apply In_fold_addIf in Hin. destruct Hin as [Hin|[_ Hb]].
      + apply Hkeep, Hst, Hin.
      + now apply belowMastery_tracked. }
  split.
  - intros c0. rewrite trackOwn_weakAreas. now apply Hadd.
  - intros t ts Hin c0.
    destruct (trackOwn_In_topic _ _ _ _ _ _ _ _ _ Hin) as [E|Hin'].
    + injection E as -> ->. unfold topicStatsAfter. cbn [t_weakAreas].
      apply Hadd. intros c1. unfold topicStatsAt.
      destruct (get topic (topicPerformance a)) eqn:G.
      * apply get_In in G. exact (Ht _ _ G c1).
      * intros [].
    + intros Hc0. apply Hkeep. exact (Ht _ _ Hin' _ Hc0).
Qed.

Lemma weakTracked_step a c :
  ownKeys a -> weakTracked a -> weakTracked (step a c).
Proof.
  intros Hown H. destruct (inherited (c_topic c)) eqn:I.
  - destruct (step_inherited_fields a c Hown I)
      as (_ & _ & Etp & Ew & _ & counted & _ & Ecm).
    destruct H as [Hw Ht]. unfold weakTracked. rewrite Etp, Ew, Ecm. split.
    + intros x Hx. now apply tracked_fold, Hw.
    + intros t ts Hin x Hx. apply tracked_fold. exact (Ht _ _ Hin _ Hx).
  - rewrite step_own by assumption. now apply weakTracked_stepOwn.
Qed.

(** C9.  After every finite sequence of [trackAnswer] calls on a new agent,
    whether they return or throw, every concept of the global weak-area
    set, and of the weak-area set of every topic, has an entry in the
    global concept-mastery map whose [total] is at least 1: the quotients
    taken over weak areas have a denominator, and it is not zero. *)
Theorem C9_weak_areas_tracked :
  forall calls : list Call,
    (forall c, In c (weakAreas (run calls)) ->
       exists s, get c (conceptMastery (run calls)) = Some s /\ 1 <= total s) /\
    (forall topic ts, In (topic, ts) (topicPerformance (run calls)) ->
       forall c, In c (t_weakAreas ts) ->
       exists s, get c (conceptMastery (run calls)) = Some s /\ 1 <= total s).
Proof.
  intros calls.
  exact (run_ind weakTracked weakTracked_new weakTracked_step calls).
Qed.

(** Weak areas only grow, in one call, whatever the state it is made in and
    whether it returns or throws, and so in any number of calls. *)
Lemma get_init_if_absent_some {V} (k : jsstring) (v w : V) (o : obj V) :
  get k o = Some w -> init_if_absent k v o = o.
Proof. intros H. unfold init_if_absent, has. now rewrite H. Qed.

Lemma weakAreas_step_mono a c x :
  In x (weakAreas a) -> In x (weakAreas (step a c)).
Proof.
  intros H. unfold step, trackAnswer.
  destruct (get (c_topic c) (init_if_absent (c_topic c) newTopicStats
                               (topicPerformance a))) as [ts|].
  - destruct (truthyTime (c_timeTaken c)) as [t|];
      [destruct (pushTime (c_topic c) t (timeSpent a)) as [spent|]|];
      rewrite ?fold_countConcept; try exact H;
      (destruct (c_isCorrect c); [exact H|]; rewrite fold_markWeak;
       cbn [stateOf weakAreas]; apply In_fold_addIf; now left).
  - destruct (truthyTime (c_timeTaken c)) as [t|];
      [destruct (pushTime (c_topic c) t (timeSpent a)) as [spent|]|];
      try exact H; destruct (extractConcepts (c_question c)); exact H.
Qed.

Lemma topicWeak_step_mono a c t ts x :
  get t (topicPerformance a) = Some ts -> In x (t_weakAreas ts) ->
  exists ts', get t (topicPerformance (step a c)) = Some ts' /\
              In x (t_weakAreas ts').
Proof.
  intros G H. unfold step, trackAnswer.
  destruct (str_dec t (c_topic c)) as [->|Hne].
  - rewrite (get_init_if_absent_some _ newTopicStats _ _ G), G.
    destruct (truthyTime (c_timeTaken c)) as [t|];
      [destruct (pushTime (c_topic c) t (timeSpent a)) as [spent|]|];
      rewrite ?fold_countConcept;
      try (destruct (c_isCorrect c); rewrite ?fold_markWeak);
      cbn [stateOf topicPerformance]; rewrite get_set_same;
      (eexists; split; [reflexivity|]); cbn [t_weakAreas]; try exact H;
      apply In_fold_addIf; now left.
  - exists ts. split; [|exact H]. rewrite <- G.
    destruct (get (c_topic c) (init_if_absent (c_topic c) newTopicStats
                                 (topicPerformance a))) as [ts0|].
    + destruct (truthyTime (c_timeTaken c)) as [t0|];
        [destruct (pushTime (c_topic c) t0 (timeSpent a)) as [spent|]|];
        rewrite ?fold_countConcept;
        try (destruct (c_isCorrect c); rewrite ?fold_markWeak);
        cbn [stateOf topicPerformance];
        rewrite get_set_other by assumption;
        now apply get_init_if_absent_other.
    + destruct (truthyTime (c_timeTaken c)) as [t0|];
        [destruct (pushTime (c_topic c) t0 (timeSpent a)) as [spent|]|];
        try destruct (extractConcepts (c_question c));
        cbn [stateOf topicPerformance];
        now apply get_init_if_absent_other.
Qed.

Lemma weakAreas_run_mono calls a x :
  In x (weakAreas a) -> In x (weakAreas (runFrom a calls)).
Proof.
  revert a. induction calls as [|c calls IH]; intros a H; simpl; [exact H|].
  apply IH. now apply weakAreas_step_mono.
Qed.

Lemma topicWeak_run_mono calls a t ts x :
  get t (topicPerformance a) = Some ts -> In x (t_weakAreas ts) ->
  exists ts', get t (topicPerformance (runFrom a calls)) = Some ts' /\
              In x (t_weakAreas ts').
Proof.
  revert a ts. induction calls as [|c calls IH]; intros a ts G H; simpl.
  - now exists ts.
  - destruct (topicWeak_step_mono a c t ts x G H) as (ts1 & G1 & H1).
    exact (IH _ _ G1 H1).
Qed.

(** The update of the weak areas by a call whose topic names no member of
    [Object.prototype]. *)
Lemma weak_area_update_own a topic question isCorrect evaluation timeTaken now :
  inherited topic = false ->
  let a' := stateOf (trackAnswer a topic question isCorrect evaluation
                       timeTaken now) in
  let added c :=
    isCorrect = false /\ In c (extractConcepts question) /\
    exists s, get c (conceptMastery a') = Some s /\
              10 * correct s < 7 * total s in
  (forall c, In c (weakAreas a') <-> In c (weakAreas a) \/ added c) /\
  (exists ts', get topic (topicPerformance a') = Some ts' /\
     forall c, In c (t_weakAreas ts') <->
               In c (t_weakAreas (topicStatsAt (topicPerformance a) topic))
               \/ added c).
Proof.
  intros Hown a0 added.
  assert (Ea : a0 = trackOwn a topic question isCorrect evaluation timeTaken now)
    by (unfold a0; now rewrite trackAnswer_own).
  clearbody a0. subst a0.
  set (a' := trackOwn a topic question isCorrect evaluation timeTaken now) in *.
  assert (Hchar : forall st c,
            In c (if isCorrect then st
                  else fold_left (addIf (belowMastery (conceptMastery a')))
                         (extractConcepts question) st)
            <-> In c st \/ added c).
  { intros st c. unfold added. destruct isCorrect.
    - split; [now left | intros [H|[H _]]; [exact H | discriminate]].
    - rewrite In_fold_addIf, belowMastery_spec. tauto. }
  split.
  - intros c. unfold a'. rewrite trackOwn_weakAreas. apply Hchar.
  - exists (topicStatsAfter a topic question isCorrect evaluation timeTaken now).
    split; [apply trackOwn_get_topic|].
    intros c. unfold topicStatsAfter. cbn [t_weakAreas]. apply Hchar.
Qed.

(** C1 (evaluation of the code).  A first call of [trackAnswer] on the
    topic [constructor], with a wrong answer to a question that names the
    concept [function]: the condition under which the concept is to be
    added holds, for its global ratio is 0 of 1; but the call throws while
    it counts the concept for the topic, before the weak areas are
    updated: the global set stays empty and the topic has no entry. *)
Theorem C1_prototype_topic_throws :
  exists a',
    trackAnswer newAgent (js "constructor")
      (js "What is a function in JavaScript?")
      false (js "Incorrect.") None 0%Z = Threw a' /\
    In (js "function")
       (extractConcepts (js "What is a function in JavaScript?")) /\
    (exists s, get (js "function") (conceptMastery a') = Some s /\
               10 * correct s < 7 * total s) /\
    weakAreas a' = [] /\
    get (js "constructor") (topicPerformance a') = None /\
    questionHistory a' = [].
Proof.
  eexists. split; [vm_compute; reflexivity|].
  split; [vm_compute; tauto|].
  split; [eexists; split; [vm_compute; reflexivity | simpl; lia]|].
  repeat split.
Qed.
(** ** Doubles: rounding is monotone *)

Lemma pow2_pos e : (0 < pow2 e)%Q.
Proof. apply Qpower_0_lt. reflexivity. Qed.

Lemma pow2_add a b : (pow2 (a + b) == pow2 a * pow2 b)%Q.
Proof. apply Qpower_plus. discriminate. Qed.

Lemma pow2_le a b : (a <= b)%Z -> (pow2 a <= pow2 b)%Q.
Proof. intros H. apply Qpower_le_compat_l; [exact H | discriminate]. Qed.

Lemma pow2_Z a : (0 <= a)%Z -> (pow2 a == inject_Z (2 ^ a))%Q.
Proof. intros H. unfold pow2. now rewrite Zpower_Qpower. Qed.

Lemma pow2_S a : (pow2 (a + 1) == 2 * pow2 a)%Q.
Proof. rewrite pow2_add. change (pow2 1) with 2%Q. ring. Qed.

Lemma log2_bounds p : (0 < p)%Z ->
  (pow2 (Z.log2 p) <= inject_Z p /\ inject_Z p < pow2 (Z.log2 p + 1))%Q.
Proof.
  intros H. destruct (Z.log2_spec p H) as [H1 H2].
  pose proof (Z.log2_nonneg p) as H0.
  rewrite !pow2_Z by lia. split.
  - now rewrite <- Zle_Qle.
  - rewrite <- Zlt_Qlt. now rewrite <- Z.add_1_r in H2.
Qed.

(** [ilog2 x] is the exponent of the power of two at or below [x]. *)
Lemma ilog2_spec x :
  (0 < x)%Q -> (pow2 (ilog2 x) <= x /\ x < pow2 (ilog2 x + 1))%Q.
Proof.
  intros Hx. unfold ilog2.
  set (p := Qnum x). set (q := Z.pos (Qden x)).
  assert (Hp : (0 < p)%Z)
    by (unfold p; destruct x as [n d]; unfold Qlt in Hx; simpl in *; lia).
  assert (Hq : (0 < q)%Z) by (unfold q; lia).
  destruct (log2_bounds p Hp) as [Pa Pb].
  destruct (log2_bounds q Hq) as [Qa Qb].
  set (a := Z.log2 p) in *. set (b := Z.log2 q) in *.
  assert (E : (x * inject_Z q == inject_Z p)%Q).
  { unfold p, q. destruct x as [n d]. unfold Qeq, Qmult, inject_Z. simpl. lia. }
  assert (Hq' : (0 < inject_Z q)%Q)
    by (change (inject_Z 0 < inject_Z q)%Q; rewrite <- Zlt_Qlt; exact Hq).
  pose proof (pow2_pos b) as Hb. pose proof (pow2_pos (a - b)) as Hd.
  assert (Ea : (pow2 a == pow2 (a - b) * pow2 b)%Q).
  { rewrite <- pow2_add. now replace (a - b + b)%Z with a by lia. }
  rewrite pow2_S in Pb, Qb.
  destruct (Qle_bool (pow2 (a - b)) x) eqn:T.
  - apply Qle_bool_iff in T. split; [exact T|].
    rewrite pow2_S. nra.
  - assert (T' : (x < pow2 (a - b))%Q).
    { apply Qnot_le_lt. intros C. apply Qle_bool_iff in C. congruence. }
    replace (a - b - 1 + 1)%Z with (a - b)%Z by lia. split; [|exact T'].
    assert (E1 : (pow2 (a - b) == 2 * pow2 (a - b - 1))%Q).
    { rewrite <- pow2_S. now replace (a - b - 1 + 1)%Z with (a - b)%Z by lia. }
    pose proof (pow2_pos (a - b - 1)). nra.
Qed.

Lemma ilog2_mono x y : (0 < x)%Q -> (x <= y)%Q -> (ilog2 x <= ilog2 y)%Z.
Proof.
  intros Hx Hxy.
  destruct (ilog2_spec x Hx) as [X1 X2].
  assert (Hy : (0 < y)%Q) by lra.
  destruct (ilog2_spec y Hy) as [Y1 Y2].
  destruct (Z_le_gt_dec (ilog2 x) (ilog2 y)) as [|C]; [assumption|].
  exfalso.
  assert (L : (pow2 (ilog2 y + 1) <= pow2 (ilog2 x))%Q) by (apply pow2_le; lia).
  lra.
Qed.

Lemma rne_floor y : (Qfloor y <= rne y <= Qfloor y + 1)%Z.
Proof.
  unfold rne. destruct (Qcompare _ _); [destruct (Z.even _)| |]; lia.
Qed.

(** An integer is kept. *)
Lemma rne_int n : rne (inject_Z n) = n.
Proof.
  unfold rne. rewrite Qfloor_Z.
  destruct (Qcompare_spec (inject_Z n - inject_Z n) (1 # 2)) as [H|H|H];
    [exfalso; lra | reflexivity | exfalso; lra].
Qed.

Lemma Qfloor_comp_rne y1 y2 : (y1 == y2)%Q -> rne y1 = rne y2.
Proof.
  intros E. unfold rne. rewrite (Qfloor_comp _ _ E).
  assert (E' : (y1 - inject_Z (Qfloor y2) == y2 - inject_Z (Qfloor y2))%Q)
    by (rewrite E; reflexivity).
  now rewrite (Qcompare_comp _ _ E' _ _ (Qeq_refl (1 # 2))).
Qed.

Lemma rne_mono y1 y2 : (y1 <= y2)%Q -> (rne y1 <= rne y2)%Z.
Proof.
  intros H. pose proof (Qfloor_resp_le _ _ H) as Hf.
  pose proof (rne_floor y1) as B1. pose proof (rne_floor y2) as B2.
  destruct (Z.eq_dec (Qfloor y1) (Qfloor y2)) as [E|N]; [|lia].
  unfold rne. rewrite <- E.
  destruct (Qcompare_spec (y1 - inject_Z (Qfloor y1)) (1 # 2)) as [H1|H1|H1];
  destruct (Qcompare_spec (y2 - inject_Z (Qfloor y1)) (1 # 2)) as [H2|H2|H2];
    try (destruct (Z.even (Qfloor y1))); try lia; exfalso; lra.
Qed.

Lemma rne_le y n : (y <= inject_Z n)%Q -> (rne y <= n)%Z.
Proof. intros H. rewrite <- (rne_int n). now apply rne_mono. Qed.

Lemma rne_ge y n : (inject_Z n <= y)%Q -> (n <= rne y)%Z.
Proof. intros H. rewrite <- (rne_int n). now apply rne_mono. Qed.

Lemma div_pow2 x e : (x / pow2 e == x * pow2 (- e))%Q.
Proof.
  unfold Qdiv. apply Qmult_comp; [reflexivity|].
  unfold pow2. now rewrite Qpower_opp.
Qed.

Lemma val_nonneg x : (0 < x)%Q -> (0 <= val x)%Q.
Proof.
  intros Hx. unfold val. pose proof (pow2_pos (expo x)) as P.
  assert (0 <= x / pow2 (expo x))%Q.
  { rewrite div_pow2. pose proof (pow2_pos (- expo x)). nra. }
  assert (H0 : (0 <= rne (x / pow2 (expo x)))%Z) by (apply rne_ge; assumption).
  rewrite Zle_Qle in H0. change (inject_Z 0) with 0%Q in H0. nra.
Qed.

(** Of two positive rationals, the larger is rounded to the larger
    value. *)
Lemma val_mono x y : (0 < x)%Q -> (x <= y)%Q -> (val x <= val y)%Q.
Proof.
  intros Hx Hxy. assert (Hy : (0 < y)%Q) by lra.
  pose proof (ilog2_mono x y Hx Hxy) as HL.
  destruct (ilog2_spec x Hx) as [X1 X2]. destruct (ilog2_spec y Hy) as [Y1 Y2].
  unfold val.
  pose proof (pow2_pos (expo x)) as Px. pose proof (pow2_pos (expo y)) as Py.
  pose proof (pow2_pos (- expo x)) as Px'. pose proof (pow2_pos (- expo y)) as Py'.
  destruct (Z.eq_dec (expo x) (expo y)) as [E|N].
  - rewrite E.
    assert (M : (rne (x / pow2 (expo y)) <= rne (y / pow2 (expo y)))%Z).
    { apply rne_mono. rewrite !div_pow2. nra. }
    rewrite Zle_Qle in M. nra.
  - assert (Ey : expo y = (ilog2 y - 52)%Z) by (unfold expo in *; lia).
    assert (Exy : (expo x + 1 <= expo y)%Z) by (unfold expo in *; lia).
    assert (Ex : (ilog2 x - 52 <= expo x)%Z) by (unfold expo; lia).
    assert (My : (2 ^ 52 <= rne (y / pow2 (expo y)))%Z).
    { apply rne_ge. rewrite <- pow2_Z by lia. rewrite div_pow2.
      assert (pow2 52 == pow2 (ilog2 y) * pow2 (- expo y))%Q as ->.
      { rewrite <- pow2_add. rewrite Ey.
        now replace (ilog2 y + - (ilog2 y - 52))%Z with 52%Z by lia. }
      nra. }
    assert (Mx : (rne (x / pow2 (expo x)) <= 2 ^ 53)%Z).
    { apply rne_le. rewrite <- pow2_Z by lia. rewrite div_pow2.
      assert (L : (pow2 (ilog2 x + 1) * pow2 (- expo x) <= pow2 53)%Q).
      { rewrite <- pow2_add. apply pow2_le. lia. }
      nra. }
    rewrite Zle_Qle in My, Mx. rewrite <- !pow2_Z in My, Mx by lia.
    assert (L : (pow2 53 * pow2 (expo x) <= pow2 52 * pow2 (expo y))%Q).
    { rewrite <- !pow2_add. apply pow2_le. lia. }
    nra.
Qed.

(** A rational from 0 to a double [b] is rounded to a double from 0 to
    [b]. *)
Lemma round_bounded x b b' :
  (0 <= x)%Q -> (x <= b)%Q -> roundPos b = Finite b' ->
  exists q, round x = Finite q /\ (0 <= q)%Q /\ (q <= b')%Q.
Proof.
  intros H0 Hb Eb. unfold round. destruct (Qnum x) as [|p|p] eqn:En.
  - exists 0%Q. split; [reflexivity|]. split; [lra|].
    unfold roundPos in Eb.
    destruct (Qle_bool (pow2 1024) (val b)); [discriminate|].
    assert (Eb' : b' = Qred (val b)) by congruence. subst b'. clear Eb.
    pose proof (Qred_correct (val b)) as R.
    destruct (Qlt_le_dec 0 b) as [Hpos|Hnp].
    + pose proof (val_nonneg b Hpos). lra.
    + assert (Ex : (x == 0)%Q) by (destruct x; unfold Qeq; simpl in *; lia).
      assert (E0 : (b == 0)%Q) by lra.
      assert (V : (val b == 0)%Q).
      { unfold val. assert (Ed : (b / pow2 (expo b) == inject_Z 0)%Q).
        { unfold Qdiv. change (inject_Z 0) with 0%Q. nra. }
        rewrite (Qfloor_comp_rne _ _ Ed), rne_int. ring. }
      lra.
  - assert (Hx : (0 < x)%Q) by (destruct x; unfold Qlt; simpl in *; lia).
    pose proof (val_mono x b Hx Hb) as M. pose proof (val_nonneg x Hx) as N.
    unfold roundPos in *.
    destruct (Qle_bool (pow2 1024) (val b)) eqn:Tb; [discriminate|].
    assert (Eb' : b' = Qred (val b)) by congruence. subst b'. clear Eb.
    destruct (Qle_bool (pow2 1024) (val x)) eqn:Tx.
    + apply Qle_bool_iff in Tx.
      assert (C : Qle_bool (pow2 1024) (val b) = true)
        by (apply Qle_bool_iff; lra).
      congruence.
    + exists (Qred (val x)). split; [reflexivity|].
      pose proof (Qred_correct (val x)). pose proof (Qred_correct (val b)).
      split; lra.
  - exfalso. destruct x; unfold Qle in H0; simpl in *; lia.
Qed.

Lemma roundPos_1 : roundPos 1 = Finite 1.
Proof. vm_compute. reflexivity. Qed.

Lemma roundPos_100 : roundPos 100 = Finite 100.
Proof. vm_compute. reflexivity. Qed.

(** ** Percentages *)

(** The percentage of a part of a total that is not zero is a number from
    0.00 to 100.00. *)
Lemma percentage_inRange c t :
  1 <= t -> c <= t -> inRange (percentage c t).
Proof.
  intros Ht Hc. unfold percentage, ofNat, div.
  cbn [inject_Z Qnum]. destruct (Z.of_nat t) as [|p|p] eqn:Et; try lia.
  assert (Hq : (0 <= inject_Z (Z.of_nat c) / inject_Z (Z.pos p) /\
                inject_Z (Z.of_nat c) / inject_Z (Z.pos p) <= 1)%Q).
  { assert (Hp : (0 < inject_Z (Z.pos p))%Q) by reflexivity.
    assert (H0 : (0 <= inject_Z (Z.of_nat c))%Q)
      by (change 0%Q with (inject_Z 0); rewrite <- Zle_Qle; lia).
    assert (H1 : (inject_Z (Z.of_nat c) <= inject_Z (Z.pos p))%Q)
      by (rewrite <- Zle_Qle; lia).
    split.
    - apply Qle_shift_div_l; [exact Hp | lra].
    - apply Qle_shift_div_r; [exact Hp | lra]. }
  destruct Hq as [Q0 Q1].
  destruct (round_bounded _ 1 1 Q0 Q1 roundPos_1) as (q1 & -> & A0 & A1).
  unfold mul.
  assert (B0 : (0 <= q1 * 100)%Q) by lra.
  assert (B1 : (q1 * 100 <= 100)%Q) by lra.
  destruct (round_bounded _ 100 100 B0 B1 roundPos_100) as (q2 & -> & C0 & C1).
  unfold toFixed2.
  assert (Ea : (Qabs q2 == q2)%Q) by (now apply Qabs_pos).
  assert (Hs : Qle_bool (inject_Z (10 ^ 21)) (Qabs q2) = false).
  { destruct (Qle_bool _ _) eqn:T; [|reflexivity].
    apply Qle_bool_iff in T. rewrite Ea in T.
    assert (inject_Z (10 ^ 21) == 1000000000000000000000)%Q by reflexivity.
    lra. }
  rewrite Hs.
  assert (Hn : (Qnum q2 <? 0)%Z = false).
  { apply Z.ltb_ge. destruct q2; unfold Qle in C0; simpl in *; lia. }
  rewrite Hn. eexists. split; [reflexivity|]. split.
  - change 0%Z with (Qfloor 0). apply Qfloor_resp_le. rewrite Ea. lra.
  - change 10000%Z with (Qfloor (10000 + (1 # 2))). apply Qfloor_resp_le.
    rewrite Ea. lra.
Qed.


(** ** Recommended focus *)

Lemma countIn_set ic m c :
  countIn ic m c =
  set c (count ic (match get c m with Some s => s | None => newStats end))
    (init_own c newStats m).
Proof. unfold countIn, update. now rewrite get_init_same. Qed.

Lemma In_countIn ic m c kv :
  In kv (countIn ic m c) ->
  kv = (c, count ic (match get c m with Some s => s | None => newStats end))
  \/ In kv m.
Proof. rewrite countIn_set. apply In_set_init. Qed.

Lemma NoDup_keys_countIn ic m c :
  NoDup (keys m) -> NoDup (keys (countIn ic m c)).
Proof.
  intros H. unfold countIn. now apply NoDup_keys_update, NoDup_keys_init.
Qed.

Lemma focusReady_new : focusReady newAgent.
Proof. repeat split; try constructor. intros ? ? []. Qed.

Lemma NoDup_keys_fold_countIn ic l m :
  NoDup (keys m) -> NoDup (keys (fold_left (countIn ic) l m)).
Proof.
  revert m. induction l as [|c0 l IH]; intros m Hm; simpl; [exact Hm|].
  apply IH. now apply NoDup_keys_countIn.
Qed.

Lemma counted_fold_countIn ic l m :
  (forall c s, In (c, s) m -> 1 <= total s) ->
  forall c s, In (c, s) (fold_left (countIn ic) l m) -> 1 <= total s.
Proof.
  revert m. induction l as [|c0 l IH]; intros m Hm; simpl; [exact Hm|].
  apply IH. intros c1 s1 Hin. apply In_countIn in Hin.
  destruct Hin as [E|Hin]; [|exact (Hm _ _ Hin)].
  injection E as -> ->. simpl. lia.
Qed.

Lemma focusReady_stepOwn a c : focusReady a -> focusReady (stepOwn a c).
Proof.
  intros (Hk & Hw & Ht). unfold stepOwn. repeat split.
  - rewrite trackOwn_conceptMastery. now apply NoDup_keys_fold_countIn.
  - rewrite trackOwn_weakAreas. destruct (c_isCorrect c); [exact Hw|].
    now apply NoDup_fold_addIf.
  - rewrite trackOwn_conceptMastery. now apply counted_fold_countIn.
Qed.

Lemma focusReady_step a c :
  ownKeys a -> focusReady a -> focusReady (step a c).
Proof.
  intros Hown H. destruct (inherited (c_topic c)) eqn:I.
  - destruct (step_inherited_fields a c Hown I)
      as (_ & _ & _ & Ew & _ & counted & _ & Ecm).
    destruct H as (Hk & Hw & Ht). unfold focusReady. rewrite Ew, Ecm.
    repeat split.
    + now apply NoDup_keys_fold_countIn.
    + exact Hw.
    + now apply counted_fold_countIn.
  - rewrite step_own by assumption. now apply focusReady_stepOwn.
Qed.

(** *** The sort *)

Lemma insertByMastery_perm x l : Permutation (insertByMastery x l) (x :: l).
Proof.
  induction l as [|y l IH]; simpl; [reflexivity|].
  destruct (minus_pos (r_mastery x) (r_mastery y)); [|reflexivity].
  rewrite IH. apply perm_swap.
Qed.

Lemma sortByMastery_perm l : Permutation (sortByMastery l) l.
Proof.
  induction l as [|x l IH]; simpl; [reflexivity|].
  rewrite insertByMastery_perm. now constructor.
Qed.



(** *** The two loops *)

Lemma In_weakRecommendations a e :
  In e (weakRecommendations a) <->
  exists s, In (r_concept e) (weakAreas a) /\
            get (r_concept e) (conceptMastery a) = Some s /\
            6 * total s > 10 * correct s /\
            r_type e = weak /\
            r_mastery e = percentage (correct s) (total s).
Proof.
  unfold weakRecommendations. rewrite in_flat_map. split.
  - intros (c & Hc & Hin). destruct (get c (conceptMastery a)) as [s|] eqn:G;
      [|destruct Hin].
    destruct (ratio_lt (correct s) (total s) 6 10) eqn:R; [|destruct Hin].
    destruct Hin as [<-|[]]. cbn. apply ratio_lt_spec in R.
    exists s. repeat split; auto; lia.
  - intros (s & Hc & G & R & Ht & Hm). exists (r_concept e). split; [exact Hc|].
    rewrite G. replace (ratio_lt (correct s) (total s) 6 10) with true.
    + left. destruct e; cbn in *. now subst.
    + symmetry. apply ratio_lt_spec. lia.
Qed.

Lemma In_practiceRecommendations a e :
  In e (practiceRecommendations a) <->
  exists s, In (r_concept e, s) (conceptMastery a) /\
            ~ In (r_concept e) (weakAreas a) /\
            8 * total s > 10 * correct s /\
            r_type e = practice /\
            r_mastery e = percentage (correct s) (total s).
Proof.
  unfold practiceRecommendations. rewrite in_flat_map. split.
  - intros ([c s] & Hc & Hin).
    destruct (includes (weakAreas a) c) eqn:I; [destruct Hin|].
    destruct (ratio_lt (correct s) (total s) 8 10) eqn:R; [|destruct Hin].
    destruct Hin as [<-|[]]. cbn. apply ratio_lt_spec in R.
    apply includes_false in I. exists s. repeat split; auto; lia.
  - intros (s & Hc & I & R & Ht & Hm). exists (r_concept e, s).
    split; [exact Hc|]. apply includes_false in I. rewrite I.
    replace (ratio_lt (correct s) (total s) 8 10) with true.
    + left. destruct e; cbn in *. now subst.
    + symmetry. apply ratio_lt_spec. lia.
Qed.

(** Keys of a list built by keeping at most one item per element. *)
Lemma NoDup_flat_map_keys {A B K : Type} (key : B -> K) (k : A -> K)
  (f : A -> list B) (l : list A) :
  (forall x y, In y (f x) -> key y = k x) ->
  (forall x, List.length (f x) <= 1) ->
  NoDup (map k l) -> NoDup (map key (flat_map f l)).
Proof.
  intros Hkey Hlen. induction l as [|x l IH]; simpl; intros Hnd.
  - constructor.
  - inversion Hnd as [|? ? Hnotin Hnd']; subst.
    rewrite map_app. specialize (Hlen x).
    destruct (f x) as [|y [|z r]] eqn:E; simpl in *; try lia.
    + now apply IH.
    + constructor; [|now apply IH].
      intros Hin. apply Hnotin. apply in_map_iff in Hin.
      destruct Hin as (y' & Ey & Hy'). apply in_flat_map in Hy'.
      destruct Hy' as (x' & Hx' & Hy').
      apply Hkey in Hy'. rewrite (Hkey x y) in Ey by (rewrite E; now left).
      rewrite <- Ey, Hy'. now apply in_map.
Qed.

Lemma NoDup_focus_concepts a :
  focusReady a ->
  NoDup (map r_concept (weakRecommendations a ++ practiceRecommendations a)).
Proof.
  intros (Hk & Hw & _). rewrite map_app. apply NoDup_app.
  - unfold weakRecommendations.
    apply NoDup_flat_map_keys with (k := fun c : jsstring => c).
    + intros c y. destruct (get c (conceptMastery a)) as [s|]; [|intros []].
      destruct (ratio_lt _ _ _ _); [|intros []]. now intros [<-|[]].
    + intros c. destruct (get c (conceptMastery a)) as [s|]; simpl; [|lia].
      destruct (ratio_lt _ _ _ _); simpl; lia.
    + now rewrite map_id.
  - unfold practiceRecommendations.
    apply NoDup_flat_map_keys with (k := @fst jsstring Stats).
    + intros [c s] y. destruct (_ && _); [|intros []]. now intros [<-|[]].
    + intros [c s]. destruct (_ && _); simpl; lia.
    + exact Hk.
  - intros c Hw' Hp. apply in_map_iff in Hw'. apply in_map_iff in Hp.
    destruct Hw' as (e1 & <- & H1). destruct Hp as (e2 & E & H2).
    apply In_weakRecommendations in H1. apply In_practiceRecommendations in H2.
    destruct H1 as (s1 & Hin & _). destruct H2 as (s2 & _ & Hnot & _).
    apply Hnot. now rewrite E.
Qed.


Lemma focusReady_run calls : focusReady (run calls).
Proof. exact (run_ind focusReady focusReady_new focusReady_step calls). Qed.



(** ** Average time *)

Lemma truthyTime_isSample tt :
  truthyTime tt =
  match tt with
  | Some t => if isSample (Some t) then Some t else None
  | None => None
  end.
Proof.
  destruct tt as [[| |q]|]; try reflexivity.
  simpl. now destruct (Qeq_bool q 0).
Qed.

Lemma samples_snoc topic calls c :
  samples topic (calls ++ [c]) =
  samples topic calls ++
  (if str_dec (c_topic c) topic
   then match truthyTime (c_timeTaken c) with Some t => [t] | None => [] end
   else []).
Proof.
  unfold samples. rewrite flat_map_app. cbn [flat_map]. rewrite app_nil_r.
  rewrite truthyTime_isSample. destruct (c_timeTaken c) as [t|]; [|reflexivity].
  now destruct (isSample (Some t)).
Qed.

Lemma asked_snoc topic calls c :
  asked topic (calls ++ [c]) <-> asked topic calls \/ c_topic c = topic.
Proof.
  unfold asked. split.
  - intros (c0 & Hin & E). apply in_app_iff in Hin.
    destruct Hin as [Hin|[<-|[]]]; [left; now exists c0 | now right].
  - intros [(c0 & Hin & E)| E].
    + exists c0. split; [apply in_app_iff; now left | exact E].
    + exists c. split; [apply in_app_iff; right; now left | exact E].
Qed.

Lemma samples_asked topic calls : samples topic calls <> [] -> asked topic calls.
Proof.
  induction calls as [|c calls IH]; simpl; [congruence|].
  destruct (str_dec (c_topic c) topic) as [E|Hne].
  - intros _. exists c. split; [now left | exact E].
  - simpl. intros H. destruct (IH H) as (c0 & Hin & E).
    exists c0. split; [now right | exact E].
Qed.

Lemma some_snoc (l : list number) t :
  match l ++ [t] with [] => None | x :: r => Some (x :: r) end = Some (l ++ [t]).
Proof. now destruct l. Qed.

Lemma timeLog_new : timeLog [] newAgent.
Proof.
  split; [constructor|]. split; [reflexivity|]. split.
  - intros topic _ (c & [] & _).
  - intros topic ts. discriminate.
Qed.

Lemma timeLog_stepOwn calls a c :
  inherited (c_topic c) = false ->
  timeLog calls a -> timeLog (calls ++ [c]) (stepOwn a c).
Proof.
  intros I (Hnd & Hts & Hask & Havg).
  assert (Hts' : forall topic, inherited topic = false ->
            get topic (timeSpent (stepOwn a c)) =
            match samples topic (calls ++ [c]) with
            | [] => None | l => Some l end).
  { intros topic It. unfold stepOwn. rewrite trackOwn_timeSpent, samples_snoc.
    destruct (str_dec (c_topic c) topic) as [E|Hne].
    - subst topic. destruct (truthyTime (c_timeTaken c)) as [t|].
      + rewrite get_update_same, get_init_same, Hts, some_snoc by assumption.
        simpl. now destruct (samples (c_topic c) calls).
      + rewrite app_nil_r. now apply Hts.
    - rewrite app_nil_r. destruct (truthyTime (c_timeTaken c)) as [t|].
      + rewrite get_update_other, get_init_other by congruence. now apply Hts.
      + now apply Hts. }
  split; [|split; [exact Hts'|split]].
  - unfold stepOwn. rewrite trackOwn_topicPerformance.
    now apply NoDup_keys_set, NoDup_keys_init.
  - intros topic It Ha. apply asked_snoc in Ha. unfold stepOwn.
    destruct (str_dec topic (c_topic c)) as [->|Hne].
    + rewrite trackOwn_get_topic. discriminate.
    + rewrite trackOwn_get_other by assumption.
      destruct Ha as [Ha|E]; [now apply Hask | congruence].
  - intros topic ts. destruct (str_dec topic (c_topic c)) as [->|Hne].
    + unfold stepOwn at 1. rewrite trackOwn_get_topic. intros [= <-].
      unfold topicStatsAfter. cbn [averageTime].
      fold (stepOwn a c). rewrite Hts' by assumption.
      rewrite samples_snoc. destruct (str_dec (c_topic c) (c_topic c)); [|congruence].
      destruct (truthyTime (c_timeTaken c)) as [t|].
      * now rewrite some_snoc.
      * rewrite app_nil_r. unfold topicStatsAt.
        destruct (get (c_topic c) (topicPerformance a)) as [ts0|] eqn:G.
        -- now apply Havg.
        -- destruct (samples (c_topic c) calls) eqn:S; [reflexivity|].
           exfalso. apply (Hask (c_topic c)); [assumption| |exact G].
           apply samples_asked. rewrite S. discriminate.
    + unfold stepOwn. rewrite trackOwn_get_other by assumption.
      rewrite samples_snoc.
      destruct (str_dec (c_topic c) topic); [congruence|].
      rewrite app_nil_r. apply Havg.
Qed.

Lemma timeLog_step calls a c :
  ownKeys a -> timeLog calls a -> timeLog (calls ++ [c]) (step a c).
Proof.
  intros Hown H. destruct (inherited (c_topic c)) eqn:I.
  - destruct (step_inherited_fields a c Hown I)
      as (_ & _ & Etp & _ & Ets & _).
    destruct H as (Hnd & Hts & Hask & Havg). unfold timeLog.
    rewrite Etp, Ets.
    assert (Hs : forall topic, inherited topic = false ->
              samples topic (calls ++ [c]) = samples topic calls).
    { intros topic It. rewrite samples_snoc.
      destruct (str_dec (c_topic c) topic); [congruence | apply app_nil_r]. }
    split; [exact Hnd|]. split; [|split].
    + intros topic It. rewrite (Hs topic It). now apply Hts.
    + intros topic It Ha. apply asked_snoc in Ha.
      destruct Ha as [Ha|E]; [now apply Hask | congruence].
    + intros topic ts G. rewrite Hs; [now apply Havg|].
      destruct Hown as [H1 _]. apply H1. apply get_In in G.
      change topic with (fst (topic, ts)). now apply in_map.
  - rewrite step_own by assumption. now apply timeLog_stepOwn.
Qed.

Lemma timeLog_run calls : timeLog calls (run calls).
Proof.
  induction calls as [|c calls IH] using rev_ind.
  - apply timeLog_new.
  - rewrite run_snoc. apply timeLog_step; [apply ownKeys_run | exact IH].
Qed.

Lemma sumTimes_sumFrom l acc : fold_left add l acc = sumFrom acc l.
Proof.
  revert acc. induction l as [|t l IH]; intros acc; simpl; [reflexivity|].
  apply IH.
Qed.

(** The average of samples, of which there is one at least, is their
    mean. *)
Lemma calculateAverageTime_mean l :
  l <> [] -> calculateAverageTime l = VString (toFixed2 (mean l)).
Proof.
  intros H. unfold calculateAverageTime, mean, sumTimes.
  rewrite sumTimes_sumFrom. destruct l; [congruence | reflexivity].
Qed.

(** Reading a map built entry by entry from another one. *)
Lemma get_fold_set {V W : Type} (f : V -> W) (o : obj V) :
  NoDup (keys o) ->
  forall (acc : obj W) (k : jsstring),
    get k (fold_left (fun acc (e : jsstring * V) =>
                        let (k', v) := e in set k' (f v) acc) o acc) =
    match get k o with Some v => Some (f v) | None => get k acc end.
Proof.
  induction o as [|[k0 v0] o IH]; intros Hnd acc k; simpl; [reflexivity|].
  inversion Hnd as [|? ? Hnotin Hnd']; subst.
  rewrite IH by assumption. destruct (str_dec k k0) as [->|Hne].
  - apply get_None_keys in Hnotin. rewrite Hnotin. apply get_set_same.
  - destruct (get k o); [reflexivity|]. now apply get_set_other.
Qed.

Lemma isDigit_digit z : (0 <= z < 10)%Z -> isDigit (digit z).
Proof.
  intros H. unfold isDigit, digit. lia.
Qed.

Lemma uint_digits d :
  Forall isDigit (js (NilEmpty.string_of_uint d)).
Proof.
  induction d; simpl; constructor; try exact IHd;
    unfold isDigit; cbn; lia.
Qed.

Lemma uint_digits_zero d :
  Forall isDigit (js (NilZero.string_of_uint d)) /\
  js (NilZero.string_of_uint d) <> [].
Proof.
  destruct d; simpl; (split; [|discriminate]);
    try (constructor; [unfold isDigit; cbn; lia|]);
    try apply uint_digits; constructor.
Qed.

Lemma decimal_digits n :
  Forall isDigit (decimal n) /\ decimal n <> [].
Proof. apply uint_digits_zero. Qed.

(** A number written in fixed notation has two decimals. *)
Lemma toFixed2_twoDecimals x :
  ordinary x -> twoDecimals (render (toFixed2 x)).
Proof.
  intros (q & -> & Hq). unfold toFixed2.
  assert (Hs : Qle_bool (inject_Z (10 ^ 21)) (Qabs q) = false).
  { destruct (Qle_bool _ _) eqn:T; [|reflexivity].
    apply Qle_bool_iff in T. exfalso. lra. }
  rewrite Hs. unfold render.
  set (h := Qfloor (Qabs q * 100 + (1 # 2))).
  exists (if (Qnum q <? 0)%Z then js "-" else []),
         (decimal (h / 100)),
         (digit ((h / 10) mod 10)), (digit (h mod 10)).
  split; [reflexivity|]. split; [destruct (Qnum q <? 0)%Z; auto|].
  destruct (decimal_digits (h / 100)) as [Hd Hne].
  repeat split; try assumption.
  - apply (proj1 (isDigit_digit _ (Z.mod_pos_bound (h / 10) 10 ltac:(lia)))).
  - apply (proj2 (isDigit_digit _ (Z.mod_pos_bound (h / 10) 10 ltac:(lia)))).
  - apply (proj1 (isDigit_digit _ (Z.mod_pos_bound h 10 ltac:(lia)))).
  - apply (proj2 (isDigit_digit _ (Z.mod_pos_bound h 10 ltac:(lia)))).
Qed.

(** The entry of the report for a topic of the agent. *)
Lemma report_topic a topic ts :
  NoDup (keys (topicPerformance a)) ->
  get topic (topicPerformance a) = Some ts ->
  get topic (topicWise (getPerformanceReport a)) =
  Some {| tr_correct := t_correct ts; tr_total := t_total ts;
          tr_percentage := percentage (t_correct ts) (t_total ts);
          tr_weakAreas := t_weakAreas ts;
          tr_averageTime := averageTime ts |}.
Proof.
  intros Hnd G. unfold getPerformanceReport. cbn [topicWise].
  rewrite (get_fold_set
             (fun stats =>
                {| tr_correct := t_correct stats; tr_total := t_total stats;
                   tr_percentage :=
                     percentage (t_correct stats) (t_total stats);
                   tr_weakAreas := t_weakAreas stats;
                   tr_averageTime := averageTime stats |})
             _ Hnd).
  now rewrite G.
Qed.




(** ** The report of a new agent *)

(** C5 (evaluation of the code).  For an agent without recorded answer the
    report is built, its overall total is 0, and its overall percentage is
    the text ["NaN"], the unguarded outcome of [0 / 0]; whereas
    [calculateAverageTime] returns the number 0 for an empty list of
    samples. *)
Theorem C5_empty_report_percentage_NaN :
  getPerformanceReport newAgent =
    {| overall := {| p_correct := 0; p_total := 0; p_percentage := FxNaN |};
       topicWise := []; rep_conceptMastery := []; rep_weakAreas := [];
       timeAnalysis := []; recommendedFocus := [] |} /\
  render (p_percentage (overall (getPerformanceReport newAgent))) = js "NaN" /\
  calculateAverageTime [] = VNumber 0.
Proof. repeat split. Qed.

(** ** Splitting and joining *)

Lemma startsWith_app p s : startsWith p (p ++ s) = true.
Proof.
  induction p as [|a p IH]; simpl; [reflexivity|].
  now rewrite N.eqb_refl.
Qed.

Lemma startsWith_inv p s : startsWith p s = true -> exists r, s = p ++ r.
Proof.
  revert s. induction p as [|a p IH]; intros s; simpl.
  - intros _. now exists s.
  - destruct s as [|b s]; [discriminate|].
    intros H. apply andb_true_iff in H. destruct H as [E H].
    apply N.eqb_eq in E. subst b. destruct (IH _ H) as (r & ->).
    now exists r.
Qed.

(** A match on [t ++ u] lies within [t] or runs over its end. *)
Lemma startsWith_over d t u :
  startsWith d (t ++ u) = true ->
  startsWith d t = true \/
  (List.length t < List.length d /\
   startsWith (skipn (List.length t) d) u = true).
Proof.
  revert t. induction d as [|a d IH]; intros t; simpl.
  - now left.
  - destruct t as [|b t]; simpl.
    + intros H. right. split; [lia | exact H].
    + intros H. apply andb_true_iff in H. destruct H as [E H].
      destruct (IH _ H) as [H'|[Hl H']].
      * left. now rewrite E.
      * right. split; [lia | exact H'].
Qed.

Lemma startsWith_short p d r :
  List.length p <= List.length d ->
  startsWith p (d ++ r) = startsWith p d.
Proof.
  revert d. induction p as [|a p IH]; intros d H; simpl; [reflexivity|].
  destruct d as [|b d]; simpl in *; [lia|].
  rewrite IH by lia. reflexivity.
Qed.

(** Skipping the rest of a separator. *)
Lemma split_from_skip d x cur s :
  split_from d (List.length x) cur (x ++ s) = split_from d 0 cur s.
Proof.
  induction x as [|c x IH]; simpl; [|exact IH].
  destruct s; reflexivity.
Qed.

Lemma split_from_pass d a rest cur :
  startsNowhere d a rest ->
  split_from d 0 cur (a ++ rest) = split_from d 0 (rev a ++ cur) rest.
Proof.
  revert cur. induction a as [|c a IH]; intros cur; simpl; [reflexivity|].
  intros [H1 H2]. cbn [app] in H1. rewrite H1.
  rewrite IH by assumption. now rewrite <- app_assoc.
Qed.

Lemma split_from_end d a cur :
  startsNowhere d a [] -> split_from d 0 cur a = [rev cur ++ a].
Proof.
  intros H. rewrite <- (app_nil_r a) at 1. rewrite split_from_pass by assumption.
  simpl. now rewrite rev_app_distr, rev_involutive.
Qed.

Lemma split_from_sep d a s cur :
  d <> [] -> startsNowhere d a (d ++ s) ->
  split_from d 0 cur (a ++ d ++ s) = (rev cur ++ a) :: split_from d 0 [] s.
Proof.
  intros Hd H. rewrite split_from_pass by assumption.
  destruct d as [|c d]; [congruence|].
  cbn [app split_from].
  change (c :: d ++ s) with ((c :: d) ++ s). rewrite startsWith_app.
  cbn [List.length pred]. rewrite split_from_skip.
  now rewrite rev_app_distr, rev_involutive.
Qed.

Lemma split_from_nonempty d k cur s : split_from d k cur s <> [].
Proof.
  revert k cur. induction s as [|c s IH]; intros k cur; simpl; [discriminate|].
  destruct k; [|apply IH]. destruct (startsWith d (c :: s)); [discriminate|apply IH].
Qed.

(** One-character separators. *)
Lemma startsNowhere_char c a rest :
  ~ In c a -> startsNowhere [c] a rest.
Proof.
  induction a as [|x a IH]; simpl; [trivial|].
  intros H. split.
  - rewrite andb_true_r. apply N.eqb_neq. intros E. apply H. now left.
  - apply IH. intros H'. apply H. now right.
Qed.

Lemma split_char_sep c a s :
  ~ In c a -> split [c] (a ++ c :: s) = a :: split [c] s.
Proof.
  intros H. unfold split.
  change (a ++ c :: s) with (a ++ [c] ++ s).
  rewrite split_from_sep; [reflexivity | discriminate |].
  now apply startsNowhere_char.
Qed.

Lemma split_char_end c a : ~ In c a -> split [c] a = [a].
Proof.
  intros H. unfold split. rewrite split_from_end; [reflexivity|].
  now apply startsNowhere_char.
Qed.

(** Splitting undoes joining. *)
Lemma split_join_char c ts :
  ts <> [] -> Forall (fun t => ~ In c t) ts ->
  split [c] (join [c] ts) = ts.
Proof.
  induction ts as [|t ts IH]; [congruence|]. intros _ H.
  inversion H as [|? ? Ht Hts]; subst.
  destruct ts as [|t2 ts].
  - simpl. now apply split_char_end.
  - change (join [c] (t :: t2 :: ts)) with (t ++ c :: join [c] (t2 :: ts)).
    rewrite split_char_sep by assumption. f_equal. apply IH; [discriminate|assumption].
Qed.

(** Joining undoes splitting, and the pieces are free of the separator. *)
Lemma split_from_char_step c cur x s :
  split_from [c] 0 cur (x :: s) =
  if N.eqb c x then rev cur :: split_from [c] 0 [] s
  else split_from [c] 0 (x :: cur) s.
Proof. simpl. now rewrite andb_true_r. Qed.

Lemma join_cons_app sep p ps :
  ps <> [] -> join sep (p :: ps) = p ++ sep ++ join sep ps.
Proof. destruct ps; [congruence | reflexivity]. Qed.

Lemma join_split_from c s cur :
  join [c] (split_from [c] 0 cur s) = rev cur ++ s.
Proof.
  revert cur. induction s as [|x s IH]; intros cur.
  - simpl. now rewrite app_nil_r.
  - rewrite split_from_char_step. destruct (N.eqb_spec c x) as [<-|Hne].
    + rewrite join_cons_app by apply split_from_nonempty.
      rewrite IH. reflexivity.
    + rewrite IH. simpl. now rewrite <- app_assoc.
Qed.

Lemma join_split_char c s : join [c] (split [c] s) = s.
Proof. unfold split. now rewrite join_split_from. Qed.

Lemma split_from_pieces c s cur :
  ~ In c cur ->
  Forall (fun t => ~ In c t /\ incl t (rev cur ++ s)) (split_from [c] 0 cur s).
Proof.
  revert cur. induction s as [|x s IH]; intros cur Hcur.
  - simpl. constructor; [|constructor]. split.
    + now rewrite <- in_rev.
    + rewrite app_nil_r. apply incl_refl.
  - rewrite split_from_char_step. destruct (N.eqb_spec c x) as [<-|Hne].
    + constructor.
      * split; [now rewrite <- in_rev | now apply incl_appl, incl_refl].
      * eapply Forall_impl; [|apply (IH []); intros []].
        simpl. intros t [H1 H2]. split; [exact H1|].
        apply incl_appr. now apply incl_tl.
    + eapply Forall_impl; [|apply (IH (x :: cur))].
      * simpl. intros t [H1 H2]. split; [exact H1|].
        now rewrite <- app_assoc in H2.
      * intros [E|H]; [congruence | contradiction].
Qed.

Lemma split_pieces c s :
  Forall (fun t => ~ In c t /\ incl t s) (split [c] s).
Proof. apply (split_from_pieces c s []). intros []. Qed.

(** ** Trimming *)

Lemma blank_app a b : blank (a ++ b) = blank a && blank b.
Proof. apply forallb_app. Qed.

Lemma blank_rev a : blank (rev a) = blank a.
Proof.
  induction a as [|c a IH]; simpl; [reflexivity|].
  rewrite blank_app, IH. simpl. rewrite andb_true_r. apply andb_comm.
Qed.

Lemma trimStart_blank a s : blank a = true -> trimStart (a ++ s) = trimStart s.
Proof.
  induction a as [|c a IH]; simpl; [reflexivity|].
  intros H. apply andb_true_iff in H. destruct H as [-> H]. now apply IH.
Qed.

Lemma trimStart_nonblank s :
  blank s = false ->
  exists c r, trimStart s = c :: r /\ is_ws c = false /\ incl (c :: r) s.
Proof.
  induction s as [|c s IH]; simpl; [discriminate|].
  destruct (is_ws c) eqn:E; simpl.
  - intros H. destruct (IH H) as (c' & r & -> & H1 & H2).
    exists c', r. repeat split; auto. now apply incl_tl.
  - intros _. exists c, s. repeat split; auto. apply incl_refl.
Qed.

Lemma blank_false_iff s :
  blank s = false <-> exists c, In c s /\ is_ws c = false.
Proof.
  unfold blank. split.
  - intros H. induction s as [|c s IH]; simpl in *; [discriminate|].
    destruct (is_ws c) eqn:E.
    + destruct (IH H) as (c' & Hin & Hc'). exists c'. auto.
    + exists c. auto.
  - intros (c & Hin & Hc). destruct (forallb is_ws s) eqn:E; [|reflexivity].
    rewrite forallb_forall in E. rewrite (E c Hin) in Hc. discriminate.
Qed.

Lemma truthy_trim s : truthy (trim s) = negb (blank s).
Proof.
  unfold trim, trimEnd. destruct (blank s) eqn:B; simpl.
  - rewrite <- (app_nil_r s), trimStart_blank by assumption. reflexivity.
  - destruct (trimStart_nonblank s B) as (c & r & -> & Hc & _).
    assert (B' : blank (rev (c :: r)) = false).
    { rewrite blank_rev. simpl. now rewrite Hc. }
    destruct (trimStart_nonblank _ B') as (c' & r' & -> & _).
    simpl. now destruct (rev r').
Qed.

Lemma trim_single w1 c w2 :
  blank w1 = true -> blank w2 = true -> is_ws c = false ->
  trim (w1 ++ c :: w2) = [c].
Proof.
  intros H1 H2 Hc. unfold trim, trimEnd.
  rewrite trimStart_blank by assumption. simpl. rewrite Hc.
  simpl. rewrite trimStart_blank by now rewrite blank_rev.
  simpl. now rewrite Hc.
Qed.

(** ** Concept extraction *)

Lemma extractConcepts_fold q :
  extractConcepts q =
  fold_left (addIf (includes technicalTerms))
    (split [space] (toLowerCase q)) [].
Proof. reflexivity. Qed.

(** C4 (amended).  [extractConcepts] lower-cases the text and cuts it at
    the space characters only: when the lower-cased text is a sequence of
    space-free tokens joined by single spaces, the result holds exactly the
    vocabulary terms that are among these tokens, each once.  A term is not
    found inside a longer token, and neither when a line feed or a tab is
    what separates it from its neighbours. *)
Theorem C4_concepts_space_tokens :
  forall (questionText : jsstring) (tokens : list jsstring),
    tokens <> [] ->
    Forall (fun t => ~ In space t) tokens ->
    toLowerCase questionText = join [space] tokens ->
    (forall w, In w (extractConcepts questionText) <->
               In w technicalTerms /\ In w tokens) /\
    NoDup (extractConcepts questionText).
Proof.
  intros q tokens Hne Hfree Hjoin.
  rewrite extractConcepts_fold, Hjoin, split_join_char by assumption.
  split.
  - intros w. rewrite In_fold_addIf, includes_In. simpl. tauto.
  - apply NoDup_fold_addIf. constructor.
Qed.

Lemma C4_witness :
  In (js "array") (extractConcepts (js "What is an Array")).
Proof.
  apply (proj1 (C4_concepts_space_tokens (js "What is an Array")
                  [js "what"; js "is"; js "an"; js "array"]
                  ltac:(discriminate)
                  ltac:(repeat constructor; vm_compute; intuition discriminate)
                  eq_refl)).
  split; vm_compute; tauto.
Defined.

(** C4 as stated fails: with a line feed before and a tab after it, the
    word [array] is a token for the specification, and is not found by the
    code, which returns the empty set. *)
Lemma C4_counterexample :
  let q := js "an" ++ [nl] ++ js "array" ++ [tab] ++ js "sorted" in
  tagConcepts_spec q = [js "array"] /\
  extractConcepts q = [] /\
  ~ (forall w, In w (extractConcepts q) <-> In w (tagConcepts_spec q)).
Proof.
  split; [reflexivity|]. split; [reflexivity|].
  intros H. apply (proj2 (H (js "array"))). vm_compute. now left.
Qed.

(** ** Parsing never throws *)

Lemma In_join x sep ps :
  In x (join sep ps) -> In x sep \/ exists t, In t ps /\ In x t.
Proof.
  induction ps as [|p ps IH]; simpl; [intros []|].
  destruct ps as [|p2 ps].
  - intros H. right. exists p. auto.
  - rewrite !in_app_iff. intros [H|[H|H]].
    + right. exists p. auto.
    + now left.
    + destruct (IH H) as [H'|(t & Ht & Hx)]; [now left|].
      right. exists t. auto.
Qed.

(** A block that is not blank has a line that is not blank. *)
Lemma blockLines_nonempty block :
  blank block = false -> blockLines block <> [].
Proof.
  intros B. apply blank_false_iff in B. destruct B as (c & Hin & Hc).
  rewrite <- (join_split_char nl block) in Hin.
  apply In_join in Hin. destruct Hin as [[<-|[]]|(t & Ht & Hx)];
    [discriminate|].
  assert (Hf : In t (blockLines block)).
  { unfold blockLines. apply filter_In. split; [exact Ht|].
    rewrite truthy_trim. apply negb_true_iff, blank_false_iff. now exists c. }
  intros E. rewrite E in Hf. destruct Hf.
Qed.

(** The line found by [correctOf] has a piece after its first colon. *)
Lemma split_colon_Correct line :
  startsWith (js "Correct:") line = true ->
  exists rest, line = js "Correct:" ++ rest /\
               split [colon] line = js "Correct" :: split [colon] rest.
Proof.
  intros H. apply startsWith_inv in H. destruct H as (rest & ->).
  exists rest. split; [reflexivity|].
  change (js "Correct:" ++ rest) with (js "Correct" ++ colon :: rest).
  apply split_char_sep. vm_compute. intuition discriminate.
Qed.

Lemma correctOf_total lines : exists c, correctOf lines = Ok c.
Proof.
  unfold correctOf.
  destruct (find (startsWith (js "Correct:")) lines) as [line|] eqn:F;
    [|now exists None].
  apply find_some in F. destruct F as [_ F].
  destruct (split_colon_Correct line F) as (rest & _ & ->).
  destruct (split [colon] rest) as [|piece ps] eqn:S.
  - exfalso. revert S. apply split_from_nonempty.
  - simpl. now exists (Some (trim piece)).
Qed.

Lemma parseMcqBlock_total block :
  blank block = false ->
  exists question options correct,
    parseMcqBlock block = Ok (MCQ question options correct).
Proof.
  intros B. unfold parseMcqBlock.
  destruct (blockLines block) as [|line0 lines] eqn:L.
  - exfalso. revert L. now apply blockLines_nonempty.
  - cbn [nth_error]. destruct (correctOf_total (line0 :: lines)) as (c & ->).
    simpl. eauto.
Qed.

Lemma parseTheoryBlock_total block :
  exists question modelAnswer,
    parseTheoryBlock block = Ok (Theory question modelAnswer).
Proof.
  unfold parseTheoryBlock.
  destruct (split (js "Model Answer:") block) as [|q parts] eqn:S.
  - exfalso. revert S. apply split_from_nonempty.
  - eauto.
Qed.

Lemma forBlocks_total body blocks :
  (forall b, In b blocks -> exists q, body b = Ok q) ->
  exists qs, forBlocks body blocks = Ok qs /\
             List.length qs = List.length blocks.
Proof.
  induction blocks as [|b blocks IH]; intros H; simpl.
  - now exists [].
  - destruct (H b (or_introl eq_refl)) as (q & ->).
    destruct IH as (qs & -> & Hl); [intros b' Hb'; apply H; now right|].
    simpl. exists (q :: qs). split; [reflexivity | simpl; now rewrite Hl].
Qed.

Lemma questionBlocks_nonblank content b :
  In b (questionBlocks content) -> blank b = false.
Proof.
  unfold questionBlocks. intros H. apply filter_In in H. destruct H as [_ H].
  rewrite truthy_trim in H. now apply negb_true_iff.
Qed.

Lemma forBlocks_each body blocks qs :
  forBlocks body blocks = Ok qs ->
  Forall2 (fun b q => body b = Ok q) blocks qs.
Proof.
  revert qs. induction blocks as [|b blocks IH]; intros qs; simpl.
  - intros [= <-]. constructor.
  - destruct (body b) as [q|] eqn:E; [|discriminate]. simpl.
    destruct (forBlocks body blocks) as [qs'|]; [|discriminate]. simpl.
    intros [= <-]. constructor; [exact E | now apply IH].
Qed.

Lemma parseMcqBlock_absent block q :
  parseMcqBlock block = Ok q ->
  exists question options correct,
    q = MCQ question options correct /\
    (find (startsWith (js "Correct:")) (blockLines block) = None ->
     correct = None).
Proof.
  unfold parseMcqBlock, correctOf.
  destruct (nth_error (blockLines block) 0) as [line0|]; [|discriminate].
  destruct (find (startsWith (js "Correct:")) (blockLines block)) as [line|].
  - destruct (nth_error (split [colon] line) 1); [|discriminate].
    simpl. intros [= <-]. do 3 eexists. split; [reflexivity | discriminate].
  - simpl. intros [= <-]. do 3 eexists. split; [reflexivity | reflexivity].
Qed.

(** C8.  The extraction is total on every text and for both kinds of
    questions: it returns a list and never throws; on the empty text the
    list is empty; the records answer the segments one by one, and the
    record of a segment without a line starting with [Correct:] has no
    [correct]. *)
Theorem C8_extraction_total :
  (forall type content : jsstring,
     exists qs, generateQuestions type content = Ok qs) /\
  (forall (qt : QuestionType) (content : jsstring),
     exists qs, parseQuestions qt content = Ok qs) /\
  (forall type : jsstring, generateQuestions type [] = Ok []) /\
  (forall (content : jsstring) (qs : list Question),
     generateQuestions (js "mcq") content = Ok qs ->
     Forall2
       (fun block q =>
          exists question options correct,
            q = MCQ question options correct /\
            (find (startsWith (js "Correct:")) (blockLines block) = None ->
             correct = None))
       (questionBlocks content) qs).
Proof.
  assert (Htotal : forall (qt : QuestionType) (content : jsstring),
            exists qs, parseQuestions qt content = Ok qs).
  { intros qt content. destruct qt; simpl.
    + destruct (forBlocks_total parseMcqBlock (questionBlocks content))
        as (qs & E & _); [|now exists qs].
      intros b Hb. apply questionBlocks_nonblank in Hb.
      destruct (parseMcqBlock_total b Hb) as (q & o & c & ->). eauto.
    + destruct (forBlocks_total parseTheoryBlock (questionBlocks content))
        as (qs & E & _); [|now exists qs].
      intros b _. destruct (parseTheoryBlock_total b) as (q & m & ->). eauto. }
  split; [|split; [exact Htotal|split]].
  - intros type content. apply Htotal.
  - intros type. unfold generateQuestions. now destruct (questionType type).
  - intros content qs H.
    change (parseQuestions MultipleChoice content = Ok qs) in H.
    simpl in H. apply forBlocks_each in H.
    eapply Forall2_impl; [|exact H]. intros b q. apply parseMcqBlock_absent.
Qed.

Lemma C8_witness :
  Forall2
    (fun block q =>
       exists question options correct,
         q = MCQ question options correct /\
         (find (startsWith (js "Correct:")) (blockLines block) = None ->
          correct = None))
    (questionBlocks (js "Question: What is a loop?" ++ [nl] ++ js "A) one"))
    [MCQ (js "What is a loop?") [js "A) one"] None].
Proof.
  apply (proj2 (proj2 (proj2 C8_extraction_total))
           (js "Question: What is a loop?" ++ [nl] ++ js "A) one")).
  vm_compute. reflexivity.
Defined.

(** ** The marked answer *)

(** C3 (amended).  In a multiple-choice segment, [correct] is taken from
    the first non-empty line that starts with [Correct:]: it is the text
    between the first colon of that line and its second colon, or the end
    of the line when there is no second colon, trimmed. *)
Theorem C3_correct_between_colons :
  forall (block line x rest : jsstring),
    find (startsWith (js "Correct:")) (blockLines block) = Some line ->
    line = js "Correct:" ++ x ++ rest ->
    ~ In colon x ->
    (rest = [] \/ exists y, rest = colon :: y) ->
    exists question options,
      parseMcqBlock block = Ok (MCQ question options (Some (trim x))).
Proof.
  intros block line x rest F E Hx Hrest.
  assert (S : nth_error (split [colon] line) 1 = Some x).
  { destruct (split_colon_Correct line) as (r & Er & ->).
    - apply find_some in F. apply F.
    - rewrite E in Er. apply app_inv_head in Er. subst r.
      destruct Hrest as [->|(y & ->)].
      + rewrite app_nil_r, split_char_end by assumption. reflexivity.
      + rewrite split_char_sep by assumption. reflexivity. }
  unfold parseMcqBlock.
  destruct (blockLines block) as [|line0 lines] eqn:L; [discriminate|].
  cbn [nth_error]. unfold correctOf. rewrite F, S. simpl. eauto.
Qed.

Lemma C3_witness :
  exists question options,
    parseMcqBlock C3_block = Ok (MCQ question options (Some (trim (js " B")))).
Proof.
  apply (C3_correct_between_colons C3_block
           (js "Correct: B: it returns the new length")
           (js " B") (js ": it returns the new length")).
  - vm_compute. reflexivity.
  - reflexivity.
  - vm_compute. intuition discriminate.
  - right. eexists. reflexivity.
Defined.

(** C3 as stated fails: on a line with a second colon the code keeps what
    comes before that colon, not the whole text after the first one. *)
Lemma C3_counterexample :
  exists question options label line,
    parseMcqBlock C3_block = Ok (MCQ question options (Some label)) /\
    find (startsWith (js "Correct:")) (blockLines C3_block) = Some line /\
    label = js "B" /\
    trim (afterFirstColon line) = js "B: it returns the new length" /\
    label <> trim (afterFirstColon line).
Proof.
  do 4 eexists. split; [vm_compute; reflexivity|].
  split; [vm_compute; reflexivity|].
  split; [reflexivity|]. split; [vm_compute; reflexivity|].
  vm_compute. discriminate.
Qed.

(** ** Well-formed multiple-choice texts *)

(** No proper suffix of the question mark starts it again. *)
Lemma questionMark_borderless k :
  0 < k < List.length questionMark ->
  startsWith (skipn k questionMark) questionMark = false.
Proof.
  intros [H1 H2].
  do 10 (destruct k as [|k]; [try lia; reflexivity|]).
  simpl in H2. lia.
Qed.

Lemma occurs_false_end d a : occurs d a = false -> startsNowhere d a [].
Proof.
  induction a as [|x a IH]; simpl; [trivial|].
  intros H. apply orb_false_iff in H. destruct H as [H1 H2].
  split; [now rewrite app_nil_r | now apply IH].
Qed.

Lemma occurs_false_before a rest :
  occurs questionMark a = false ->
  startsNowhere questionMark a (questionMark ++ rest).
Proof.
  induction a as [|x a IH]; [simpl; trivial|].
  intros H. cbn [occurs] in H. apply orb_false_iff in H. destruct H as [H1 H2].
  split; [|now apply IH].
  destruct (startsWith questionMark ((x :: a) ++ questionMark ++ rest)) eqn:S;
    [|reflexivity].
  apply startsWith_over in S. destruct S as [S|[Hl S]]; [congruence|].
  rewrite startsWith_short in S.
  - rewrite questionMark_borderless in S; [discriminate|]. simpl in *. lia.
  - rewrite length_skipn. lia.
Qed.

Lemma split_rawText a qs :
  occurs questionMark a = false ->
  Forall (fun q => occurs questionMark (segment q) = false) qs ->
  split_from questionMark 0 [] (a ++ rawText qs) = a :: map segment qs.
Proof.
  revert a. induction qs as [|q qs IH]; intros a Ha Hqs.
  - simpl. rewrite app_nil_r. now apply split_from_end, occurs_false_end.
  - inversion Hqs as [|? ? Hq Hqs']; subst.
    change (rawText (q :: qs))
      with ((questionMark ++ segment q) ++ rawText qs).
    rewrite <- app_assoc. rewrite split_from_sep.
    + cbn [rev app map]. f_equal. now apply IH.
    + discriminate.
    + now apply occurs_false_before.
Qed.

Lemma filter_all {A} (f : A -> bool) l :
  Forall (fun x => f x = true) l -> filter f l = l.
Proof.
  induction 1 as [|x l Hx Hl IH]; simpl; [reflexivity|].
  now rewrite Hx, IH.
Qed.

Lemma filter_none {A} (f : A -> bool) l :
  Forall (fun x => f x = false) l -> filter f l = [].
Proof.
  induction 1 as [|x l Hx Hl IH]; simpl; [reflexivity|].
  now rewrite Hx.
Qed.

Lemma join_glue sep ls l w ws :
  join sep (ls ++ [l]) ++ join sep (w :: ws) =
  join sep (ls ++ (l ++ w) :: ws).
Proof.
  induction ls as [|x ls IH].
  - simpl. destruct ws; [reflexivity|]. now rewrite <- app_assoc.
  - change ((x :: ls) ++ [l]) with (x :: (ls ++ [l])).
    change ((x :: ls) ++ (l ++ w) :: ws) with (x :: (ls ++ (l ++ w) :: ws)).
    rewrite (join_cons_app sep x (ls ++ [l])) by (destruct ls; discriminate).
    rewrite (join_cons_app sep x (ls ++ (l ++ w) :: ws))
      by (destruct ls; discriminate).
    rewrite <- !app_assoc. now rewrite IH.
Qed.

Lemma blank_no_char s c : blank s = true -> is_ws c = false -> ~ In c s.
Proof.
  unfold blank. rewrite forallb_forall. intros H Hc Hin.
  rewrite (H c Hin) in Hc. discriminate.
Qed.

Lemma blank_incl s t : blank s = true -> incl t s -> blank t = true.
Proof.
  unfold blank. rewrite !forallb_forall. intros H Hi x Hx. apply H, Hi, Hx.
Qed.

Lemma label_facts l :
  In l answerLetters ->
  is_ws l = false /\ l <> nl /\ l <> colon.
Proof.
  intros [<-|[<-|[<-|[<-|[]]]]]; repeat split; discriminate.
Qed.

(** The lines kept for a well-formed segment: its six lines, the last one
    possibly followed by white space. *)
Lemma blockLines_segment q :
  wellFormed q ->
  exists w0,
    blank w0 = true /\
    blockLines (segment q) =
    [ src_text q; js "A) " ++ src_a q; js "B) " ++ src_b q;
      js "C) " ++ src_c q; js "D) " ++ src_d q;
      js "Correct: " ++ [src_label q] ++ w0 ].
Proof.
  intros (Ht & Ha & Hb & Hc & Hd & Hbl & Hst & Hl & Hsep & Hocc).
  destruct (label_facts _ Hl) as (Hl1 & Hl2 & Hl3).
  pose proof (split_pieces nl (src_sep q)) as Hp.
  pose proof (join_split_char nl (src_sep q)) as Hj.
  destruct (split [nl] (src_sep q)) as [|w0 ws] eqn:S.
  { exfalso. revert S. apply split_from_nonempty. }
  inversion Hp as [|? ? [Hw0 Hi0] Hws]; subst.
  exists w0. split; [now apply (blank_incl _ _ Hsep)|].
  unfold blockLines, segment. rewrite <- Hj.
  change (sourceLines q) with
    ([src_text q; js "A) " ++ src_a q; js "B) " ++ src_b q;
      js "C) " ++ src_c q; js "D) " ++ src_d q]
     ++ [js "Correct: " ++ [src_label q]]).
  rewrite join_glue. rewrite split_join_char.
  - cbn [app filter].
    rewrite !truthy_trim. rewrite Hbl.
    change (js "A) ") with (65 :: js ") ")%N.
    change (js "B) ") with (66 :: js ") ")%N.
    change (js "C) ") with (67 :: js ") ")%N.
    change (js "D) ") with (68 :: js ") ")%N.
    change (js "Correct: ") with (67 :: js "orrect: ")%N.
    cbn [negb blank forallb app].
    replace (is_ws 65%N) with false by reflexivity.
    replace (is_ws 66%N) with false by reflexivity.
    replace (is_ws 67%N) with false by reflexivity.
    replace (is_ws 68%N) with false by reflexivity.
    cbn [andb negb]. rewrite filter_none; [reflexivity|].
    eapply Forall_impl; [|exact Hws]. cbn beta. intros w [_ Hi].
    rewrite truthy_trim. apply negb_false_iff. now apply (blank_incl _ _ Hsep).
  - discriminate.
  - repeat constructor; try assumption;
      try (cbn; intuition (try discriminate; auto; fail)).
    eapply Forall_impl; [|exact Hws]. cbn beta. tauto.
Qed.

Lemma find_Correct_segment q w0 :
  startsWith (js "Correct:") (src_text q) = false ->
  find (startsWith (js "Correct:"))
    [ src_text q; js "A) " ++ src_a q; js "B) " ++ src_b q;
      js "C) " ++ src_c q; js "D) " ++ src_d q;
      js "Correct: " ++ [src_label q] ++ w0 ] =
  Some (js "Correct: " ++ [src_label q] ++ w0).
Proof. intros H. cbn [find]. rewrite H. reflexivity. Qed.

Lemma parseMcqBlock_segment q :
  wellFormed q -> parseMcqBlock (segment q) = Ok (expected q).
Proof.
  intros Hwf. destruct (blockLines_segment q Hwf) as (w0 & Hw0 & L).
  destruct Hwf as (Ht & Ha & Hb & Hc & Hd & Hbl & Hst & Hl & Hsep & Hocc).
  destruct (label_facts _ Hl) as (Hl1 & Hl2 & Hl3).
  unfold parseMcqBlock. rewrite L. cbn [nth_error].
  unfold correctOf. rewrite find_Correct_segment by assumption.
  change (js "Correct: " ++ [src_label q] ++ w0)
    with (js "Correct" ++ colon :: (space :: src_label q :: w0)).
  rewrite split_char_sep by (vm_compute; intuition discriminate).
  rewrite split_char_end.
  - cbn [nth_error bind]. unfold expected, slice_1_5. cbn [skipn firstn map].
    do 3 f_equal.
    apply (trim_single [space] (src_label q) w0); auto.
  - intros [E|[E|H]].
    + discriminate.
    + now apply Hl3.
    + revert H. now apply blank_no_char.
Qed.

Lemma segment_nonblank q : wellFormed q -> blank (segment q) = false.
Proof.
  intros (_ & _ & _ & _ & _ & Hbl & _).
  unfold segment, sourceLines. cbn [join].
  now rewrite !blank_app, Hbl.
Qed.

Lemma forBlocks_map body (f : McqSource -> Question) g qs :
  (forall q, In q qs -> body (g q) = Ok (f q)) ->
  forBlocks body (map g qs) = Ok (map f qs).
Proof.
  induction qs as [|q qs IH]; intros H; simpl; [reflexivity|].
  rewrite (H q) by now left. simpl. rewrite IH; [reflexivity|].
  intros q' Hq'. apply H. now right.
Qed.

Lemma blank_no_questionMark pre :
  blank pre = true -> occurs questionMark pre = false.
Proof.
  induction pre as [|x pre IH]; [reflexivity|].
  intros H. cbn [blank forallb] in H. apply andb_true_iff in H.
  destruct H as [Hx H]. cbn [occurs]. rewrite (IH H), orb_false_r.
  change questionMark with (81 :: js "uestion: ")%N. cbn [startsWith].
  destruct (N.eqb_spec 81 x) as [<-|]; [discriminate | reflexivity].
Qed.

(** C7 (amended).  For a multiple-choice text of [N] questions, each
    segment made of a question line, four option lines and a line
    [Correct: X] with [X]
    among A, B, C and D, where nothing but white space comes before the
    first question and after each segment, no question line starts with
    [Correct:] and no segment holds a further [Question: ], the extraction
    returns exactly [N] records, in the order of the text, each with four
    options and with the letter of the segment as [correct]. *)
Theorem C7_wellformed_mcq :
  forall (pre : jsstring) (qs : list McqSource),
    blank pre = true ->
    Forall wellFormed qs ->
    exists records,
      generateQuestions (js "mcq") (pre ++ rawText qs) = Ok records /\
      List.length records = List.length qs /\
      records = map expected qs /\
      Forall
        (fun r =>
           exists question options label,
             r = MCQ question options (Some [label]) /\
             List.length options = 4 /\ In label answerLetters)
        records.
Proof.
  intros pre qs Hpre Hwf. exists (map expected qs).
  rewrite Forall_forall in Hwf.
  split; [|split; [apply length_map|split; [reflexivity|]]].
  - change (generateQuestions (js "mcq") (pre ++ rawText qs))
      with (parseQuestions MultipleChoice (pre ++ rawText qs)).
    cbn [parseQuestions]. unfold questionBlocks.
    fold questionMark. unfold split.
    rewrite split_rawText.
    + cbn [filter]. rewrite truthy_trim, Hpre. cbn [negb].
      rewrite filter_all.
      * apply forBlocks_map. intros q Hq. now apply parseMcqBlock_segment, Hwf.
      * apply Forall_forall. intros b Hb. apply in_map_iff in Hb.
        destruct Hb as (q & <- & Hq). rewrite truthy_trim.
        now rewrite segment_nonblank by now apply Hwf.
    + now apply blank_no_questionMark.
    + apply Forall_forall. intros q Hq. now apply Hwf.
  - apply Forall_forall. intros r Hr. apply in_map_iff in Hr.
    destruct Hr as (q & <- & Hq). unfold expected. do 3 eexists.
    split; [reflexivity|]. split; [reflexivity|]. now apply Hwf.
Qed.

(** C7, two counterexamples to the statement without these conditions.  A
    segment whose question line starts with [Correct:] gives a record whose
    [correct] is taken from the question line and is none of the four
    letters; and a line before the first question gives a record of its
    own, so that two questions give three records. *)
Lemma C7_counterexample :
  (generateQuestions (js "mcq") (rawText [exTrick]) =
   Ok [ MCQ (js "Correct: true or false? NaN equals NaN.")
            [js "A) true"; js "B) false"; js "C) it depends";
             js "D) it throws"]
            (Some (js "true or false? NaN equals NaN.")) ] /\
   In (src_label exTrick) answerLetters /\
   ~ In (js "true or false? NaN equals NaN.")
        (map (fun l => [l]) answerLetters)) /\
  (exists records,
     generateQuestions (js "mcq") (exPreamble ++ rawText exSources) =
     Ok records /\
     List.length exSources = 2 /\ List.length records = 3).
Proof.
  split.
  - split; [vm_compute; reflexivity|]. split; [vm_compute; auto|].
    vm_compute. intuition discriminate.
  - eexists. split; [vm_compute; reflexivity|]. split; reflexivity.
Qed.

(** ** The properties on sample inputs *)


Lemma C6_witness :
  correct {| correct := 1; total := 2 |} <= total {| correct := 1; total := 2 |}.
Proof.
  apply (proj2 (proj2 (C6_correct_le_total [exWrong; exRight])) exFunction).
  vm_compute. now left.
Defined.

Lemma C9_witness :
  exists s, get exFunction (conceptMastery (run [exWrong; exRight])) = Some s /\
            1 <= total s.
Proof.
  apply (proj1 (C9_weak_areas_tracked [exWrong; exRight])).
  vm_compute. now left.
Defined.


Lemma C7_witness :
  exists records,
    generateQuestions (js "mcq") ([nl] ++ rawText exSources) = Ok records /\
    List.length records = List.length exSources /\
    records = map expected exSources /\
    Forall
      (fun r =>
         exists question options label,
           r = MCQ question options (Some [label]) /\
           List.length options = 4 /\ In label answerLetters)
      records.
Proof.
  apply (C7_wellformed_mcq [nl] exSources); [reflexivity|].
  constructor; [|constructor; [|constructor]];
    (repeat split;
     [ vm_compute; intuition discriminate
     | vm_compute; intuition discriminate
     | vm_compute; intuition discriminate
     | vm_compute; intuition discriminate
     | vm_compute; intuition discriminate
     | vm_compute; auto 10 ]).
Defined.

(** The scenarios of the specification. *)
Example scenario_function_weak :
  let a := run [exWrong; exWrong; exWrong] in
  get exFunction (conceptMastery a) = Some {| correct := 0; total := 3 |} /\
  weakAreas a = [exFunction].
Proof. vm_compute. split; reflexivity. Qed.

Example scenario_two_thirds :
  render (percentage 2 3) = js "66.67".
Proof. vm_compute. reflexivity. Qed.

Example scenario_raw_text :
  generateQuestions (js "mcq") (rawText exSources) =
  Ok [ MCQ (js "What does push return?")
           [js "A) the array"; js "B) the new length"; js "C) nothing";
            js "D) the item"]
           (Some (js "B"));
       MCQ (js "Which keyword declares a constant?")
           [js "A) var"; js "B) let"; js "C) const"; js "D) static"]
           (Some (js "C")) ].
Proof. vm_compute. reflexivity. Qed.

(** White space outside ASCII is trimmed, and a no-break space after
    [Correct:] is no part of the label. *)
Example trim_unicode :
  trim ([160; 65279] ++ js "B" ++ [8232; 12288; 10])%N = js "B".
Proof. vm_compute. reflexivity. Qed.

Example label_after_no_break_space :
  correctOf [js "Correct:" ++ [160%N] ++ js "B"] = Ok (Some (js "B")).
Proof. vm_compute. reflexivity. Qed.

(** The Kelvin sign is lower-cased to [k]. *)
Example skip_with_kelvin_sign : isSkip [115; 8490; 105; 112]%N = true.
Proof. vm_compute. reflexivity. Qed.

(** Doubles: 23 of 160 is shown as 14.37, for the quotient is rounded
    before it is multiplied; thirty-nine samples of 1 and one of 2 average
    to 1.02. *)
Example percentage_23_of_160 : render (percentage 23 160) = js "14.37".
Proof. vm_compute. reflexivity. Qed.

Example average_of_forty :
  calculateAverageTime (repeat (Finite 1) 39 ++ [Finite 2]) =
  VString (Fx false 102).
Proof. vm_compute. reflexivity. Qed.

(** Keys that are array indices are listed first, in ascending order. *)
Example keys_order :
  keys (set (js "2") 4 (set (js "10") 3 (set (js "b") 2 (set (js "a") 1 []))))
  = [js "2"; js "10"; js "a"; js "b"].
Proof. vm_compute. reflexivity. Qed.

(** * Further properties *)

(** ** Counters and history follow the calls *)

Lemma trackOwn_questionHistory a topic question ic ev tt now :
  questionHistory (trackOwn a topic question ic ev tt now) =
  questionHistory a ++
  [ {| h_topic := topic; h_question := question; h_isCorrect := ic;
       h_evaluation := ev; h_timeTaken := tt;
       h_concepts := extractConcepts question; h_timestamp := now |} ].
Proof. reflexivity. Qed.

Lemma correctIn_snoc calls c :
  correctIn (calls ++ [c]) =
  if c_isCorrect c then S (correctIn calls) else correctIn calls.
Proof.
  unfold correctIn. rewrite filter_app, length_app. simpl.
  destruct (c_isCorrect c); simpl; lia.
Qed.

Lemma truthyTime_sample tt :
  match truthyTime tt with Some _ => true | None => false end = isSample tt.
Proof.
  rewrite truthyTime_isSample. destruct tt as [t|]; [|reflexivity].
  now destruct (isSample (Some t)).
Qed.

(** How a call ends, in a state that calls reach. *)
Lemma step_outcome a c :
  ownKeys a ->
  exists a',
    trackAnswer a (c_topic c) (c_question c) (c_isCorrect c)
      (c_evaluation c) (c_timeTaken c) (c_now c) =
    (if throws c then Threw a' else Returned a') /\
    questionHistory a' =
    questionHistory a ++ (if throws c then [] else [entryOf c]) /\
    conceptMastery a' =
    fold_left (countIn (c_isCorrect c)) (countedBy c) (conceptMastery a).
Proof.
  intros [H1 H2]. unfold throws, countedBy.
  destruct (inherited (c_topic c)) eqn:I.
  - rewrite trackAnswer_inherited; auto using get_ownKeys_None.
    unfold trackInherited. rewrite <- truthyTime_sample.
    destruct (truthyTime (c_timeTaken c)) as [t|].
    + eexists. repeat split. cbn. now rewrite app_nil_r.
    + destruct (extractConcepts (c_question c)) as [|x l] eqn:E.
      * eexists. repeat split. cbn. unfold entryOf. now rewrite E.
      * eexists. repeat split. cbn. now rewrite app_nil_r.
  - rewrite trackAnswer_own by assumption. eexists. repeat split.
Qed.

Lemma step_conceptMastery a c :
  ownKeys a ->
  conceptMastery (step a c) =
  fold_left (countIn (c_isCorrect c)) (countedBy c) (conceptMastery a).
Proof.
  intros H. destruct (step_outcome a c H) as (a' & Eo & _ & Ecm).
  unfold step. rewrite Eo. now destruct (throws c).
Qed.

Lemma countedBy_incl c : incl (countedBy c) (extractConcepts (c_question c)).
Proof.
  unfold countedBy. destruct (inherited (c_topic c)); [|apply incl_refl].
  destruct (isSample (c_timeTaken c)); [intros ? []|].
  destruct (extractConcepts (c_question c)); [intros ? []|].
  intros x [<-|[]]. now left.
Qed.

Lemma counters_history_run calls :
  totalQuestions (run calls) = List.length calls /\
  correctAnswers (run calls) = correctIn calls /\
  questionHistory (run calls) =
    map entryOf (filter (fun c => negb (throws c)) calls).
Proof.
  induction calls as [|c calls IH] using rev_ind.
  - repeat split.
  - destruct IH as (Ht & Hc & Hh). rewrite run_snoc.
    destruct (step_outcome (run calls) c (ownKeys_run calls))
      as (a' & Eo & Eh & _).
    assert (Ea : step (run calls) c = a')
      by (unfold step; rewrite Eo; now destruct (throws c)).
    split; [|split].
    + rewrite length_app. simpl.
      destruct (inherited (c_topic c)) eqn:I.
      * destruct (step_inherited_fields _ c (ownKeys_run calls) I) as (-> & _).
        lia.
      * rewrite step_own by assumption. unfold stepOwn.
        destruct (trackOwn_counters (run calls) (c_topic c) (c_question c)
                    (c_isCorrect c) (c_evaluation c) (c_timeTaken c) (c_now c))
          as [-> _]. lia.
    + rewrite correctIn_snoc, <- Hc.
      destruct (inherited (c_topic c)) eqn:I.
      * now destruct (step_inherited_fields _ c (ownKeys_run calls) I)
          as (_ & -> & _).
      * rewrite step_own by assumption. unfold stepOwn.
        now destruct (trackOwn_counters (run calls) (c_topic c) (c_question c)
                        (c_isCorrect c) (c_evaluation c) (c_timeTaken c)
                        (c_now c)) as [_ ->].
    + rewrite Ea, Eh, Hh, filter_app, map_app. cbn [filter].
      now destruct (throws c).
Qed.

(** X1.  After any calls on a new agent, [totalQuestions] is the number of
    calls and [correctAnswers] the number of calls with a correct answer,
    the calls that throw included; a call throws exactly when its topic
    names a member of [Object.prototype] and it gives a time to store or a
    question that names a concept; and [questionHistory] holds one entry
    for each call that returned, in call order, with the arguments of the
    call and the concepts extracted from its question. *)
Theorem X1_counters_and_history :
  forall calls : list Call,
    totalQuestions (run calls) = List.length calls /\
    correctAnswers (run calls) = correctIn calls /\
    questionHistory (run calls) =
      map entryOf (filter (fun c => negb (throws c)) calls) /\
    (forall c,
       (exists a', trackAnswer (run calls) (c_topic c) (c_question c)
                     (c_isCorrect c) (c_evaluation c) (c_timeTaken c)
                     (c_now c) = Threw a')
       <-> throws c = true).
Proof.
  intros calls. destruct (counters_history_run calls) as (H1 & H2 & H3).
  repeat split; try assumption.
  - intros (a0 & E).
    destruct (step_outcome (run calls) c (ownKeys_run calls)) as (a' & Eo & _).
    rewrite Eo in E. now destruct (throws c).
  - intros T.
    destruct (step_outcome (run calls) c (ownKeys_run calls)) as (a' & Eo & _).
    exists a'. now rewrite Eo, T.
Qed.

(** ** The counters are exact *)

Lemma NoDup_extractConcepts q : NoDup (extractConcepts q).
Proof. rewrite extractConcepts_fold. apply NoDup_fold_addIf. constructor. Qed.

Lemma get_fold_countIn ic l m c :
  NoDup l ->
  get c (fold_left (countIn ic) l m) =
  if includes l c
  then Some (count ic (match get c m with Some s => s | None => newStats end))
  else get c m.
Proof.
  revert m. induction l as [|x l IH]; intros m Hnd; [reflexivity|].
  inversion Hnd as [|? ? Hx Hl]; subst. cbn [fold_left].
  rewrite IH by assumption. cbn [includes existsb].
  fold (includes l c). destruct (str_dec c x) as [->|Hne].
  - replace (str_eqb x x) with true by (symmetry; now apply str_eqb_eq).
    replace (includes l x) with false
      by (symmetry; now apply includes_false).
    cbn [orb]. apply get_countIn_same.
  - replace (str_eqb c x) with false.
    + cbn [orb]. now rewrite get_countIn_other.
    + symmetry. destruct (str_eqb c x) eqn:E; [|reflexivity].
      apply str_eqb_eq in E. contradiction.
Qed.

Lemma statsOf_snoc cs c :
  statsOf (cs ++ [c]) =
  count (c_isCorrect c)
    (match cs with [] => newStats | _ => statsOf cs end).
Proof.
  unfold statsOf, count. rewrite correctIn_snoc, length_app.
  destruct cs; simpl; f_equal; rewrite ?length_app; simpl; lia.
Qed.

Lemma callsFor_snoc topic calls c :
  callsFor topic (calls ++ [c]) =
  callsFor topic calls ++ (if str_eqb (c_topic c) topic then [c] else []).
Proof. unfold callsFor. now rewrite filter_app. Qed.

Lemma callsAbout_snoc concept calls c :
  callsAbout concept (calls ++ [c]) =
  callsAbout concept calls ++
  (if includes (extractConcepts (c_question c)) concept then [c] else []).
Proof. unfold callsAbout. now rewrite filter_app. Qed.

Lemma callsCounting_snoc concept calls c :
  callsCounting concept (calls ++ [c]) =
  callsCounting concept calls ++
  (if includes (countedBy c) concept then [c] else []).
Proof. unfold callsCounting. now rewrite filter_app. Qed.

Lemma match_snoc {A B} (l : list A) (x : A) (f : list A -> B) (d : B) :
  match l ++ [x] with [] => d | y :: r => f (y :: r) end = f (l ++ [x]).
Proof. now destruct l. Qed.

(** The entry of a concept after one more call, which counts the concepts
    of [l]. *)
Lemma concept_entry_snoc (m : obj Stats) cs c l concept :
  NoDup l -> NoDup (keys m) ->
  get concept m =
    match cs with [] => None | y :: r => Some (statsOf (y :: r)) end ->
  get concept (fold_left (countIn (c_isCorrect c)) l m) =
  match cs ++ (if includes l concept then [c] else []) with
  | [] => None
  | y :: r => Some (statsOf (y :: r))
  end.
Proof.
  intros Hl Hnd G. rewrite get_fold_countIn by assumption.
  destruct (includes l concept).
  - rewrite (match_snoc cs c (fun l => Some (statsOf l)) None).
    rewrite statsOf_snoc, G. now destruct cs.
  - rewrite app_nil_r. exact G.
Qed.

Lemma NoDup_countedBy c : NoDup (countedBy c).
Proof.
  unfold countedBy. pose proof (NoDup_extractConcepts (c_question c)) as H.
  destruct (inherited (c_topic c)); [|exact H].
  destruct (isSample (c_timeTaken c)); [constructor|].
  destruct (extractConcepts (c_question c)); [constructor|].
  cbn. constructor; [intros [] | constructor].
Qed.

Lemma countedBy_own c :
  inherited (c_topic c) = false ->
  countedBy c = extractConcepts (c_question c).
Proof. intros H. unfold countedBy. now rewrite H. Qed.

Lemma countLog_new : countLog [] newAgent.
Proof.
  split; [constructor|]. split; [constructor|]. split; [reflexivity|].
  intros topic. now right.
Qed.

Lemma str_eqb_refl s : str_eqb s s = true.
Proof. now apply str_eqb_eq. Qed.

Lemma str_eqb_neq s t : s <> t -> str_eqb s t = false.
Proof.
  intros H. destruct (str_eqb s t) eqn:E; [|reflexivity].
  apply str_eqb_eq in E. contradiction.
Qed.

Lemma countLog_stepOwn calls a c :
  inherited (c_topic c) = false ->
  countLog calls a -> countLog (calls ++ [c]) (stepOwn a c).
Proof.
  intros I (Hnt & Hnc & Hcm & Htp). unfold stepOwn.
  split; [|split; [|split]].
  - rewrite trackOwn_topicPerformance.
    now apply NoDup_keys_set, NoDup_keys_init.
  - rewrite trackOwn_conceptMastery. now apply NoDup_keys_fold_countIn.
  - intros concept. rewrite trackOwn_conceptMastery, callsCounting_snoc.
    rewrite (countedBy_own c I).
    apply concept_entry_snoc; auto using NoDup_extractConcepts.
  - intros topic. rewrite callsFor_snoc.
    destruct (str_dec topic (c_topic c)) as [->|Hne].
    + rewrite trackOwn_get_topic, str_eqb_refl.
      specialize (Htp (c_topic c)). unfold topicStatsAfter, topicStatsAt.
      cbn [t_total t_correct conceptsTests].
      split; [now destruct (callsFor (c_topic c) calls)|].
      destruct (get (c_topic c) (topicPerformance a)) as [ts|].
      * destruct Htp as (Hne & Ht & Hc & Hnd & Hct).
        rewrite Ht, Hc, length_app, correctIn_snoc. simpl.
        split; [lia|]. split; [reflexivity|].
        split; [now apply NoDup_keys_fold_countIn|].
        intros concept. rewrite callsAbout_snoc.
        apply concept_entry_snoc; auto using NoDup_extractConcepts.
      * destruct Htp as [Htp|Htp]; [congruence|]. rewrite Htp.
        split; [reflexivity|].
        split; [unfold correctIn; simpl; now destruct (c_isCorrect c)|].
        split; [apply NoDup_keys_fold_countIn; constructor|].
        intros concept. rewrite callsAbout_snoc.
        apply (concept_entry_snoc [] (callsAbout concept []) c);
          [apply NoDup_extractConcepts | constructor | reflexivity].
    + rewrite trackOwn_get_other by assumption.
      rewrite str_eqb_neq by congruence.
      rewrite app_nil_r. apply Htp.
Qed.

Lemma countLog_step calls a c :
  ownKeys a -> countLog calls a -> countLog (calls ++ [c]) (step a c).
Proof.
  intros Hown H. destruct (inherited (c_topic c)) eqn:I.
  - destruct (step_outcome a c Hown) as (a' & Eo & _ & Ecm).
    assert (Ea : step a c = a')
      by (unfold step; rewrite Eo; now destruct (throws c)).
    destruct (step_inherited_fields a c Hown I) as (_ & _ & Etp & _).
    destruct H as (Hnt & Hnc & Hcm & Htp). unfold countLog.
    rewrite Etp. rewrite Ea, Ecm.
    split; [exact Hnt|]. split; [now apply NoDup_keys_fold_countIn|].
    split.
    + intros concept. rewrite callsCounting_snoc.
      apply concept_entry_snoc; auto using NoDup_countedBy.
    + intros topic. rewrite callsFor_snoc.
      destruct (str_dec topic (c_topic c)) as [->|Hne].
      * destruct Hown as [H1 _].
        rewrite (get_ownKeys_None _ _ H1 I). now left.
      * rewrite str_eqb_neq by congruence. rewrite app_nil_r. apply Htp.
  - rewrite step_own by assumption. now apply countLog_stepOwn.
Qed.

Lemma countLog_run calls : countLog calls (run calls).
Proof.
  induction calls as [|c calls IH] using rev_ind.
  - apply countLog_new.
  - rewrite run_snoc. apply countLog_step; [apply ownKeys_run | exact IH].
Qed.

(** X2.  The report has an entry for a topic exactly when calls were made
    for it and it names no member of [Object.prototype]; its [total] is the
    number of these calls, its [correct] the number of them with a correct
    answer, and its percentage is taken from these two numbers. *)
Theorem X2_report_topic_counts :
  forall (calls : list Call) (topic : jsstring),
    let entry := get topic (topicWise (getPerformanceReport (run calls))) in
    if inherited topic then entry = None
    else
      match callsFor topic calls with
      | [] => entry = None
      | cs =>
          exists tr,
            entry = Some tr /\
            tr_total tr = List.length cs /\
            tr_correct tr = correctIn cs /\
            tr_percentage tr = percentage (correctIn cs) (List.length cs)
      end.
Proof.
  intros calls topic entry. subst entry.
  destruct (countLog_run calls) as (Hnt & _ & _ & Htp).
  specialize (Htp topic).
  unfold getPerformanceReport. cbn [topicWise].
  rewrite (get_fold_set
             (fun stats =>
                {| tr_correct := t_correct stats; tr_total := t_total stats;
                   tr_percentage :=
                     percentage (t_correct stats) (t_total stats);
                   tr_weakAreas := t_weakAreas stats;
                   tr_averageTime := averageTime stats |})
             _ Hnt).
  destruct (inherited topic) eqn:I.
  - destruct (ownKeys_run calls) as [H1 _].
    now rewrite (get_ownKeys_None _ _ H1 I).
  - destruct (get topic (topicPerformance (run calls))) as [ts|].
    + destruct Htp as (Hne & Ht & Hc & _).
      destruct (callsFor topic calls) as [|c cs]; [congruence|].
      eexists. split; [reflexivity|]. cbn. now rewrite Ht, Hc.
    + destruct Htp as [Htp|Htp]; [congruence|]. now rewrite Htp.
Qed.

(** X3.  The report has an entry for a concept exactly when some call has
    counted it: a call counts the concepts of its question, but when it
    throws, where it counts the first of them only, or none if it throws
    for its time; the entry counts these calls, and those of them with a
    correct answer, and gives the percentage of the two. *)
Theorem X3_report_concept_counts :
  forall (calls : list Call) (concept : jsstring),
    get concept (rep_conceptMastery (getPerformanceReport (run calls))) =
    match callsCounting concept calls with
    | [] => None
    | cs => Some (percentages (correctIn cs) (List.length cs))
    end.
Proof.
  intros calls concept.
  destruct (countLog_run calls) as (_ & Hnc & Hcm & _).
  unfold getPerformanceReport. cbn [rep_conceptMastery].
  rewrite (get_fold_set
             (fun stats => percentages (correct stats) (total stats)) _ Hnc).
  rewrite Hcm. now destruct (callsCounting concept calls).
Qed.

(** X4.  Within a topic, the entry of a concept counts the calls made for
    the topic whose question names the concept, and those of them with a
    correct answer; there is none when no such call was made. *)
Theorem X4_topic_concept_counts :
  forall (calls : list Call) (topic concept : jsstring) (ts : TopicStats),
    get topic (topicPerformance (run calls)) = Some ts ->
    get concept (conceptsTests ts) =
    match callsAbout concept (callsFor topic calls) with
    | [] => None
    | cs => Some {| correct := correctIn cs; total := List.length cs |}
    end.
Proof.
  intros calls topic concept ts G.
  destruct (countLog_run calls) as (_ & _ & _ & Htp).
  specialize (Htp topic). rewrite G in Htp.
  destruct Htp as (_ & _ & _ & _ & Hct). apply Hct.
Qed.

(** ** Concepts and weak areas *)

Lemma keys_fold_countIn ic l m k :
  In k (keys (fold_left (countIn ic) l m)) -> In k l \/ In k (keys m).
Proof.
  revert m. induction l as [|x l IH]; intros m; simpl; [now right|].
  intros H. destruct (IH _ H) as [H'|H']; [left; now right|].
  unfold keys in H'. apply in_map_iff in H'. destruct H' as ([k' v] & <- & Hin).
  apply In_countIn in Hin. destruct Hin as [E|Hin].
  - injection E as -> _. left. now left.
  - right. change (In (fst (k', v)) (map fst m)). now apply in_map.
Qed.

Lemma get_Some_keys {V} (k : jsstring) (v : V) (o : obj V) :
  get k o = Some v -> In k (keys o).
Proof.
  intros G. apply get_In in G. change (In (fst (k, v)) (map fst o)).
  now apply in_map.
Qed.

Lemma keys_vocabulary calls :
  incl (keys (conceptMastery (run calls))) technicalTerms.
Proof.
  apply (run_ind (fun a => incl (keys (conceptMastery a)) technicalTerms)).
  - intros ? [].
  - intros a c Hown IH k Hk.
    rewrite step_conceptMastery in Hk by assumption.
    apply keys_fold_countIn in Hk. destruct Hk as [Hk|Hk].
    + apply countedBy_incl in Hk.
      now apply extractConcepts_vocabulary in Hk.
    + now apply IH.
Qed.

Lemma weak_in_keys calls :
  incl (weakAreas (run calls)) (keys (conceptMastery (run calls))).
Proof.
  intros c Hc.
  destruct (run_ind weakTracked weakTracked_new weakTracked_step calls)
    as [Hw _].
  destruct (Hw c Hc) as (s & G & _). now apply get_Some_keys in G.
Qed.

(** X5.  Only words of the fixed vocabulary are ever tracked: after any
    calls, the concepts of the mastery map are vocabulary terms, the weak
    areas are among them, and so the map has at most 16 entries, the weak
    areas are no more than the entries, and the recommended focus has no
    more items than the map has entries. *)
Theorem X5_vocabulary_bound :
  forall calls : list Call,
    let a := run calls in
    incl (keys (conceptMastery a)) technicalTerms /\
    incl (weakAreas a) (keys (conceptMastery a)) /\
    List.length (conceptMastery a) <= 16 /\
    List.length (weakAreas a) <= List.length (conceptMastery a) /\
    List.length (generateRecommendedFocus a) <= List.length (conceptMastery a).
Proof.
  intros calls a.
  destruct (focusReady_run calls) as (Hk & Hw & Ht). fold a in Hk, Hw, Ht.
  assert (Hlen : forall m : obj Stats, List.length (keys m) = List.length m)
    by (intros m; apply length_map).
  split; [apply keys_vocabulary|]. split; [apply weak_in_keys|].
  split; [|split].
  - rewrite <- Hlen.
    apply (NoDup_incl_length Hk (keys_vocabulary calls)).
  - rewrite <- Hlen. apply (NoDup_incl_length Hw (weak_in_keys calls)).
  - rewrite <- Hlen, <- (length_map r_concept).
    apply NoDup_incl_length.
    + apply (Permutation_NoDup
               (Permutation_map r_concept
                  (Permutation_sym (sortByMastery_perm _)))).
      apply NoDup_focus_concepts. apply focusReady_run.
    + intros c Hc. apply in_map_iff in Hc. destruct Hc as (e & <- & He).
      apply (Permutation_in _ (sortByMastery_perm _)) in He.
      apply in_app_iff in He. destruct He as [He|He].
      * apply In_weakRecommendations in He.
        destruct He as (s & _ & G & _). now apply get_Some_keys in G.
      * apply In_practiceRecommendations in He.
        destruct He as (s & G & _).
        change (In (fst (r_concept e, s)) (map fst (conceptMastery a))).
        now apply in_map.
Qed.

Lemma weakByTopic_stepOwn a c :
  weakByTopic a -> weakByTopic (stepOwn a c).
Proof.
  intros IH x.
  assert (Hmono : forall t ts, get t (topicPerformance a) = Some ts ->
            In x (t_weakAreas ts) ->
            exists ts', get t (topicPerformance (stepOwn a c)) = Some ts' /\
                        In x (t_weakAreas ts')).
  { intros t ts G Hin. unfold stepOwn.
    destruct (str_dec t (c_topic c)) as [->|Hne].
    - rewrite trackOwn_get_topic. eexists. split; [reflexivity|].
      unfold topicStatsAfter, topicStatsAt. rewrite G. cbn [t_weakAreas].
      destruct (c_isCorrect c); [exact Hin|]. apply In_fold_addIf. now left.
    - rewrite trackOwn_get_other by assumption. now exists ts. }
  split.
  - intros Hx. unfold stepOwn in Hx. rewrite trackOwn_weakAreas in Hx.
    assert (Hold : In x (weakAreas a) ->
              exists topic ts,
                get topic (topicPerformance (stepOwn a c)) = Some ts /\
                In x (t_weakAreas ts)).
    { intros H. apply IH in H. destruct H as (t & ts & G & Hin).
      destruct (Hmono t ts G Hin) as (ts' & G' & Hin').
      now exists t, ts'. }
    destruct (c_isCorrect c) eqn:Ic; [now apply Hold|].
    apply In_fold_addIf in Hx. destruct Hx as [Hx|[Hx Hb]]; [now apply Hold|].
    exists (c_topic c). eexists. split; [apply trackOwn_get_topic|].
    unfold topicStatsAfter. cbn [t_weakAreas]. rewrite Ic.
    apply In_fold_addIf. right. now split.
  - intros (t & ts & G & Hin). unfold stepOwn in *.
    rewrite trackOwn_weakAreas.
    assert (Hold : In x (weakAreas a) ->
              In x (if c_isCorrect c then weakAreas a
                    else fold_left
                           (addIf (belowMastery
                              (conceptMastery
                                 (trackOwn a (c_topic c) (c_question c)
                                    (c_isCorrect c) (c_evaluation c)
                                    (c_timeTaken c) (c_now c)))))
                           (extractConcepts (c_question c)) (weakAreas a))).
    { intros H. destruct (c_isCorrect c); [exact H|].
      apply In_fold_addIf. now left. }
    destruct (str_dec t (c_topic c)) as [->|Hne].
    + rewrite trackOwn_get_topic in G. injection G as <-.
      unfold topicStatsAfter in Hin. cbn [t_weakAreas] in Hin.
      assert (Hts : In x (t_weakAreas
                            (topicStatsAt (topicPerformance a) (c_topic c))) ->
                    In x (weakAreas a)).
      { unfold topicStatsAt.
        destruct (get (c_topic c) (topicPerformance a)) as [ts0|] eqn:G0;
          [|intros []].
        intros H. apply IH. now exists (c_topic c), ts0. }
      destruct (c_isCorrect c); [now apply Hold, Hts|].
      apply In_fold_addIf in Hin. apply In_fold_addIf.
      destruct Hin as [Hin|Hin]; [left; now apply Hts | now right].
    + rewrite trackOwn_get_other in G by assumption.
      apply Hold, IH. now exists t, ts.
Qed.

Lemma weakByTopic_step a c :
  ownKeys a -> weakByTopic a -> weakByTopic (step a c).
Proof.
  intros Hown H. destruct (inherited (c_topic c)) eqn:I.
  - destruct (step_inherited_fields a c Hown I) as (_ & _ & Etp & Ew & _).
    unfold weakByTopic. rewrite Etp, Ew. exact H.
  - rewrite step_own by assumption. now apply weakByTopic_stepOwn.
Qed.

(** X6.  The global weak areas are exactly the weak areas of the topics: a
    concept is in the weak areas of the agent if and only if it is in the
    weak areas of some topic. *)
Theorem X6_weak_areas_by_topic :
  forall (calls : list Call) (c : jsstring),
    In c (weakAreas (run calls)) <->
    exists topic ts,
      get topic (topicPerformance (run calls)) = Some ts /\
      In c (t_weakAreas ts).
Proof.
  intros calls. apply (run_ind weakByTopic).
  - intros c. split; [intros [] | intros (t & ts & G & _); discriminate].
  - apply weakByTopic_step.
Qed.

Lemma filter_lt {A} (f : A -> bool) (l : list A) (x : A) :
  In x l -> f x = false -> List.length (filter f l) < List.length l.
Proof.
  induction l as [|y l IH]; simpl; [intros []|].
  intros [->|Hin] Hf.
  - rewrite Hf. pose proof (filter_length_le f l). lia.
  - specialize (IH Hin Hf). destruct (f y); simpl; lia.
Qed.

(** X7.  A concept only becomes weak through a wrong answer: if it is in
    the weak areas, some call had an incorrect answer to a question naming
    it, and its entry has fewer correct answers than answers. *)
Theorem X7_weak_needs_wrong_answer :
  forall (calls : list Call) (c : jsstring),
    In c (weakAreas (run calls)) ->
    (exists call, In call calls /\ c_isCorrect call = false /\
                  In c (extractConcepts (c_question call))) /\
    (exists s, get c (conceptMastery (run calls)) = Some s /\
               correct s < total s).
Proof.
  intros calls c Hc.
  assert (Hcall : exists call, In call calls /\ c_isCorrect call = false /\
                    inherited (c_topic call) = false /\
                    In c (extractConcepts (c_question call))).
  { revert Hc. induction calls as [|x calls IH] using rev_ind; [intros []|].
    rewrite run_snoc.
    assert (Hold : In c (weakAreas (run calls)) ->
              exists call, In call (calls ++ [x]) /\
                c_isCorrect call = false /\
                inherited (c_topic call) = false /\
                In c (extractConcepts (c_question call))).
    { intros H. destruct (IH H) as (call & Hin & Hw & He).
      exists call. split; [apply in_app_iff; now left | exact (conj Hw He)]. }
    destruct (inherited (c_topic x)) eqn:I.
    - destruct (step_inherited_fields _ x (ownKeys_run calls) I)
        as (_ & _ & _ & -> & _).
      exact Hold.
    - rewrite step_own by assumption. unfold stepOwn.
      rewrite trackOwn_weakAreas.
      destruct (c_isCorrect x) eqn:Ic; [exact Hold|].
      intros H. apply In_fold_addIf in H. destruct H as [H|[H _]];
        [now apply Hold|].
      exists x. split; [apply in_app_iff; right; now left | now repeat split]. }
  destruct Hcall as (call & Hin & Hw & Io & He).
  split; [exists call; now repeat split|].
  destruct (countLog_run calls) as (_ & _ & Hcm & _).
  assert (Habout : In call (callsCounting c calls)).
  { apply filter_In. split; [exact Hin|].
    rewrite countedBy_own by assumption. now apply includes_In. }
  rewrite Hcm. destruct (callsCounting c calls) as [|y r] eqn:E;
    [destruct Habout|].
  eexists. split; [reflexivity|]. cbn [statsOf correct total].
  unfold correctIn. now apply (filter_lt c_isCorrect (y :: r) call).
Qed.

(** ** A time of zero seconds *)

Lemma trackAnswer_falsy_time a topic question ic ev tt now :
  truthyTime tt = None ->
  timeSpent (stateOf (trackAnswer a topic question ic ev tt now))
  = timeSpent a /\
  getPerformanceReport (stateOf (trackAnswer a topic question ic ev tt now))
  = getPerformanceReport (stateOf (trackAnswer a topic question ic ev None now)).
Proof.
  intros T. unfold trackAnswer. rewrite T. cbn [truthyTime].
  destruct (get topic (init_if_absent topic newTopicStats (topicPerformance a)))
    as [ts|].
  - rewrite fold_countConcept. destruct ic; rewrite ?fold_markWeak;
      split; reflexivity.
  - destruct (extractConcepts question); split; reflexivity.
Qed.

(** X8.  A [timeTaken] of 0, and one that is [NaN], is treated as no time
    at all: the samples of the topic are left as they were, and the report
    is the one that the same call without a time would give. *)
Theorem X8_zero_time_dropped :
  forall (a : Agent) (topic question : jsstring) (isCorrect : bool)
         (evaluation : jsstring) (z : Q) (now : Z),
    (z == 0)%Q ->
    let after timeTaken :=
      stateOf (trackAnswer a topic question isCorrect evaluation timeTaken
                 now) in
    (timeSpent (after (Some (Finite z))) = timeSpent a /\
     getPerformanceReport (after (Some (Finite z)))
     = getPerformanceReport (after None)) /\
    (timeSpent (after (Some NaN)) = timeSpent a /\
     getPerformanceReport (after (Some NaN))
     = getPerformanceReport (after None)).
Proof.
  intros a topic question ic ev z now Hz after.
  assert (T : truthyTime (Some (Finite z)) = None).
  { unfold truthyTime. apply Qeq_bool_iff in Hz. now rewrite Hz. }
  split; apply trackAnswer_falsy_time; [exact T | reflexivity].
Qed.

Lemma X8_witness :
  let after timeTaken :=
    stateOf (trackAnswer (run [exRight]) (js "JS") (js "What is a loop?")
               true (js "Correct!") timeTaken 2000%Z) in
  (timeSpent (after (Some (Finite (0 # 5)))) = timeSpent (run [exRight]) /\
   getPerformanceReport (after (Some (Finite (0 # 5))))
   = getPerformanceReport (after None)) /\
  (timeSpent (after (Some NaN)) = timeSpent (run [exRight]) /\
   getPerformanceReport (after (Some NaN))
   = getPerformanceReport (after None)).
Proof.
  apply (X8_zero_time_dropped (run [exRight]) (js "JS") (js "What is a loop?")
           true (js "Correct!") (0 # 5) 2000%Z).
  reflexivity.
Defined.

(** ** Percentages of the report *)

Lemma correctIn_le calls : correctIn calls <= List.length calls.
Proof. apply filter_length_le. Qed.

(** X9.  Every percentage of the report of an agent that was given calls
    is a number between 0 and 100 with two decimals: the overall one, that
    of each topic and that of each concept. *)
Theorem X9_report_percentages_in_range :
  forall calls : list Call,
    calls <> [] ->
    let r := getPerformanceReport (run calls) in
    inRange (p_percentage (overall r)) /\
    (forall topic tr, get topic (topicWise r) = Some tr ->
                      inRange (tr_percentage tr)) /\
    (forall concept p, get concept (rep_conceptMastery r) = Some p ->
                       inRange (p_percentage p)).
Proof.
  intros calls Hne r. subst r.
  destruct (countLog_run calls) as (Hnt & Hnc & Hcm & Htp).
  destruct (counters_history_run calls) as (Ht & Hc & _).
  unfold getPerformanceReport.
  cbn [overall topicWise rep_conceptMastery percentages p_percentage].
  split; [|split].
  - rewrite Ht, Hc. apply percentage_inRange; [|apply correctIn_le].
    destruct calls; [congruence | simpl; lia].
  - intros topic tr.
    rewrite (get_fold_set
               (fun stats =>
                  {| tr_correct := t_correct stats; tr_total := t_total stats;
                     tr_percentage :=
                       percentage (t_correct stats) (t_total stats);
                     tr_weakAreas := t_weakAreas stats;
                     tr_averageTime := averageTime stats |})
               _ Hnt).
    specialize (Htp topic).
    destruct (get topic (topicPerformance (run calls))) as [ts|];
      [|discriminate].
    intros [= <-]. cbn [tr_percentage].
    destruct Htp as (Hn & -> & -> & _).
    apply percentage_inRange; [|apply correctIn_le].
    destruct (callsFor topic calls); [congruence | simpl; lia].
  - intros concept p.
    rewrite (get_fold_set
               (fun stats => percentages (correct stats) (total stats))
               _ Hnc).
    rewrite Hcm. destruct (callsCounting concept calls) as [|y cs] eqn:E;
      [discriminate|].
    intros [= <-]. cbn [statsOf correct total percentages p_percentage].
    apply percentage_inRange; [simpl; lia | apply correctIn_le].
Qed.

Lemma X9_witness :
  inRange (p_percentage (overall (getPerformanceReport (run [exWrong; exRight])))).
Proof.
  apply (proj1 (X9_report_percentages_in_range [exWrong; exRight]
                  ltac:(discriminate))).
Defined.

Lemma X4_witness :
  get exFunction
    (conceptsTests
       {| t_correct := 1; t_total := 2; t_weakAreas := [exFunction];
          conceptsTests := [(exFunction, {| correct := 1; total := 2 |})];
          averageTime := VString (Fx false 150) |}) =
  match callsAbout exFunction (callsFor (js "JS") [exWrong; exRight]) with
  | [] => None
  | cs => Some {| correct := correctIn cs; total := List.length cs |}
  end.
Proof.
  apply (X4_topic_concept_counts [exWrong; exRight] (js "JS")).
  reflexivity.
Defined.

Lemma X7_witness :
  (exists call, In call [exWrong; exRight] /\ c_isCorrect call = false /\
                In exFunction (extractConcepts (c_question call))) /\
  (exists s, get exFunction (conceptMastery (run [exWrong; exRight])) = Some s /\
             correct s < total s).
Proof.
  apply (X7_weak_needs_wrong_answer [exWrong; exRight] exFunction).
  vm_compute. now left.
Defined.

(** ** Splitting at any separator *)

Lemma split_from_match d s cur :
  d <> [] -> split_from d 0 cur (d ++ s) = rev cur :: split_from d 0 [] s.
Proof.
  intros Hd. change (d ++ s) with ([] ++ d ++ s).
  rewrite split_from_sep; [|exact Hd|exact I]. now rewrite app_nil_r.
Qed.

Lemma join_split_from_any d n :
  d <> [] ->
  forall s cur,
    List.length s <= n ->
    join d (split_from d 0 cur s) = rev cur ++ s.
Proof.
  intros Hd. induction n as [|n IH]; intros s cur Hn.
  - destruct s; [|simpl in Hn; lia]. simpl. now rewrite app_nil_r.
  - destruct s as [|x s]; [simpl; now rewrite app_nil_r|].
    destruct (startsWith d (x :: s)) eqn:E.
    + destruct (startsWith_inv _ _ E) as (r & Er). rewrite Er.
      rewrite split_from_match by assumption.
      rewrite join_cons_app by apply split_from_nonempty.
      rewrite IH; [reflexivity|].
      assert (List.length (x :: s) = List.length d + List.length r)
        by (rewrite Er; apply length_app).
      destruct d; [congruence|]. simpl in *. lia.
    + cbn [split_from]. rewrite E. rewrite IH by (simpl in Hn; lia).
      simpl. now rewrite <- app_assoc.
Qed.

Lemma join_split_any d s : d <> [] -> join d (split d s) = s.
Proof.
  intros Hd. unfold split.
  now rewrite (join_split_from_any d (List.length s) Hd s [] (le_n _)).
Qed.

Lemma occurs_false_border d a rest :
  borderless d -> occurs d a = false -> startsNowhere d a (d ++ rest).
Proof.
  intros Hb. induction a as [|x a IH]; [simpl; trivial|].
  intros H. cbn [occurs] in H. apply orb_false_iff in H. destruct H as [H1 H2].
  split; [|now apply IH].
  destruct (startsWith d ((x :: a) ++ d ++ rest)) eqn:S; [|reflexivity].
  apply startsWith_over in S. destruct S as [S|[Hl S]]; [congruence|].
  rewrite startsWith_short in S by (rewrite length_skipn; lia).
  rewrite Hb in S; [discriminate|]. simpl in *. lia.
Qed.

Lemma answerMark_borderless : borderless answerMark.
Proof.
  intros k [H1 H2].
  do 13 (destruct k as [|k]; [try lia; reflexivity|]).
  simpl in H2. lia.
Qed.

Lemma split_first d a s :
  d <> [] -> borderless d -> occurs d a = false ->
  split d (a ++ d ++ s) = a :: split d s.
Proof.
  intros Hd Hb Ha. unfold split. rewrite split_from_sep.
  - reflexivity.
  - exact Hd.
  - now apply occurs_false_border.
Qed.

Lemma split_absent d a : occurs d a = false -> split d a = [a].
Proof.
  intros Ha. unfold split. rewrite split_from_end; [reflexivity|].
  now apply occurs_false_end.
Qed.

(** ** Theoretical questions *)

Lemma parseTheoryBlock_mark q a :
  occurs answerMark q = false ->
  parseTheoryBlock (q ++ answerMark ++ a) = Ok (Theory (trim q) (trim a)).
Proof.
  intros Hq. unfold parseTheoryBlock. fold answerMark.
  rewrite split_first;
    [|discriminate|apply answerMark_borderless|exact Hq].
  now rewrite join_split_any by discriminate.
Qed.

Lemma parseTheoryBlock_plain block :
  occurs answerMark block = false ->
  parseTheoryBlock block = Ok (Theory (trim block) []).
Proof.
  intros Hb. unfold parseTheoryBlock. fold answerMark.
  rewrite split_absent by assumption. reflexivity.
Qed.

(** X10.  In a theoretical segment, the question is what comes before the
    first [Model Answer:] and the model answer is everything after it, with
    any further [Model Answer:] kept as written, both trimmed.  A segment
    without [Model Answer:] gives its whole text as the question and an
    empty model answer. *)
Theorem X10_theory_block :
  (forall q a : jsstring,
     occurs answerMark q = false ->
     parseTheoryBlock (q ++ answerMark ++ a) = Ok (Theory (trim q) (trim a))) /\
  (forall block : jsstring,
     occurs answerMark block = false ->
     parseTheoryBlock block = Ok (Theory (trim block) [])).
Proof. split; [exact parseTheoryBlock_mark | exact parseTheoryBlock_plain]. Qed.

Lemma X10_witness :
  parseTheoryBlock
    (js "What is hoisting? " ++ answerMark ++
     js " Moving declarations. Model Answer: twice") =
  Ok (Theory (trim (js "What is hoisting? "))
        (trim (js " Moving declarations. Model Answer: twice"))) /\
  parseTheoryBlock (js " What is hoisting? ") =
  Ok (Theory (trim (js " What is hoisting? ")) []).
Proof.
  split.
  - apply (proj1 X10_theory_block). reflexivity.
  - apply (proj2 X10_theory_block). reflexivity.
Defined.

Lemma split_markedText a segments :
  occurs questionMark a = false ->
  Forall (fun s => occurs questionMark s = false) segments ->
  split questionMark (a ++ markedText segments) = a :: segments.
Proof.
  unfold split. revert a.
  induction segments as [|s segments IH]; intros a Ha Hs.
  - simpl. rewrite app_nil_r. now apply split_from_end, occurs_false_end.
  - inversion Hs as [|? ? H1 H2]; subst.
    change (markedText (s :: segments))
      with ((questionMark ++ s) ++ markedText segments).
    rewrite <- app_assoc. rewrite split_from_sep.
    + cbn [rev app]. f_equal. now apply IH.
    + discriminate.
    + now apply occurs_false_before.
Qed.

Lemma theorySegment_nonblank q : blank (theorySegment q) = false.
Proof.
  unfold theorySegment. rewrite !blank_app.
  replace (blank answerMark) with false by reflexivity.
  now rewrite andb_false_r.
Qed.

(** X11.  For a theoretical text made of [N] segments, each after
    [Question: ] and holding [Model Answer:], the extraction returns [N]
    records in the order of the text: the trimmed question and the trimmed
    model answer of each segment.  White space may come first, and the
    question and the answer may span several lines. *)
Theorem X11_theory_text :
  forall (pre : jsstring) (qs : list TheorySource),
    blank pre = true ->
    Forall (fun q => occurs questionMark (theorySegment q) = false /\
                     occurs answerMark (th_text q) = false) qs ->
    generateQuestions (js "theory")
      (pre ++ markedText (map theorySegment qs))
    = Ok (map theoryRecord qs).
Proof.
  intros pre qs Hpre Hqs. rewrite Forall_forall in Hqs.
  change (generateQuestions (js "theory")
            (pre ++ markedText (map theorySegment qs)))
    with (parseQuestions Theoretical
            (pre ++ markedText (map theorySegment qs))).
  cbn [parseQuestions]. unfold questionBlocks. fold questionMark.
  rewrite split_markedText.
  - cbn [filter]. rewrite truthy_trim, Hpre. cbn [negb].
    rewrite filter_all.
    + clear Hpre. induction qs as [|q qs IH]; [reflexivity|].
      cbn [map forBlocks]. unfold theorySegment at 1.
      rewrite parseTheoryBlock_mark by (apply Hqs; now left).
      cbn [bind]. rewrite IH; [reflexivity|].
      intros q' Hq'. apply Hqs. now right.
    + apply Forall_forall. intros b Hb. apply in_map_iff in Hb.
      destruct Hb as (q & <- & _). rewrite truthy_trim.
      now rewrite theorySegment_nonblank.
  - now apply blank_no_questionMark.
  - apply Forall_forall. intros b Hb. apply in_map_iff in Hb.
    destruct Hb as (q & <- & Hq). now apply Hqs.
Qed.

Lemma X11_witness :
  generateQuestions (js "theory")
    ([nl] ++ markedText (map theorySegment exTheory))
  = Ok (map theoryRecord exTheory).
Proof.
  apply (X11_theory_text [nl] exTheory); [reflexivity|].
  repeat constructor.
Defined.

Example theory_records :
  map theoryRecord exTheory =
  [ Theory (js "What is a closure?") (js "A function with its scope.");
    Theory (js "What is hoisting?")
      (js "Declarations are moved up. Model Answer: see above.") ].
Proof. vm_compute. reflexivity. Qed.

(** ** Text before the first question *)

Lemma forBlocks_theory qs :
  Forall (fun q => occurs answerMark (th_text q) = false) qs ->
  forBlocks parseTheoryBlock (map theorySegment qs) = Ok (map theoryRecord qs).
Proof.
  induction 1 as [|q qs Hq Hqs IH]; [reflexivity|].
  cbn [map forBlocks]. unfold theorySegment at 1.
  rewrite parseTheoryBlock_mark by assumption. cbn [bind].
  now rewrite IH.
Qed.

(** X12.  A text that comes before the first [Question: ] and is not blank
    is not discarded: it is parsed as a segment of its own and gives one
    more record, placed first.  For theoretical questions this record has
    the trimmed text as question and an empty model answer. *)
Theorem X12_preamble_record :
  (forall (intro : jsstring) (qs : list McqSource),
     blank intro = false ->
     occurs questionMark intro = false ->
     Forall wellFormed qs ->
     exists r,
       parseMcqBlock intro = Ok r /\
       generateQuestions (js "mcq") (intro ++ rawText qs)
       = Ok (r :: map expected qs)) /\
  (forall (intro : jsstring) (qs : list TheorySource),
     blank intro = false ->
     occurs questionMark intro = false ->
     occurs answerMark intro = false ->
     Forall (fun q => occurs questionMark (theorySegment q) = false /\
                      occurs answerMark (th_text q) = false) qs ->
     generateQuestions (js "theory")
       (intro ++ markedText (map theorySegment qs))
     = Ok (Theory (trim intro) [] :: map theoryRecord qs)).
Proof.
  split.
  - intros intro qs Hb Ho Hwf.
    destruct (parseMcqBlock_total intro Hb) as (q & o & c & E).
    exists (MCQ q o c). split; [exact E|].
    rewrite Forall_forall in Hwf.
    change (generateQuestions (js "mcq") (intro ++ rawText qs))
      with (parseQuestions MultipleChoice (intro ++ rawText qs)).
    cbn [parseQuestions]. unfold questionBlocks. fold questionMark.
    unfold split. rewrite split_rawText.
    + cbn [filter]. rewrite truthy_trim, Hb. cbn [negb].
      rewrite filter_all.
      * cbn [forBlocks]. rewrite E. cbn [bind].
        rewrite (forBlocks_map parseMcqBlock expected segment qs);
          [reflexivity|].
        intros q' Hq'. now apply parseMcqBlock_segment, Hwf.
      * apply Forall_forall. intros b Hin. apply in_map_iff in Hin.
        destruct Hin as (q' & <- & Hq'). rewrite truthy_trim.
        now rewrite segment_nonblank by now apply Hwf.
    + exact Ho.
    + apply Forall_forall. intros q' Hq'. now apply Hwf.
  - intros intro qs Hb Ho Ha Hqs.
    change (generateQuestions (js "theory")
              (intro ++ markedText (map theorySegment qs)))
      with (parseQuestions Theoretical
              (intro ++ markedText (map theorySegment qs))).
    cbn [parseQuestions]. unfold questionBlocks. fold questionMark.
    rewrite split_markedText.
    + cbn [filter]. rewrite truthy_trim, Hb. cbn [negb].
      rewrite filter_all.
      * cbn [forBlocks]. rewrite parseTheoryBlock_plain by assumption.
        cbn [bind]. rewrite forBlocks_theory; [reflexivity|].
        eapply Forall_impl; [|exact Hqs]. cbn beta. tauto.
      * apply Forall_forall. intros b Hin. apply in_map_iff in Hin.
        destruct Hin as (q & <- & _). rewrite truthy_trim.
        now rewrite theorySegment_nonblank.
    + exact Ho.
    + apply Forall_forall. intros b Hin. apply in_map_iff in Hin.
      destruct Hin as (q & <- & Hq). rewrite Forall_forall in Hqs.
      now apply Hqs.
Qed.

Lemma X12_witness :
  (exists r,
     parseMcqBlock (js "Here are your questions:" ++ [nl]) = Ok r /\
     generateQuestions (js "mcq")
       ((js "Here are your questions:" ++ [nl]) ++ rawText exSources)
     = Ok (r :: map expected exSources)) /\
  generateQuestions (js "theory")
    ((js "Here are your questions:" ++ [nl]) ++
     markedText (map theorySegment exTheory))
  = Ok (Theory (trim (js "Here are your questions:" ++ [nl])) []
        :: map theoryRecord exTheory).
Proof.
  split.
  - apply (proj1 X12_preamble_record
             (js "Here are your questions:" ++ [nl]) exSources);
      [reflexivity | reflexivity |].
    constructor; [|constructor; [|constructor]];
      (repeat split;
       [ vm_compute; intuition discriminate
       | vm_compute; intuition discriminate
       | vm_compute; intuition discriminate
       | vm_compute; intuition discriminate
       | vm_compute; intuition discriminate
       | vm_compute; auto 10 ]).
  - apply (proj2 X12_preamble_record
             (js "Here are your questions:" ++ [nl]) exTheory);
      [reflexivity | reflexivity | reflexivity |].
    repeat constructor.
Defined.

(** ** The shape of multiple-choice records *)

Lemma trim_nonempty line : truthy (trim line) = true -> trim line <> [].
Proof. destruct (trim line); [discriminate | discriminate]. Qed.

Lemma blockLines_nonblank block line :
  In line (blockLines block) -> trim line <> [].
Proof.
  unfold blockLines. intros H. apply filter_In in H.
  apply trim_nonempty, H.
Qed.

(** What is left by [trim] is blank only when it is empty. *)
Lemma blank_trim s : blank s = false -> blank (trim s) = false.
Proof.
  intros B. unfold trim, trimEnd.
  destruct (trimStart_nonblank s B) as (c & r & -> & Hc & _).
  assert (B' : blank (rev (c :: r)) = false).
  { rewrite blank_rev. simpl. now rewrite Hc. }
  destruct (trimStart_nonblank _ B') as (c' & r' & -> & Hc' & _).
  rewrite blank_rev. simpl. now rewrite Hc'.
Qed.

Lemma blockLines_question block line :
  In line (blockLines block) -> blank (trim line) = false.
Proof.
  unfold blockLines. intros H. apply filter_In in H. destruct H as [_ H].
  rewrite truthy_trim in H. now apply blank_trim, negb_true_iff.
Qed.

Lemma In_firstn_list {A} (n : nat) (l : list A) (x : A) :
  In x (firstn n l) -> In x l.
Proof.
  intros H. rewrite <- (firstn_skipn n l). apply in_or_app. now left.
Qed.

Lemma parseMcqBlock_shape block q :
  parseMcqBlock block = Ok q -> mcqShape q.
Proof.
  unfold parseMcqBlock.
  destruct (blockLines block) as [|line0 lines] eqn:L; [discriminate|].
  cbn [nth_error]. destruct (correctOf (line0 :: lines)) as [c|];
    [|discriminate].
  cbn [bind]. intros [= <-]. do 3 eexists. split; [reflexivity|].
  split; [|split].
  - apply (blockLines_question block). rewrite L. now left.
  - rewrite length_map. unfold slice_1_5. apply firstn_le_length.
  - apply Forall_forall. intros o Ho. apply in_map_iff in Ho.
    destruct Ho as (line & <- & Hin). unfold slice_1_5 in Hin.
    apply In_firstn_list in Hin. cbn [skipn] in Hin.
    apply (blockLines_nonblank block). rewrite L. now right.
Qed.

Lemma generate_mcq_shape content :
  exists qs,
    generateQuestions (js "mcq") content = Ok qs /\ Forall mcqShape qs.
Proof.
  change (generateQuestions (js "mcq") content)
    with (forBlocks parseMcqBlock (questionBlocks content)).
  destruct (forBlocks_total parseMcqBlock (questionBlocks content))
    as (qs & E & _).
  - intros b Hb. apply questionBlocks_nonblank in Hb.
    destruct (parseMcqBlock_total b Hb) as (q & o & c & ->). eauto.
  - exists qs. split; [exact E|].
    apply forBlocks_each in E.
    induction E as [|b q bs qs' Hq _ IH]; constructor; [|exact IH].
    now apply (parseMcqBlock_shape b).
Qed.

(** X13.  Whatever the text, the multiple-choice extraction returns
    records that all have a question that is not blank, at most four
    options, and no empty option. *)
Theorem X13_mcq_record_shape :
  forall content : jsstring,
    exists qs,
      generateQuestions (js "mcq") content = Ok qs /\ Forall mcqShape qs.
Proof. exact generate_mcq_shape. Qed.

(** A segment with three options: the line of the answer is listed as the
    fourth. *)
Example short_segment :
  parseMcqBlock exShort =
  Ok (MCQ (js "Which loop runs at least once?")
        [js "A) for"; js "B) while"; js "C) do while"; js "Correct: C"]
        (Some (js "C"))).
Proof. vm_compute. reflexivity. Qed.

(** ** Choosing with the arrow keys *)

Lemma keypress_range n i key :
  i < n ->
  match keypress n i key with
  | Choosing j | Resolved j => j < n
  | Exited => True
  end.
Proof.
  intros Hi. unfold keypress.
  destruct (str_eqb (key_name key) (js "up") && (0 <? i)); [lia|].
  destruct (str_eqb (key_name key) (js "down") && (i <? n - 1)) eqn:D.
  - apply andb_true_iff in D. destruct D as [_ D].
    apply Nat.ltb_lt in D. lia.
  - destruct (str_eqb (key_name key) (js "return")); [exact Hi|].
    destruct (str_eqb (key_name key) (js "c") && key_ctrl key);
      [exact I | exact Hi].
Qed.

Lemma keypresses_range n keys :
  forall i, i < n ->
  match keypresses n i keys with
  | Choosing j | Resolved j => j < n
  | Exited => True
  end.
Proof.
  induction keys as [|key keys IH]; intros i Hi; simpl; [exact Hi|].
  pose proof (keypress_range n i key Hi) as H.
  destruct (keypress n i key) as [j|j|]; [now apply IH | exact H | exact I].
Qed.

Lemma selectQuestionType_values keys :
  selectQuestionType keys = Pending \/
  selectQuestionType keys = ProcessExit \/
  selectQuestionType keys = Fulfilled (js "mcq") \/
  selectQuestionType keys = Fulfilled (js "theory").
Proof.
  unfold selectQuestionType.
  pose proof (keypresses_range (List.length questionTypeChoices) keys 0
                ltac:(simpl; lia)) as H.
  destruct (keypresses (List.length questionTypeChoices) 0 keys) as [j|j|];
    [now left | | right; now left].
  right. right. simpl in H.
  destruct j as [|[|j]]; [left; reflexivity | right; reflexivity | lia].
Qed.

(** X15.  Whatever keys are pressed, the index of the selection stays
    within the choices, so [selectQuestionType] never reads a choice that
    does not exist: it is still waiting, or the process has exited, or it
    gives ["mcq"] or ["theory"]. *)
Theorem X15_question_type_selected :
  forall keys : list Key,
    selectQuestionType keys = Pending \/
    selectQuestionType keys = ProcessExit \/
    selectQuestionType keys = Fulfilled (js "mcq") \/
    selectQuestionType keys = Fulfilled (js "theory").
Proof. exact selectQuestionType_values. Qed.

(** X16.  Whatever keys are pressed, a choice made in the menu is one of
    its six entries, and the [switch] of [mainProgram] has a case for
    it. *)
Theorem X16_menu_choice_handled :
  forall (keys : list Key) (choice : nat),
    showMenu keys = Fulfilled choice ->
    choice < List.length menuChoices /\
    exists action, menuCase choice = Some action.
Proof.
  intros keys choice. unfold showMenu.
  pose proof (keypresses_range (List.length menuChoices) keys 0
                ltac:(simpl; lia)) as H.
  destruct (keypresses (List.length menuChoices) 0 keys) as [j|j|];
    try discriminate.
  intros [= <-]. split; [exact H|]. simpl in H.
  do 6 (destruct j as [|j]; [simpl; eauto|]). lia.
Qed.

Lemma X16_witness :
  3 < List.length menuChoices /\ exists action, menuCase 3 = Some action.
Proof.
  apply (X16_menu_choice_handled [keyDown; keyDown; keyDown; keyReturn] 3).
  reflexivity.
Defined.

Lemma keypress_down n i :
  keypress n i keyDown = Choosing (if i <? n - 1 then i + 1 else i).
Proof.
  unfold keypress.
  change (str_eqb (key_name keyDown) (js "up")) with false.
  change (str_eqb (key_name keyDown) (js "down")) with true.
  change (str_eqb (key_name keyDown) (js "return")) with false.
  change (str_eqb (key_name keyDown) (js "c")) with false.
  cbn [andb]. now destruct (i <? n - 1).
Qed.

Lemma keypress_up n i :
  keypress n i keyUp = Choosing (i - 1).
Proof.
  unfold keypress.
  change (str_eqb (key_name keyUp) (js "up")) with true.
  change (str_eqb (key_name keyUp) (js "down")) with false.
  change (str_eqb (key_name keyUp) (js "return")) with false.
  change (str_eqb (key_name keyUp) (js "c")) with false.
  cbn [andb]. destruct (0 <? i) eqn:E; [reflexivity|].
  apply Nat.ltb_ge in E. f_equal. lia.
Qed.

Lemma keypress_return n i : keypress n i keyReturn = Resolved i.
Proof.
  unfold keypress.
  change (str_eqb (key_name keyReturn) (js "up")) with false.
  change (str_eqb (key_name keyReturn) (js "down")) with false.
  change (str_eqb (key_name keyReturn) (js "return")) with true.
  reflexivity.
Qed.

(** X17.  The selection does not wrap around: [k] presses of the down
    arrow move it [k] places down but not past the last choice, and [k]
    presses of the up arrow move it [k] places up but not before the first
    one; the return key then gives the place reached. *)
Theorem X17_selection_saturates :
  forall n i k : nat,
    i < n ->
    keypresses n i (repeat keyDown k ++ [keyReturn])
      = Resolved (Nat.min (i + k) (n - 1)) /\
    keypresses n i (repeat keyUp k ++ [keyReturn]) = Resolved (i - k).
Proof.
  intros n i k. revert i. induction k as [|k IH]; intros i Hi.
  - cbn [repeat app keypresses]. rewrite keypress_return.
    split; f_equal; lia.
  - cbn [repeat app keypresses]. rewrite keypress_down, keypress_up.
    cbv iota beta. split.
    + destruct (i <? n - 1) eqn:E.
      * apply Nat.ltb_lt in E. rewrite (proj1 (IH (i + 1) ltac:(lia))).
        f_equal. lia.
      * apply Nat.ltb_ge in E. rewrite (proj1 (IH i Hi)). f_equal. lia.
    + rewrite (proj2 (IH (i - 1) ltac:(lia))). f_equal. lia.
Qed.

Lemma X17_witness :
  keypresses 2 0 (repeat keyDown 5 ++ [keyReturn])
    = Resolved (Nat.min (0 + 5) (2 - 1)) /\
  keypresses 2 0 (repeat keyUp 5 ++ [keyReturn]) = Resolved (0 - 5).
Proof. apply (X17_selection_saturates 2 0 5). lia. Defined.

(** ** Evaluating an answer *)

(** X18.  [evaluateAnswers] asks the model exactly when the question is
    not blank; for a blank question it answers itself.  What it returns is
    never empty: the content of the reply, or a fixed sentence when there is
    none.  Without a content, or for a blank question, what it returns does
    not start with [Correct!]. *)
Theorem X18_evaluation_never_empty :
  forall (question userAnswer type : jsstring)
         (correctAnswer : option jsstring),
    let request := evaluateAnswers question userAnswer type correctAnswer in
    (forall content, received request content <> []) /\
    (blank question = true ->
     prompts request = [] /\
     forall content,
       received request content = js "No valid question to evaluate.") /\
    (blank question = false ->
     prompts request =
       [evaluationPrompt question userAnswer type correctAnswer] /\
     forall text, text <> [] -> received request (Some text) = text) /\
    (forall content,
       blank question = true \/ content = None \/ content = Some [] ->
       startsWith (js "Correct!") (received request content) = false).
Proof.
  intros question userAnswer type correctAnswer request. subst request.
  unfold evaluateAnswers. rewrite truthy_trim, negb_involutive.
  destruct (blank question) eqn:B; cbn [received prompts].
  - split; [discriminate|]. split; [now split|].
    split; [discriminate|]. reflexivity.
  - split.
    + intros [c|]; cbn; [|discriminate].
      destruct c; cbn; [discriminate | discriminate].
    + split; [discriminate|]. split.
      * split; [reflexivity|]. intros text Ht. destruct text; [congruence|].
        reflexivity.
      * intros content [H|[->| ->]]; [discriminate | reflexivity | reflexivity].
Qed.

Lemma X18_witness :
  (prompts (evaluateAnswers (js "  ") (js "A") (js "mcq") None) = [] /\
   forall content,
     received (evaluateAnswers (js "  ") (js "A") (js "mcq") None) content
     = js "No valid question to evaluate.") /\
  (prompts (evaluateAnswers (js "What is a loop?") (js "A") (js "mcq") None)
   = [evaluationPrompt (js "What is a loop?") (js "A") (js "mcq") None] /\
   forall text, text <> [] ->
     received (evaluateAnswers (js "What is a loop?") (js "A") (js "mcq") None)
       (Some text) = text) /\
  (forall content,
     blank (js "What is a loop?") = true \/ content = None \/
     content = Some [] ->
     startsWith (js "Correct!")
       (received (evaluateAnswers (js "What is a loop?") (js "A") (js "mcq")
                    None) content) = false).
Proof.
  split; [|split].
  - apply (proj1 (proj2 (X18_evaluation_never_empty
                           (js "  ") (js "A") (js "mcq") None))).
    reflexivity.
  - apply (proj1 (proj2 (proj2 (X18_evaluation_never_empty
                           (js "What is a loop?") (js "A") (js "mcq") None)))).
    reflexivity.
  - apply (proj2 (proj2 (proj2 (X18_evaluation_never_empty
                           (js "What is a loop?") (js "A") (js "mcq") None)))).
Defined.

(** ** The interview *)

Lemma answered_le answers questions :
  forall i, answered answers i questions <= List.length questions.
Proof.
  induction questions as [|q qs IH]; intros i; simpl; [lia|].
  specialize (IH (S i)). destruct (isSkip (answers i)); lia.
Qed.

Lemma askQuestions_mcq answers contents questions :
  Forall mcqShape questions ->
  forall i score sent,
    exists score' sent',
      askQuestions (js "mcq") answers contents i questions score sent
      = Ok (score', sent') /\
      score <= score' <= score + answered answers i questions /\
      List.length sent' = List.length sent + answered answers i questions.
Proof.
  induction 1 as [|q qs Hq Hqs IH]; intros i score sent.
  - exists score, sent. simpl. repeat split; lia.
  - destruct Hq as (question & options & correct & -> & Hb & _).
    cbn [askQuestions answered].
    change (str_eqb (js "mcq") (js "mcq")) with true. cbv iota.
    destruct (isSkip (answers i)).
    + destruct (IH (S i) score sent) as (s' & t' & E & Hs & Ht).
      exists s', t'. repeat split; try exact E; lia.
    + unfold evaluateAnswers at 2. unfold evaluateAnswers at 1.
      rewrite truthy_trim, Hb. cbn [negb received prompts].
      match goal with
      | |- context [askQuestions _ _ _ _ _ ?s ?t] =>
          destruct (IH (S i) s t) as (s' & t' & E & Hs & Ht)
      end.
      exists s', t'. rewrite length_app in Ht. cbn [List.length] in Ht.
      split; [exact E|].
      destruct (startsWith (js "Correct!") (orNotAvailable (contents i)));
        split; lia.
Qed.

Lemma filter_questions questions :
  Forall mcqShape questions ->
  filter (fun q => truthy (questionOf q)) questions = questions.
Proof.
  intros H. apply filter_all. eapply Forall_impl; [|exact H].
  intros q (question & options & correct & -> & Hb & _). cbn.
  destruct question; [discriminate | reflexivity].
Qed.

(** X19.  For multiple-choice records with a question that is not blank
    (those the extraction returns), the interview ends with the final
    results: the score is at most the number of questions answered, which
    is at most the number of questions; one evaluation is asked for each
    question answered and none for a question skipped; and the percentage
    is that of the score over the number of all questions, skipped ones
    included. *)
Theorem X19_interview_results :
  forall (questions : list Question) (answers : nat -> jsstring)
         (contents : nat -> option jsstring),
    Forall mcqShape questions ->
    exists score sent,
      startInterview (js "mcq") questions answers contents =
      Ok (Some {| fr_correct := score;
                  fr_total := List.length questions;
                  fr_percentage :=
                    percentage score (List.length questions) |},
          sent) /\
      score <= answered answers 0 questions /\
      answered answers 0 questions <= List.length questions /\
      List.length sent = answered answers 0 questions.
Proof.
  intros questions answers contents H.
  destruct (askQuestions_mcq answers contents questions H 0 0 [])
    as (score & sent & E & Hs & Ht).
  exists score, sent. unfold startInterview. rewrite E. cbn [bind].
  change (str_eqb (js "mcq") (js "mcq")) with true. cbv iota.
  rewrite filter_questions by assumption.
  split; [reflexivity|]. split; [lia|]. split; [apply answered_le|].
  exact Ht.
Qed.

Lemma askQuestions_theory answers contents questions :
  forall i score sent,
    exists sent',
      askQuestions (js "theory") answers contents i questions score sent
      = Ok (score, sent').
Proof.
  induction questions as [|q qs IH]; intros i score sent.
  - now exists sent.
  - cbn [askQuestions].
    change (str_eqb (js "theory") (js "mcq")) with false. cbv iota.
    destruct (isSkip (answers i)); apply IH.
Qed.

(** X20.  The type chosen with the keys, the extraction and the interview
    agree: for a type given by [selectQuestionType], whatever the text of
    the model, the extraction returns records of the kind that the
    interview reads for this type, and the interview does not throw. *)
Theorem X20_selected_type_interview :
  forall (keys : list Key) (type content : jsstring)
         (answers : nat -> jsstring) (contents : nat -> option jsstring),
    selectQuestionType keys = Fulfilled type ->
    exists questions outcome,
      generateQuestions type content = Ok questions /\
      startInterview type questions answers contents = Ok outcome.
Proof.
  intros keys type content answers contents Hsel.
  destruct (selectQuestionType_values keys) as [H|[H|[H|H]]];
    rewrite H in Hsel; try discriminate.
  - replace type with (js "mcq") by congruence.
    destruct (generate_mcq_shape content) as (qs & E & Hq).
    destruct (askQuestions_mcq answers contents qs Hq 0 0 [])
      as (score & sent & Ea & _).
    exists qs. eexists. split; [exact E|].
    unfold startInterview. rewrite Ea. reflexivity.
  - replace type with (js "theory") by congruence.
    assert (Htot : exists qs, generateQuestions (js "theory") content = Ok qs).
    { change (generateQuestions (js "theory") content)
        with (forBlocks parseTheoryBlock (questionBlocks content)).
      destruct (forBlocks_total parseTheoryBlock (questionBlocks content))
        as (qs & E & _); [|now exists qs].
      intros b _. destruct (parseTheoryBlock_total b) as (q & m & ->). eauto. }
    destruct Htot as (qs & E).
    destruct (askQuestions_theory answers contents qs 0 0 []) as (sent & Ea).
    exists qs. eexists. split; [exact E|].
    unfold startInterview. rewrite Ea. reflexivity.
Qed.

Lemma X20_witness :
  exists questions outcome,
    generateQuestions (js "theory") (markedText (map theorySegment exTheory))
    = Ok questions /\
    startInterview (js "theory") questions
      (fun _ => js "it depends") (fun _ => None) = Ok outcome.
Proof.
  apply (X20_selected_type_interview [keyDown; keyReturn]).
  reflexivity.
Defined.

Lemma X19_witness :
  exists score sent,
    startInterview (js "mcq") (map expected exSources)
      (fun i => match i with 0 => js "B" | _ => js "Skip" end)
      (fun _ => Some (js "Correct! It returns the new length.")) =
    Ok (Some {| fr_correct := score;
                fr_total := List.length (map expected exSources);
                fr_percentage :=
                  percentage score (List.length (map expected exSources)) |},
        sent) /\
    score <= answered
               (fun i => match i with 0 => js "B" | _ => js "Skip" end)
               0 (map expected exSources) /\
    answered (fun i => match i with 0 => js "B" | _ => js "Skip" end)
      0 (map expected exSources)
    <= List.length (map expected exSources) /\
    List.length sent =
    answered (fun i => match i with 0 => js "B" | _ => js "Skip" end)
      0 (map expected exSources).
Proof.
  apply (X19_interview_results (map expected exSources)).
  repeat constructor;
    (do 3 eexists; split; [reflexivity|];
     split; [reflexivity|]; split; [simpl; lia|];
     repeat constructor; discriminate).
Defined.

Example interview_scenario :
  startInterview (js "mcq") (map expected exSources)
    (fun i => match i with 0 => js "B" | _ => js "Skip" end)
    (fun _ => Some (js "Correct! It returns the new length.")) =
  Ok (Some {| fr_correct := 1; fr_total := 2;
              fr_percentage := Fx false 5000 |},
      [evaluationPrompt (js "What does push return?") (js "B") (js "mcq")
         (Some (js "B"))]).
Proof. vm_compute. reflexivity. Qed.

Example interview_no_question :
  startInterview (js "mcq") [] (fun _ => []) (fun _ => None) =
  Ok (Some {| fr_correct := 0; fr_total := 0; fr_percentage := FxNaN |}, []).
Proof. reflexivity. Qed.

(** ** Topics do not interfere *)

Lemma pushTime_other topic t spent spent' other :
  other <> topic -> pushTime topic t spent = Some spent' ->
  get other spent' = get other spent.
Proof.
  intros Hne. unfold pushTime.
  destruct (get topic (init_if_absent topic [] spent)); [|discriminate].
  intros [= <-]. rewrite get_update_other by assumption.
  now apply get_init_if_absent_other.
Qed.

(** X21.  A call for a topic, whether it returns or throws, leaves every
    other topic as it was: its statistics, weak areas, concept counters and
    average time, and its time samples. *)
Theorem X21_other_topics_untouched :
  forall (a : Agent) (topic question : jsstring) (isCorrect : bool)
         (evaluation : jsstring) (timeTaken : option number) (now : Z)
         (other : jsstring),
    other <> topic ->
    let a' := stateOf (trackAnswer a topic question isCorrect evaluation
                         timeTaken now) in
    get other (topicPerformance a') = get other (topicPerformance a) /\
    get other (timeSpent a') = get other (timeSpent a).
Proof.
  intros a topic question ic ev tt now other Hne a'. subst a'.
  unfold trackAnswer.
  destruct (get topic (init_if_absent topic newTopicStats (topicPerformance a)))
    as [ts|].
  - destruct (truthyTime tt) as [t|];
      [destruct (pushTime topic t (timeSpent a)) as [spent|] eqn:P|];
      rewrite ?fold_countConcept;
      try (destruct ic; rewrite ?fold_markWeak);
      cbn [stateOf topicPerformance timeSpent];
      rewrite get_set_other by assumption;
      (split; [now apply get_init_if_absent_other|]);
      try reflexivity; now apply (pushTime_other topic t).
  - destruct (truthyTime tt) as [t|];
      [destruct (pushTime topic t (timeSpent a)) as [spent|] eqn:P|];
      try destruct (extractConcepts question);
      cbn [stateOf topicPerformance timeSpent];
      (split; [now apply get_init_if_absent_other|]);
      try reflexivity; now apply (pushTime_other topic t).
Qed.

Lemma X21_witness :
  let a' :=
    stateOf (trackAnswer (run [exWrong; exRight]) (js "CSS")
               (js "What is a class?") false (js "Incorrect.")
               (Some (Finite 5)) 3000%Z) in
  get (js "JS") (topicPerformance a')
  = get (js "JS") (topicPerformance (run [exWrong; exRight])) /\
  get (js "JS") (timeSpent a')
  = get (js "JS") (timeSpent (run [exWrong; exRight])).
Proof.
  apply (X21_other_topics_untouched (run [exWrong; exRight]) (js "CSS")
           (js "What is a class?") false (js "Incorrect.") (Some (Finite 5))
           3000%Z (js "JS")).
  discriminate.
Defined.

(** ** Weak areas, for a topic that is an own key *)

(** X22.  In a call of [trackAnswer] whose topic names no member of
    [Object.prototype], a concept is added to the global weak-area set and
    to the weak-area set of the topic exactly when the answer is not
    correct, the concept is one of those extracted from the question, and
    its global ratio [correct / total], taken after the counters of this
    call have been incremented, is below 0.70.  A concept of either set
    stays in it through any later calls, whatever their topics. *)
Theorem X22_weak_area_update_own_topic :
  forall (a : Agent) (topic question : jsstring) (isCorrect : bool)
         (evaluation : jsstring) (timeTaken : option number) (now : Z),
    inherited topic = false ->
    let a' := stateOf (trackAnswer a topic question isCorrect evaluation
                         timeTaken now) in
    let added c :=
      isCorrect = false /\ In c (extractConcepts question) /\
      exists s, get c (conceptMastery a') = Some s /\
                10 * correct s < 7 * total s in
    (forall c, In c (weakAreas a') <-> In c (weakAreas a) \/ added c) /\
    (exists ts', get topic (topicPerformance a') = Some ts' /\
       forall c, In c (t_weakAreas ts') <->
                 In c (t_weakAreas (topicStatsAt (topicPerformance a) topic))
                 \/ added c) /\
    (forall calls c, In c (weakAreas a) -> In c (weakAreas (runFrom a calls))) /\
    (forall calls t ts c,
       get t (topicPerformance a) = Some ts -> In c (t_weakAreas ts) ->
       exists ts', get t (topicPerformance (runFrom a calls)) = Some ts' /\
                   In c (t_weakAreas ts')).
Proof.
  intros a topic question isCorrect evaluation timeTaken now Hown.
  destruct (weak_area_update_own a topic question isCorrect evaluation
              timeTaken now Hown) as [H1 H2].
  cbv zeta. split; [exact H1|]. split; [exact H2|]. split.
  - intros calls c. apply weakAreas_run_mono.
  - intros calls t ts c. apply topicWeak_run_mono.
Qed.

Lemma X22_witness :
  In exFunction
     (weakAreas (stateOf (trackAnswer newAgent (js "JS")
                            (js "What is a function in JS?") false
                            (js "Incorrect.") None 0%Z))) /\
  In exFunction (weakAreas (runFrom (run [exWrong]) [exRight; exRight; exRight])) /\
  (exists ts',
     get (js "JS")
       (topicPerformance (runFrom (run [exWrong]) [exRight; exRight; exRight]))
     = Some ts' /\ In exFunction (t_weakAreas ts')).
Proof.
  split; [|split].
  - apply (proj1 (X22_weak_area_update_own_topic newAgent (js "JS")
                    (js "What is a function in JS?") false
                    (js "Incorrect.") None 0%Z eq_refl)).
    right. split; [reflexivity|]. split; [vm_compute; now left|].
    exists {| correct := 0; total := 1 |}. split; [reflexivity | simpl; lia].
  - apply (proj1 (proj2 (proj2
             (X22_weak_area_update_own_topic (run [exWrong]) (js "JS") [] true
                [] None 0%Z eq_refl)))).
    vm_compute. now left.
  - apply (proj2 (proj2 (proj2
             (X22_weak_area_update_own_topic (run [exWrong]) (js "JS") [] true
                [] None 0%Z eq_refl)))
             [exRight; exRight; exRight] (js "JS")
             {| t_correct := 0; t_total := 1; t_weakAreas := [exFunction];
                conceptsTests := [(exFunction, {| correct := 0; total := 1 |})];
                averageTime := VNumber 0 |}).
    + reflexivity.
    + now left.
Defined.

(** ** The mean of whole numbers of seconds *)

Lemma Qred_inject_Z k : Qred (inject_Z k) = inject_Z k.
Proof.
  apply Qcanon.Qred_identity. cbn [inject_Z Qnum Qden]. apply Z.gcd_1_r.
Qed.

(** An integer of at most 53 bits is a double. *)
Lemma roundPos_int k :
  (0 < k <= 2 ^ 53)%Z -> roundPos (inject_Z k) = Finite (inject_Z k).
Proof.
  intros Hk.
  assert (Hx : (0 < inject_Z k)%Q)
    by (change 0%Q with (inject_Z 0); rewrite <- Zlt_Qlt; lia).
  destruct (ilog2_spec _ Hx) as [L1 L2].
  set (L := ilog2 (inject_Z k)) in *.
  assert (HL0 : (0 <= L)%Z).
  { destruct (Z_lt_le_dec L 0) as [C|]; [|assumption]. exfalso.
    assert (pow2 (L + 1) <= pow2 0)%Q by (apply pow2_le; lia).
    change (pow2 0) with 1%Q in H.
    assert (1 <= inject_Z k)%Q
      by (change 1%Q with (inject_Z 1); rewrite <- Zle_Qle; lia).
    lra. }
  assert (HL53 : (L <= 53)%Z).
  { destruct (Z_le_gt_dec L 53) as [|C]; [assumption|]. exfalso.
    assert (pow2 54 <= pow2 L)%Q by (apply pow2_le; lia).
    assert (inject_Z k <= pow2 53)%Q
      by (rewrite pow2_Z by lia; rewrite <- Zle_Qle; lia).
    assert (pow2 54 == 2 * pow2 53)%Q by (apply (pow2_S 53)).
    pose proof (pow2_pos 53). lra. }
  assert (V : (val (inject_Z k) == inject_Z k)%Q).
  { unfold val, expo. fold L.
    replace (Z.max (L - 52) (-1074)) with (L - 52)%Z by lia.
    destruct (Z_le_gt_dec L 52) as [Hle|Hgt].
    - assert (E : (inject_Z k / pow2 (L - 52)
                   == inject_Z (k * 2 ^ (52 - L)))%Q).
      { rewrite div_pow2. replace (- (L - 52))%Z with (52 - L)%Z by lia.
        rewrite pow2_Z by lia. now rewrite inject_Z_mult. }
      rewrite (Qfloor_comp_rne _ _ E), rne_int.
      rewrite inject_Z_mult, <- pow2_Z by lia.
      rewrite <- Qmult_assoc, <- pow2_add.
      replace (52 - L + (L - 52))%Z with 0%Z by lia.
      change (pow2 0) with 1%Q. ring.
    - assert (L = 53%Z) by lia. subst L. rewrite H in *.
      assert (Ek : k = (2 ^ 53)%Z).
      { assert (pow2 53 <= inject_Z k)%Q by exact L1.
        rewrite pow2_Z in H0 by lia. rewrite <- Zle_Qle in H0. lia. }
      subst k. vm_compute. reflexivity. }
  unfold roundPos.
  assert (T : Qle_bool (pow2 1024) (val (inject_Z k)) = false).
  { destruct (Qle_bool _ _) eqn:T; [|reflexivity]. exfalso.
    apply Qle_bool_iff in T.
    assert (inject_Z k <= pow2 53)%Q
      by (rewrite pow2_Z by lia; rewrite <- Zle_Qle; lia).
    assert (pow2 53 < pow2 1024)%Q by reflexivity.
    lra. }
  rewrite T. f_equal. rewrite (Qred_complete _ _ V). apply Qred_inject_Z.
Qed.

Lemma round_nat n :
  (Z.of_nat n <= 2 ^ 53)%Z -> round (inject_Z (Z.of_nat n)) = seconds n.
Proof.
  intros H. unfold round, seconds. cbn [inject_Z Qnum].
  destruct (Z.of_nat n) as [|p|p] eqn:E; [reflexivity| |lia].
  apply roundPos_int. lia.
Qed.

Lemma add_seconds a b :
  (Z.of_nat (a + b) <= 2 ^ 53)%Z ->
  add (seconds a) (seconds b) = seconds (a + b).
Proof.
  intros H. unfold seconds at 1 2. cbn [add].
  replace (inject_Z (Z.of_nat a) + inject_Z (Z.of_nat b))%Q
    with (inject_Z (Z.of_nat (a + b))).
  - now apply round_nat.
  - unfold Qplus, inject_Z. cbn [Qnum Qden]. f_equal. lia.
Qed.

Lemma fold_add_mono ks acc : acc <= fold_left Nat.add ks acc.
Proof.
  revert acc. induction ks as [|k ks IH]; intros acc; simpl; [lia|].
  specialize (IH (acc + k)). lia.
Qed.

(** The sum of whole numbers of seconds is exact while it has at most 53
    bits. *)
Lemma sumFrom_seconds ks acc :
  (Z.of_nat (fold_left Nat.add ks acc) <= 2 ^ 53)%Z ->
  sumFrom (seconds acc) (map seconds ks) = seconds (fold_left Nat.add ks acc).
Proof.
  revert acc. induction ks as [|k ks IH]; intros acc H;
    cbn [map sumFrom fold_left]; [reflexivity|].
  cbn [fold_left] in H. rewrite add_seconds.
  - now apply IH.
  - pose proof (fold_add_mono ks (acc + k)). lia.
Qed.

Lemma mean_seconds ks :
  ks <> [] -> (Z.of_nat (sumNat ks) <= 2 ^ 53)%Z ->
  mean (map seconds ks) = round (exactMean ks).
Proof.
  intros Hne H. unfold mean, exactMean.
  change (Finite 0) with (seconds 0). rewrite sumFrom_seconds by exact H.
  rewrite length_map. fold (sumNat ks). unfold seconds, ofNat, div.
  cbn [inject_Z Qnum].
  destruct (Z.of_nat (List.length ks)) eqn:E; [|reflexivity|reflexivity].
  destruct ks; [congruence | discriminate].
Qed.

Lemma exactMean_bounds ks :
  ks <> [] ->
  (0 <= exactMean ks)%Q /\
  (exactMean ks <= inject_Z (Z.of_nat (sumNat ks)))%Q.
Proof.
  intros Hne. unfold exactMean.
  assert (Hn : (1 <= inject_Z (Z.of_nat (List.length ks)))%Q).
  { change 1%Q with (inject_Z 1). rewrite <- Zle_Qle.
    destruct ks; [congruence | simpl List.length; lia]. }
  assert (Hs : (0 <= inject_Z (Z.of_nat (sumNat ks)))%Q)
    by (change 0%Q with (inject_Z 0); rewrite <- Zle_Qle; lia).
  split.
  - apply Qle_shift_div_l; [lra|]. lra.
  - apply Qle_shift_div_r; [lra|]. nra.
Qed.

Lemma ordinary_round_mean ks :
  ks <> [] -> (Z.of_nat (sumNat ks) <= 2 ^ 53)%Z ->
  ordinary (round (exactMean ks)).
Proof.
  intros Hne Hs. destruct (exactMean_bounds ks Hne) as [H0 H1].
  assert (Hb : (exactMean ks <= inject_Z (2 ^ 53))%Q).
  { apply Qle_trans with (1 := H1). rewrite <- Zle_Qle. exact Hs. }
  destruct (round_bounded _ _ _ H0 Hb (roundPos_int (2 ^ 53) ltac:(lia)))
    as (q & -> & Q0 & Q1).
  exists q. split; [reflexivity|]. rewrite Qabs_pos by assumption.
  apply Qle_lt_trans with (1 := Q1). reflexivity.
Qed.

(** X23.  When the samples of a topic are whole numbers of seconds whose
    sum is at most 2^53, its [averageTime] is the text [toFixed(2)] gives
    for the double nearest to their arithmetic mean, and it has exactly two
    decimals: the sum of the doubles is exact, and the division rounds
    once. *)
Theorem X23_average_of_whole_seconds :
  forall (calls : list Call) (topic : jsstring) (ks : list nat),
    inherited topic = false ->
    samples topic calls = map seconds ks ->
    ks <> [] ->
    (Z.of_nat (sumNat ks) <= 2 ^ 53)%Z ->
    exists tr,
      get topic (topicWise (getPerformanceReport (run calls))) = Some tr /\
      tr_averageTime tr = VString (toFixed2 (round (exactMean ks))) /\
      twoDecimals (render (toFixed2 (round (exactMean ks)))).
Proof.
  intros calls topic ks It Es Hne Hs.
  destruct (timeLog_run calls) as (Hnd & _ & Hask & Havg).
  assert (Hs' : samples topic calls <> [])
    by (rewrite Es; destruct ks; [congruence | discriminate]).
  assert (Ha : asked topic calls) by now apply samples_asked.
  destruct (get topic (topicPerformance (run calls))) as [ts|] eqn:G;
    [|now apply Hask in Ha].
  eexists. split; [exact (report_topic _ _ _ Hnd G)|].
  cbn [tr_averageTime]. rewrite (Havg _ _ G).
  rewrite calculateAverageTime_mean by assumption.
  rewrite Es, mean_seconds by assumption. split; [reflexivity|].
  now apply toFixed2_twoDecimals, ordinary_round_mean.
Qed.

Lemma X23_witness :
  exists tr,
    get (js "JS") (topicWise (getPerformanceReport (run exTimed))) = Some tr /\
    tr_averageTime tr = VString (toFixed2 (round (exactMean [1; 2]))) /\
    twoDecimals (render (toFixed2 (round (exactMean [1; 2])))).
Proof.
  apply (X23_average_of_whole_seconds exTimed (js "JS") [1; 2]).
  - reflexivity.
  - reflexivity.
  - discriminate.
  - vm_compute. discriminate.
Defined.

Example average_of_one_and_two :
  match get (js "JS") (topicWise (getPerformanceReport (run exTimed))) with
  | Some tr =>
      match tr_averageTime tr with
      | VString f => render f = js "1.50"
      | VNumber _ => False
      end
  | None => False
  end.
Proof. vm_compute. reflexivity. Qed.

(** ** The threshold tests *)

(** A positive rational at or above a double is rounded to a double at or
    above it, or to infinity. *)
Lemma round_lower x b b' :
  (0 < b)%Q -> (b <= x)%Q -> roundPos b = Finite b' ->
  match round x with
  | Finite q => (b' <= q)%Q
  | Infinity s => s = false
  | NaN => False
  end.
Proof.
  intros Hb Hx Eb. unfold round.
  assert (Hx0 : (0 < x)%Q) by lra.
  destruct (Qnum x) as [|p|p] eqn:En;
    [exfalso; destruct x; unfold Qlt in Hx0; simpl in *; lia | |
     exfalso; destruct x; unfold Qlt in Hx0; simpl in *; lia].
  pose proof (val_mono b x Hb Hx) as M.
  unfold roundPos in *.
  destruct (Qle_bool (pow2 1024) (val b)); [discriminate|].
  assert (Eb' : b' = Qred (val b)) by congruence. subst b'. clear Eb.
  destruct (Qle_bool (pow2 1024) (val x)); [reflexivity|].
  pose proof (Qred_correct (val x)). pose proof (Qred_correct (val b)). lra.
Qed.

Lemma thresholdTest_exact_at c t n d p :
  1 <= t ->
  roundPos (Z.of_nat n # 10) = Finite d ->
  roundPos p = Finite p ->
  (p < d)%Q ->
  (forall c', 10 * c' < n * t ->
     (inject_Z (Z.of_nat c') / inject_Z (Z.of_nat t) <= p)%Q) ->
  0 < n ->
  thresholdTest c t n = ratio_lt c t n 10.
Proof.
  intros Ht Ed Ep Hpd Hbelow Hn. unfold thresholdTest, ofNat.
  assert (Hdiv : div (Finite (inject_Z (Z.of_nat c)))
                     (Finite (inject_Z (Z.of_nat t))) =
                 round (inject_Z (Z.of_nat c) / inject_Z (Z.of_nat t))).
  { unfold div. cbn [inject_Z Qnum].
    destruct (Z.of_nat t) eqn:E; [lia | reflexivity | lia]. }
  rewrite Hdiv. clear Hdiv.
  assert (Hn' : round (Z.of_nat n # 10) = Finite d).
  { unfold round. cbn [Qnum]. destruct (Z.of_nat n) eqn:En; try lia.
    exact Ed. }
  rewrite Hn'.
  assert (Htq : (0 < inject_Z (Z.of_nat t))%Q)
    by (change 0%Q with (inject_Z 0); rewrite <- Zlt_Qlt; lia).
  assert (Hc0 : (0 <= inject_Z (Z.of_nat c) / inject_Z (Z.of_nat t))%Q).
  { apply Qle_shift_div_l; [exact Htq|]. rewrite Qmult_0_l.
    change 0%Q with (inject_Z 0). rewrite <- Zle_Qle. lia. }
  destruct (ratio_lt c t n 10) eqn:R.
  - apply ratio_lt_spec in R.
    destruct (round_bounded _ p p Hc0 (Hbelow c R) Ep) as (q & -> & _ & Hq).
    cbn [ltb]. apply negb_true_iff.
    destruct (Qle_bool d q) eqn:T; [|reflexivity].
    apply Qle_bool_iff in T. exfalso. lra.
  - assert (R' : n * t <= 10 * c).
    { destruct (Nat.lt_ge_cases (10 * c) (n * t)) as [C|C]; [|exact C].
      apply ratio_lt_spec in C. congruence. }
    assert (Hge : (Z.of_nat n # 10 <=
                   inject_Z (Z.of_nat c) / inject_Z (Z.of_nat t))%Q).
    { apply Qle_shift_div_l; [exact Htq|].
      unfold Qle, Qmult, inject_Z. cbn [Qnum Qden]. lia. }
    assert (Hnq : (0 < Z.of_nat n # 10)%Q) by (unfold Qlt; simpl; lia).
    pose proof (round_lower _ _ _ Hnq Hge Ed) as Hl.
    destruct (round (inject_Z (Z.of_nat c) / inject_Z (Z.of_nat t)))
      as [|s|q]; [destruct Hl | subst s; reflexivity |].
    cbn [ltb]. apply negb_false_iff. now apply Qle_bool_iff.
Qed.

Lemma div_zero_test c n :
  0 < n -> thresholdTest c 0 n = false.
Proof.
  intros Hn. unfold thresholdTest, ofNat, div. cbn [inject_Z Qnum Z.of_nat].
  destruct (Z.of_nat c) eqn:Ec; [reflexivity| |lia].
  unfold round. cbn [Qnum]. destruct (Z.of_nat n) eqn:En; try lia.
  unfold roundPos. now destruct (Qle_bool _ _).
Qed.

(** X24.  The three tests of the code on a ratio of counters, below 0.6,
    below 0.7 and below 0.8, taken on doubles, decide as the exact
    comparison of the counters does, while the total is below 2^49. *)
Theorem X24_threshold_tests_exact :
  forall (c t n : nat),
    In n [6; 7; 8] -> (Z.of_nat t < 2 ^ 49)%Z ->
    thresholdTest c t n = ratio_lt c t n 10.
Proof.
  intros c t n Hn Ht. destruct t as [|t].
  - rewrite div_zero_test; [reflexivity|].
    destruct Hn as [<-|[<-|[<-|[]]]]; lia.
  - assert (H1 : 1 <= S t) by lia. revert H1 Ht.
    generalize (S t). clear t. intros t H1 Ht.
    destruct Hn as [<-|[<-|[<-|[]]]].
    + apply (thresholdTest_exact_at c t 6
               (5404319552844595 # 9007199254740992)
               (2702159776422297 # 4503599627370496));
        [assumption | vm_compute; reflexivity | vm_compute; reflexivity
        | reflexivity | | lia].
      intros c' Hc'. apply Qle_shift_div_r.
      * change 0%Q with (inject_Z 0). rewrite <- Zlt_Qlt. lia.
      * unfold Qle, Qmult, inject_Z. cbn [Qnum Qden]. lia.
    + apply (thresholdTest_exact_at c t 7
               (3152519739159347 # 4503599627370496)
               (6305039478318693 # 9007199254740992));
        [assumption | vm_compute; reflexivity | vm_compute; reflexivity
        | reflexivity | | lia].
      intros c' Hc'. apply Qle_shift_div_r.
      * change 0%Q with (inject_Z 0). rewrite <- Zlt_Qlt. lia.
      * unfold Qle, Qmult, inject_Z. cbn [Qnum Qden]. lia.
    + apply (thresholdTest_exact_at c t 8
               (3602879701896397 # 4503599627370496)
               (7205759403792793 # 9007199254740992));
        [assumption | vm_compute; reflexivity | vm_compute; reflexivity
        | reflexivity | | lia].
      intros c' Hc'. apply Qle_shift_div_r.
      * change 0%Q with (inject_Z 0). rewrite <- Zlt_Qlt. lia.
      * unfold Qle, Qmult, inject_Z. cbn [Qnum Qden]. lia.
Qed.

Lemma X24_witness :
  thresholdTest 2 3 7 = ratio_lt 2 3 7 10.
Proof.
  apply (X24_threshold_tests_exact 2 3 7).
  - right. now left.
  - reflexivity.
Defined.

(** ** The percentage shown and the exact percentage *)

Lemma rne_error y : (Qabs (inject_Z (rne y) - y) <= 1 # 2)%Q.
Proof.
  unfold rne. pose proof (Qfloor_le y) as F1. pose proof (Qlt_floor y) as F2.
  rewrite inject_Z_plus in F2. change (inject_Z 1) with 1%Q in F2.
  apply Qabs_Qle_condition.
  destruct (Qcompare_spec (y - inject_Z (Qfloor y)) (1 # 2)) as [H|H|H].
  - destruct (Z.even (Qfloor y)).
    + split; lra.
    + rewrite inject_Z_plus. change (inject_Z 1) with 1%Q. split; lra.
  - split; lra.
  - rewrite inject_Z_plus. change (inject_Z 1) with 1%Q. split; lra.
Qed.

(** Rounding moves a positive rational by half a unit of its last bit at
    most. *)
Lemma val_error x :
  (0 < x)%Q -> (Qabs (val x - x) <= (1 # 2) * pow2 (expo x))%Q.
Proof.
  intros Hx. unfold val. pose proof (pow2_pos (expo x)) as P.
  pose proof (rne_error (x / pow2 (expo x))) as E.
  apply Qabs_Qle_condition in E. destruct E as [E1 E2].
  assert (Ex : (x == x / pow2 (expo x) * pow2 (expo x))%Q)
    by (field; lra).
  apply Qabs_Qle_condition.
  set (y := (x / pow2 (expo x))%Q) in *.
  set (m := inject_Z (rne y)) in *. split; nra.
Qed.

Lemma expo_mono x b : (0 < x)%Q -> (x <= b)%Q -> (expo x <= expo b)%Z.
Proof.
  intros Hx Hb. unfold expo. pose proof (ilog2_mono x b Hx Hb). lia.
Qed.

(** A rational from 0 to a double [b] is rounded to a double that is away
    from it by half a unit of the last bit of [b] at most. *)
Lemma round_close x b b' :
  (0 <= x)%Q -> (x <= b)%Q -> roundPos b = Finite b' ->
  exists q, round x = Finite q /\ (0 <= q)%Q /\ (q <= b')%Q /\
            (Qabs (q - x) <= (1 # 2) * pow2 (expo b))%Q.
Proof.
  intros H0 Hb Eb.
  destruct (round_bounded x b b' H0 Hb Eb) as (q & Eq & Q0 & Q1).
  exists q. repeat split; try assumption.
  pose proof (pow2_pos (expo b)) as Pb.
  unfold round in Eq. destruct (Qnum x) as [|p|p] eqn:En.
  - assert (q = 0%Q) by congruence. subst q.
    assert (x == 0)%Q by (destruct x; unfold Qeq; simpl in *; lia).
    apply Qabs_Qle_condition. split; lra.
  - assert (Hx : (0 < x)%Q) by (destruct x; unfold Qlt; simpl in *; lia).
    unfold roundPos in Eq.
    destruct (Qle_bool (pow2 1024) (val x)); [discriminate|].
    assert (q = Qred (val x)) by congruence. subst q.
    pose proof (Qred_correct (val x)) as R.
    pose proof (val_error x Hx) as E.
    pose proof (pow2_le _ _ (expo_mono x b Hx Hb)) as L.
    apply Qabs_Qle_condition in E. apply Qabs_Qle_condition. split; lra.
  - exfalso. destruct x; unfold Qle in H0; simpl in *; lia.
Qed.

(** X25.  The percentage shown for a part of a total that is not zero is
    the exact percentage in hundredths, [10000 * correct / total], rounded
    to the nearest integer up to the rounding of the two operations on
    doubles: it is away from it by a half and [2^-38] at most. *)
Theorem X25_percentage_near_exact :
  forall c t : nat,
    1 <= t -> c <= t ->
    exists h,
      percentage c t = Fx false h /\
      (Qabs (inject_Z h -
             10000 * (inject_Z (Z.of_nat c) / inject_Z (Z.of_nat t)))
       <= (1 # 2) + pow2 (-38))%Q.
Proof.
  intros c t Ht Hc. unfold percentage, ofNat.
  set (x := (inject_Z (Z.of_nat c) / inject_Z (Z.of_nat t))%Q).
  assert (Hdiv : div (Finite (inject_Z (Z.of_nat c)))
                     (Finite (inject_Z (Z.of_nat t))) = round x).
  { unfold div. cbn [inject_Z Qnum].
    destruct (Z.of_nat t) eqn:E; [lia | reflexivity | lia]. }
  rewrite Hdiv. clear Hdiv.
  assert (Hq : (0 <= x /\ x <= 1)%Q).
  { assert (Hp : (0 < inject_Z (Z.of_nat t))%Q)
      by (change 0%Q with (inject_Z 0); rewrite <- Zlt_Qlt; lia).
    assert (H0 : (0 <= inject_Z (Z.of_nat c))%Q)
      by (change 0%Q with (inject_Z 0); rewrite <- Zle_Qle; lia).
    assert (H1 : (inject_Z (Z.of_nat c) <= inject_Z (Z.of_nat t))%Q)
      by (rewrite <- Zle_Qle; lia).
    unfold x. split.
    - apply Qle_shift_div_l; [exact Hp | lra].
    - apply Qle_shift_div_r; [exact Hp | lra]. }
  destruct Hq as [Q0 Q1].
  destruct (round_close x 1 1 Q0 Q1 roundPos_1) as (q1 & -> & A0 & A1 & A2).
  unfold mul.
  assert (B0 : (0 <= q1 * 100)%Q) by lra.
  assert (B1 : (q1 * 100 <= 100)%Q) by lra.
  destruct (round_close _ 100 100 B0 B1 roundPos_100)
    as (q2 & -> & C0 & C1 & C2).
  unfold toFixed2.
  assert (Ea : (Qabs q2 == q2)%Q) by (now apply Qabs_pos).
  assert (Hs : Qle_bool (inject_Z (10 ^ 21)) (Qabs q2) = false).
  { destruct (Qle_bool _ _) eqn:T; [|reflexivity].
    apply Qle_bool_iff in T. rewrite Ea in T.
    assert (inject_Z (10 ^ 21) == 1000000000000000000000)%Q by reflexivity.
    lra. }
  rewrite Hs.
  assert (Hn : (Qnum q2 <? 0)%Z = false).
  { apply Z.ltb_ge. destruct q2; unfold Qle in C0; simpl in *; lia. }
  rewrite Hn. eexists. split; [reflexivity|].
  set (h := Qfloor (Qabs q2 * 100 + (1 # 2))).
  pose proof (Qfloor_le (Qabs q2 * 100 + (1 # 2))) as F1.
  pose proof (Qlt_floor (Qabs q2 * 100 + (1 # 2))) as F2.
  fold h in F1, F2. rewrite inject_Z_plus in F2.
  change (inject_Z 1) with 1%Q in F2.
  assert (E1 : (pow2 (expo 1) == pow2 (-52))%Q) by reflexivity.
  assert (E100 : (pow2 (expo 100) == pow2 (-46))%Q) by reflexivity.
  assert (P52 : (pow2 (-52) == pow2 (-38) * (1 # 16384))%Q) by reflexivity.
  assert (P46 : (pow2 (-46) == pow2 (-38) * (1 # 256))%Q) by reflexivity.
  pose proof (pow2_pos (-38)) as P38.
  apply Qabs_Qle_condition in A2. apply Qabs_Qle_condition in C2.
  apply Qabs_Qle_condition. split; lra.
Qed.

Lemma X25_witness :
  exists h,
    percentage 23 160 = Fx false h /\
    (Qabs (inject_Z h -
           10000 * (inject_Z (Z.of_nat 23) / inject_Z (Z.of_nat 160)))
     <= (1 # 2) + pow2 (-38))%Q.
Proof.
  apply (X25_percentage_near_exact 23 160); lia.
Defined.
